(** * Breakout: the simulation core of the game, embedded in Rocq

    The C++ sources (Ball.cpp, Paddle.cpp, Brick.cpp, Game.cpp and
    constants.hpp) are translated function by function.  Conventions:

    - [float] quantities are real numbers ([R]).  The modules [Ball],
      [Paddle], [Brick] and [Game] read the arithmetic of the program as
      exact arithmetic and [std::sqrt], [std::sin] and [std::cos] as the
      real functions; they carry the statements about states, branches,
      counts and signs.  The modules [Ball32] and [Game32] write out the
      rounding of every [float] operation of the speed computation and of
      the collision resolvers, with [F32.round]; they carry the statements
      that depend on how binary32 rounds: which bricks the collision test
      sees and how close the speed stays to its target.  The frame time
      cap [0.05f] and the countdown between levels are rounded where they
      stand, in [Game.runIteration].
    - [int] quantities are integers ([Z]).  Signed overflow is undefined in
      C++ and the counters of the game stay far below 2^31.
    - every member function takes the object it mutates and returns the
      new object; [Game] member functions pass the whole [Game.t] along.
    - the keyboard, the event queue, the clock and [std::rand] are inputs. *)

From Stdlib Require Import Reals Machin Lra Lia ZArith List Bool Psatz.
Import ListNotations.

Local Open Scope R_scope.

(** ** The part of SFML the game relies on *)

Module sf.

Record Vector2f := mkVector2f { x : R; y : R }.

Record FloatRect := mkFloatRect
  { left : R; top : R; width : R; height : R }.

(** [sf::Rect<T>::contains]: half-open on the right and bottom edges;
    negative sizes are tolerated. *)
Definition contains (r : FloatRect) (p : Vector2f) : bool :=
  let minX := Rmin (left r) (left r + width r) in
  let maxX := Rmax (left r) (left r + width r) in
  let minY := Rmin (top r) (top r + height r) in
  let maxY := Rmax (top r) (top r + height r) in
  (if Rge_dec (x p) minX then true else false) &&
  (if Rlt_dec (x p) maxX then true else false) &&
  (if Rge_dec (y p) minY then true else false) &&
  (if Rlt_dec (y p) maxY then true else false).

(** [sf::Color], channels in 0..255. *)
Record Color := mkColor { r : Z; g : Z; b : Z; a : Z }.

Definition rgb (r g b : Z) : Color := mkColor r g b 255.

(** [sf::RectangleShape], never rotated or scaled in this program. *)
Record RectangleShape := mkRectangleShape
  { position : Vector2f;
    size : Vector2f;
    outlineThickness : R;
    outlineColor : Color;
    fillColor : Color }.

Definition setPosition (px py : R) (s : RectangleShape) : RectangleShape :=
  mkRectangleShape (mkVector2f px py) (size s) (outlineThickness s)
                   (outlineColor s) (fillColor s).

Definition setFillColor (c : Color) (s : RectangleShape) : RectangleShape :=
  mkRectangleShape (position s) (size s) (outlineThickness s)
                   (outlineColor s) c.

(** [getGlobalBounds] of an untransformed rectangle: SFML takes the
    bounds of the outline, which lies outside the rectangle for a
    positive thickness. *)
Definition getGlobalBounds (s : RectangleShape) : FloatRect :=
  mkFloatRect (x (position s) - outlineThickness s)
              (y (position s) - outlineThickness s)
              (x (size s) + 2 * outlineThickness s)
              (y (size s) + 2 * outlineThickness s).

Definition White : Color := mkColor 255 255 255 255.
Definition Transparent : Color := mkColor 0 0 0 0.

(** [sf::CircleShape], as [Game::drawHUD] sets one up. *)
Record CircleShape := mkCircleShape
  { circleRadius : R;
    circleOrigin : Vector2f;
    circlePosition : Vector2f;
    circleOutlineThickness : R;
    circleOutlineColor : Color;
    circleFillColor : Color }.

(** The keys [Game::processEvents] distinguishes. *)
Inductive Key := Escape | Space | P | H | OtherKey.

Inductive Event := Closed | KeyPressed (code : Key) | OtherEvent.

(** What [sf::Keyboard::isKeyPressed] answers for the four keys that
    [Paddle::update] asks about. *)
Record Keyboard := mkKeyboard
  { keyLeft : bool; keyA : bool; keyRight : bool; keyD : bool }.

End sf.

(** Truncation toward zero, the float to integer conversion of C++. *)
Definition truncR (v : R) : Z :=
  if Rle_dec 0 v then Int_part v else (- Int_part (- v))%Z.

(** ** binary32

    Where a statement depends on how a [float] operation rounds, the
    operation is written with [F32.round]: rounding to the nearest number
    with 24 significant bits, ties to the even one, as IEEE 754 prescribes
    for binary32.  The exponent range is not bounded: overflow and
    underflow, which the sizes in this program stay far away from, are not
    modelled. *)

Module F32.

(** The exponent of a real other than zero: the integer part of its
    base two logarithm. *)
Definition exponent (x : R) : Z := Zfloor (ln (Rabs x) / ln 2).

(** The distance between the binary32 numbers next to [x]. *)
Definition ulp (x : R) : R := powerRZ 2 (exponent x - 23).

(** The nearest integer, the even one at a tie. *)
Definition nearest (y : R) : Z :=
  let n := Zfloor y in
  if Rlt_dec (y - IZR n) (1 / 2) then n
  else if Rgt_dec (y - IZR n) (1 / 2) then (n + 1)%Z
  else if Z.even n then n else (n + 1)%Z.

(** The binary32 number nearest to [x]. *)
Definition round (x : R) : R :=
  if Req_dec_T x 0 then 0 else IZR (nearest (x / ulp x)) * ulp x.

End F32.

(** The unit roundoff of binary32, 2^-24. *)
Definition u32 : R := / 16777216.

(** ** constants.hpp *)

Module Constants.

Definition WINDOW_WIDTH : Z := 800.
Definition WINDOW_HEIGHT : Z := 600.

Definition PADDLE_WIDTH : R := 120.
Definition PADDLE_HEIGHT : R := 14.
Definition PADDLE_SPEED : R := 500.
Definition PADDLE_Y_OFFSET : R := 45.

Definition BALL_RADIUS : R := 8.
Definition BALL_INITIAL_SPEED : R := 320.
Definition BALL_SPEED_STEP : R := 35.
Definition BALL_MAX_SPEED : R := 600.

Definition BRICK_ROWS : nat := 6.
Definition BRICK_COLS : nat := 10.
Definition BRICK_WIDTH : R := 68.
Definition BRICK_HEIGHT : R := 22.
Definition BRICK_PADDING : R := 4.
Definition BRICK_TOP_OFFSET : R := 60.

Definition INITIAL_LIVES : Z := 3.
Definition MAX_LEVELS : Z := 5.
Definition LEVEL_COMPLETE_DELAY : R := 2.

Definition LIFE_INDICATOR_RADIUS : R := 7.
Definition LIFE_INDICATOR_GAP : R := 4.

End Constants.

(** ** Ball.cpp *)

Module Ball.

(** The circle shape has its origin at its centre, so its position is
    the centre of the ball; only that position is kept of the shape. *)
Record t := mk
  { position : sf.Vector2f;
    velocity : sf.Vector2f;
    radius : R;
    moving : bool }.

Definition PI : R := 3.14159265358979323846.

Definition toRadians (degrees : R) : R := degrees * (PI / 180).

Definition Ball (startX startY radius : R) : t :=
  mk (sf.mkVector2f startX startY) (sf.mkVector2f 0 0) radius false.

Definition getPosition (b : t) : sf.Vector2f := position b.
Definition getVelocity (b : t) : sf.Vector2f := velocity b.
Definition getRadius (b : t) : R := radius b.
Definition isMoving (b : t) : bool := moving b.

Definition getSpeed (b : t) : R :=
  sqrt (sf.x (velocity b) * sf.x (velocity b) +
        sf.y (velocity b) * sf.y (velocity b)).

Definition update (deltaTime : R) (b : t) : t :=
  if negb (moving b) then b
  else mk (sf.mkVector2f
             (sf.x (position b) + sf.x (velocity b) * deltaTime)
             (sf.y (position b) + sf.y (velocity b) * deltaTime))
          (velocity b) (radius b) (moving b).

(** [rnd] is the value [std::rand()] returns. *)
Definition launch (rnd : Z) (speed : R) (b : t) : t :=
  if moving b then b
  else
    let angleOffsetDeg := IZR (Z.rem rnd 91) - 45 in
    let angleRad := toRadians (- 90 + angleOffsetDeg) in
    mk (position b)
       (sf.mkVector2f (speed * cos angleRad) (speed * sin angleRad))
       (radius b) true.

Definition reset (px py : R) (b : t) : t :=
  mk (sf.mkVector2f px py) (sf.mkVector2f 0 0) (radius b) false.

Definition setPosition (px py : R) (b : t) : t :=
  mk (sf.mkVector2f px py) (velocity b) (radius b) (moving b).

Definition reverseVelocityX (b : t) : t :=
  mk (position b) (sf.mkVector2f (- sf.x (velocity b)) (sf.y (velocity b)))
     (radius b) (moving b).

Definition reverseVelocityY (b : t) : t :=
  mk (position b) (sf.mkVector2f (sf.x (velocity b)) (- sf.y (velocity b)))
     (radius b) (moving b).

Definition setVelocityX (vx : R) (b : t) : t :=
  mk (position b) (sf.mkVector2f vx (sf.y (velocity b)))
     (radius b) (moving b).

Definition setVelocityY (vy : R) (b : t) : t :=
  mk (position b) (sf.mkVector2f (sf.x (velocity b)) vy)
     (radius b) (moving b).

Definition normaliseSpeed (speed : R) (b : t) : t :=
  let currentSpeed := getSpeed b in
  if Rlt_dec currentSpeed 0.0001 then b
  else mk (position b)
          (sf.mkVector2f (sf.x (velocity b) / currentSpeed * speed)
                         (sf.y (velocity b) / currentSpeed * speed))
          (radius b) (moving b).

End Ball.

(** ** Paddle.cpp *)

Module Paddle.

Record t := mk
  { shape : sf.RectangleShape;
    speed : R;
    width : R;
    height : R }.

Definition Paddle (startX startY width height speed : R) : t :=
  mk (sf.mkRectangleShape (sf.mkVector2f startX startY)
                          (sf.mkVector2f width height)
                          1.5 (sf.rgb 50 130 210) (sf.rgb 100 180 255))
     speed width height.

Definition update (kb : sf.Keyboard) (deltaTime windowWidth : R) (p : t) : t :=
  let horizontalInput := 0 in
  let horizontalInput :=
    if sf.keyLeft kb || sf.keyA kb then horizontalInput - 1
    else horizontalInput in
  let horizontalInput :=
    if sf.keyRight kb || sf.keyD kb then horizontalInput + 1
    else horizontalInput in
  let newX :=
    sf.x (sf.position (shape p)) + horizontalInput * speed p * deltaTime in
  let newX := Rmax 0 (Rmin newX (windowWidth - width p)) in
  mk (sf.setPosition newX (sf.y (sf.position (shape p))) (shape p))
     (speed p) (width p) (height p).

Definition setPositionX (px : R) (p : t) : t :=
  mk (sf.setPosition px (sf.y (sf.position (shape p))) (shape p))
     (speed p) (width p) (height p).

Definition getBounds (p : t) : sf.FloatRect := sf.getGlobalBounds (shape p).

Definition getCentreX (p : t) : R :=
  sf.x (sf.position (shape p)) + width p * 0.5.

Definition getTopY (p : t) : R := sf.y (sf.position (shape p)).

Definition getWidth (p : t) : R := width p.
Definition getHeight (p : t) : R := height p.

End Paddle.

(** ** Brick.cpp *)

Module Brick.

Record t := mk
  { shape : sf.RectangleShape;
    baseColor : sf.Color;
    hitPoints : Z;
    maxHitPoints : Z;
    points : Z;
    destroyed : bool }.

Definition updateColor (b : t) : t :=
  let healthFraction := IZR (hitPoints b) / IZR (maxHitPoints b) in
  let brightnessScale := 0.4 + 0.6 * healthFraction in
  let r := truncR (IZR (sf.r (baseColor b)) * brightnessScale) in
  let g := truncR (IZR (sf.g (baseColor b)) * brightnessScale) in
  let b' := truncR (IZR (sf.b (baseColor b)) * brightnessScale) in
  mk (sf.setFillColor (sf.rgb r g b') (shape b))
     (baseColor b) (hitPoints b) (maxHitPoints b) (points b) (destroyed b).

Definition Brick (px py width height : R) (color : sf.Color)
           (hitPoints points : Z) : t :=
  updateColor
    (mk (sf.mkRectangleShape (sf.mkVector2f px py)
                             (sf.mkVector2f width height)
                             1.5 (sf.mkColor 20 20 20 200)
                             (sf.rgb 255 255 255))
        color hitPoints hitPoints points false).

(** What [draw] sends to the window: nothing for a destroyed brick. *)
Definition draw (b : t) : list sf.RectangleShape :=
  if destroyed b then [] else [shape b].

Definition hit (b : t) : t :=
  if destroyed b then b
  else
    let hitPoints := (hitPoints b - 1)%Z in
    if (hitPoints <=? 0)%Z
    then mk (shape b) (baseColor b) 0 (maxHitPoints b) (points b) true
    else updateColor
           (mk (shape b) (baseColor b) hitPoints (maxHitPoints b)
               (points b) (destroyed b)).

Definition isDestroyed (b : t) : bool := destroyed b.
Definition getBounds (b : t) : sf.FloatRect := sf.getGlobalBounds (shape b).
Definition getPoints (b : t) : Z := points b.
Definition getHitPoints (b : t) : Z := hitPoints b.

End Brick.

(** ** Game.cpp *)

(** GameState.hpp: the eight states, in the order of the enumeration. *)
Inductive GameState :=
  | MainMenu | BallOnPaddle | Playing | Paused
  | LevelComplete | GameOver | Victory | Controls.

Module Game.

Import Constants.

(** Brick layout data, one entry per row, top row first. *)
Definition ROW_COLORS : list sf.Color :=
  [ sf.rgb 220 45 45; sf.rgb 230 120 20; sf.rgb 210 200 20;
    sf.rgb 45 185 45; sf.rgb 45 110 225; sf.rgb 135 45 205 ].

Definition ROW_POINTS : list Z := [60; 50; 40; 30; 20; 10]%Z.

Definition ROW_BASE_HIT_POINTS : list Z := [1; 1; 1; 1; 1; 1]%Z.

(** The members of [Game] that the simulation reads or writes; the
    window is kept as its open flag. *)
Record t := mk
  { windowOpen : bool;
    ball : Ball.t;
    paddle : Paddle.t;
    bricks : list Brick.t;
    state : GameState;
    score : Z;
    lives : Z;
    level : Z;
    ballSpeed : R;
    levelCompleteTimer : R;
    bricksRemaining : Z;
    previousState : GameState }.

Definition setWindowOpen (v : bool) (g : t) : t :=
  mk v (ball g) (paddle g) (bricks g) (state g) (score g) (lives g)
     (level g) (ballSpeed g) (levelCompleteTimer g) (bricksRemaining g)
     (previousState g).

Definition setBall (v : Ball.t) (g : t) : t :=
  mk (windowOpen g) v (paddle g) (bricks g) (state g) (score g) (lives g)
     (level g) (ballSpeed g) (levelCompleteTimer g) (bricksRemaining g)
     (previousState g).

Definition setPaddle (v : Paddle.t) (g : t) : t :=
  mk (windowOpen g) (ball g) v (bricks g) (state g) (score g) (lives g)
     (level g) (ballSpeed g) (levelCompleteTimer g) (bricksRemaining g)
     (previousState g).

Definition setBricks (v : list Brick.t) (g : t) : t :=
  mk (windowOpen g) (ball g) (paddle g) v (state g) (score g) (lives g)
     (level g) (ballSpeed g) (levelCompleteTimer g) (bricksRemaining g)
     (previousState g).

Definition setState (v : GameState) (g : t) : t :=
  mk (windowOpen g) (ball g) (paddle g) (bricks g) v (score g) (lives g)
     (level g) (ballSpeed g) (levelCompleteTimer g) (bricksRemaining g)
     (previousState g).

Definition setScore (v : Z) (g : t) : t :=
  mk (windowOpen g) (ball g) (paddle g) (bricks g) (state g) v (lives g)
     (level g) (ballSpeed g) (levelCompleteTimer g) (bricksRemaining g)
     (previousState g).

Definition setLives (v : Z) (g : t) : t :=
  mk (windowOpen g) (ball g) (paddle g) (bricks g) (state g) (score g) v
     (level g) (ballSpeed g) (levelCompleteTimer g) (bricksRemaining g)
     (previousState g).

Definition setLevel (v : Z) (g : t) : t :=
  mk (windowOpen g) (ball g) (paddle g) (bricks g) (state g) (score g)
     (lives g) v (ballSpeed g) (levelCompleteTimer g) (bricksRemaining g)
     (previousState g).

Definition setBallSpeed (v : R) (g : t) : t :=
  mk (windowOpen g) (ball g) (paddle g) (bricks g) (state g) (score g)
     (lives g) (level g) v (levelCompleteTimer g) (bricksRemaining g)
     (previousState g).

Definition setLevelCompleteTimer (v : R) (g : t) : t :=
  mk (windowOpen g) (ball g) (paddle g) (bricks g) (state g) (score g)
     (lives g) (level g) (ballSpeed g) v (bricksRemaining g)
     (previousState g).

Definition setBricksRemaining (v : Z) (g : t) : t :=
  mk (windowOpen g) (ball g) (paddle g) (bricks g) (state g) (score g)
     (lives g) (level g) (ballSpeed g) (levelCompleteTimer g) v
     (previousState g).

Definition setPreviousState (v : GameState) (g : t) : t :=
  mk (windowOpen g) (ball g) (paddle g) (bricks g) (state g) (score g)
     (lives g) (level g) (ballSpeed g) (levelCompleteTimer g)
     (bricksRemaining g) v.

(** *** Initialisation helpers *)

(** The brick that the inner loop of [createBricks] emplaces at
    ([row], [col]). *)
Definition brickAt (extraHitPoints : Z) (gridStartX : R) (row col : nat)
  : Brick.t :=
  let x := gridStartX + INR col * (BRICK_WIDTH + BRICK_PADDING) in
  let y := BRICK_TOP_OFFSET + INR row * (BRICK_HEIGHT + BRICK_PADDING) in
  let hp := (nth row ROW_BASE_HIT_POINTS 0 + extraHitPoints)%Z in
  let points := (nth row ROW_POINTS 0 * hp)%Z in
  Brick.Brick x y BRICK_WIDTH BRICK_HEIGHT
              (nth row ROW_COLORS (sf.rgb 0 0 0)) hp points.

Definition createBricks (g : t) : t :=
  let extraHitPoints := Z.max 0 (level g - 1) in
  let totalGridWidth :=
    INR BRICK_COLS * BRICK_WIDTH + INR (BRICK_COLS - 1) * BRICK_PADDING in
  let gridStartX := (IZR WINDOW_WIDTH - totalGridWidth) * 0.5 in
  let bricks :=
    flat_map
      (fun row =>
         map (brickAt extraHitPoints gridStartX row) (seq 0 BRICK_COLS))
      (seq 0 BRICK_ROWS) in
  setBricksRemaining (Z.of_nat (length bricks)) (setBricks bricks g).

Definition resetBallOnPaddle (g : t) : t :=
  let ballX := Paddle.getCentreX (paddle g) in
  let ballY := Paddle.getTopY (paddle g) - BALL_RADIUS - 1 in
  setState BallOnPaddle (setBall (Ball.reset ballX ballY (ball g)) g).

Definition restartGame (g : t) : t :=
  let g := setScore 0 g in
  let g := setLives INITIAL_LIVES g in
  let g := setLevel 1 g in
  let g := setBallSpeed BALL_INITIAL_SPEED g in
  let g :=
    setPaddle
      (Paddle.setPositionX ((IZR WINDOW_WIDTH - PADDLE_WIDTH) * 0.5)
                           (paddle g)) g in
  resetBallOnPaddle (createBricks g).

Definition advanceLevel (g : t) : t :=
  let g := setLevel (level g + 1) g in
  let g :=
    setBallSpeed (Rmin (ballSpeed g + BALL_SPEED_STEP) BALL_MAX_SPEED) g in
  let g :=
    setPaddle
      (Paddle.setPositionX ((IZR WINDOW_WIDTH - PADDLE_WIDTH) * 0.5)
                           (paddle g)) g in
  resetBallOnPaddle (createBricks g).

(** The constructor; [fontLoaded] is the result of [font.loadFromFile]. *)
Definition Game (fontLoaded : bool) : t :=
  let g :=
    mk true
       (Ball.Ball (IZR WINDOW_WIDTH * 0.5) (IZR WINDOW_HEIGHT * 0.5)
                  BALL_RADIUS)
       (Paddle.Paddle ((IZR WINDOW_WIDTH - PADDLE_WIDTH) * 0.5)
                      (IZR WINDOW_HEIGHT - PADDLE_Y_OFFSET)
                      PADDLE_WIDTH PADDLE_HEIGHT PADDLE_SPEED)
       [] MainMenu 0 INITIAL_LIVES 1 BALL_INITIAL_SPEED 0 0 MainMenu in
  if negb fontLoaded then setWindowOpen false g
  else resetBallOnPaddle (createBricks g).

(** *** Collision helpers *)

Definition handleWallCollisions (g : t) : t :=
  let pos := Ball.getPosition (ball g) in
  let radius := Ball.getRadius (ball g) in
  let winW := IZR WINDOW_WIDTH in
  let winH := IZR WINDOW_HEIGHT in
  let g :=
    if Rlt_dec (sf.x pos - radius) 0
    then
      let b := Ball.setVelocityX (Rabs (sf.x (Ball.getVelocity (ball g))))
                                 (ball g) in
      setBall (Ball.setPosition radius (sf.y pos) b) g
    else g in
  let g :=
    if Rgt_dec (sf.x pos + radius) winW
    then
      let b := Ball.setVelocityX (- Rabs (sf.x (Ball.getVelocity (ball g))))
                                 (ball g) in
      setBall (Ball.setPosition (winW - radius) (sf.y pos) b) g
    else g in
  let g :=
    if Rlt_dec (sf.y pos - radius) 0
    then
      let b := Ball.setVelocityY (Rabs (sf.y (Ball.getVelocity (ball g))))
                                 (ball g) in
      setBall (Ball.setPosition (sf.x pos) radius b) g
    else g in
  if Rgt_dec (sf.y pos - radius) winH
  then
    let g := setLives (lives g - 1) g in
    if (lives g <=? 0)%Z
    then setState GameOver (setLives 0 g)
    else resetBallOnPaddle g
  else g.

Definition MAX_ANGLE_RAD : R := 75 * (3.14159265 / 180).

Definition handlePaddleCollision (g : t) : t :=
  if Rle_dec (sf.y (Ball.getVelocity (ball g))) 0 then g
  else
    let paddleBounds := Paddle.getBounds (paddle g) in
    let ballPos := Ball.getPosition (ball g) in
    let radius := Ball.getRadius (ball g) in
    let expandedBounds :=
      sf.mkFloatRect (sf.left paddleBounds - radius)
                     (sf.top paddleBounds - radius)
                     (sf.width paddleBounds + 2 * radius)
                     (sf.height paddleBounds + 2 * radius) in
    if negb (sf.contains expandedBounds ballPos) then g
    else
      let b := Ball.setPosition (sf.x ballPos)
                                (sf.top paddleBounds - radius - 0.5)
                                (ball g) in
      let hitOffset :=
        (sf.x ballPos - Paddle.getCentreX (paddle g)) /
        (Paddle.getWidth (paddle g) * 0.5) in
      let hitOffset := Rmax (- 1) (Rmin 1 hitOffset) in
      let angle := hitOffset * MAX_ANGLE_RAD in
      let speed := Ball.getSpeed b in
      let b := Ball.setVelocityX (speed * sin angle) b in
      let b := Ball.setVelocityY (- speed * cos angle) b in
      setBall (Ball.normaliseSpeed (ballSpeed g) b) g.

Definition reflectBall (normal : sf.Vector2f) (g : t) : t :=
  let vel := Ball.getVelocity (ball g) in
  let dot := sf.x vel * sf.x normal + sf.y vel * sf.y normal in
  let b := Ball.setVelocityX (sf.x vel - 2 * dot * sf.x normal) (ball g) in
  let b := Ball.setVelocityY (sf.y vel - 2 * dot * sf.y normal) b in
  setBall b g.

(** One pass of the body of the loop of [handleBrickCollisions] for
    [brick]; [resolved] is [collisionResolvedThisFrame].  The ball centre
    and the radius are read once, before the loop. *)
Definition brickStep (ballCenter : sf.Vector2f) (radius : R)
           (g : t) (resolved : bool) (brick : Brick.t)
  : t * bool * Brick.t :=
  if Brick.isDestroyed brick then (g, resolved, brick)
  else
    let rect := Brick.getBounds brick in
    let closestX :=
      Rmax (sf.left rect)
           (Rmin (sf.x ballCenter) (sf.left rect + sf.width rect)) in
    let closestY :=
      Rmax (sf.top rect)
           (Rmin (sf.y ballCenter) (sf.top rect + sf.height rect)) in
    let dx := sf.x ballCenter - closestX in
    let dy := sf.y ballCenter - closestY in
    let distSq := dx * dx + dy * dy in
    if Rge_dec distSq (radius * radius) then (g, resolved, brick)
    else
      let brick := Brick.hit brick in
      let g :=
        if Brick.isDestroyed brick
        then setBricksRemaining (bricksRemaining g - 1)
               (setScore (score g + Brick.getPoints brick) g)
        else g in
      if negb resolved
      then
        let dist := sqrt distSq in
        let normal :=
          if Rgt_dec dist 0.0001
          then sf.mkVector2f (dx / dist) (dy / dist)
          else sf.mkVector2f 0 (- 1) in
        let g := reflectBall normal g in
        let penetrationDepth := radius - dist in
        let g :=
          setBall
            (Ball.setPosition
               (sf.x ballCenter + sf.x normal * (penetrationDepth + 0.5))
               (sf.y ballCenter + sf.y normal * (penetrationDepth + 0.5))
               (ball g)) g in
        let g := setBall (Ball.normaliseSpeed (ballSpeed g) (ball g)) g in
        (g, true, brick)
      else (g, resolved, brick).

(** The range-based [for] over the bricks, which are updated in place. *)
Fixpoint brickLoop (ballCenter : sf.Vector2f) (radius : R)
         (todo : list Brick.t) (g : t) (resolved : bool)
  : t * bool * list Brick.t :=
  match todo with
  | [] => (g, resolved, [])
  | brick :: rest =>
      let '(g1, resolved1, brick1) :=
        brickStep ballCenter radius g resolved brick in
      let '(g2, resolved2, rest2) :=
        brickLoop ballCenter radius rest g1 resolved1 in
      (g2, resolved2, brick1 :: rest2)
  end.

Definition handleBrickCollisions (g : t) : t :=
  let ballCenter := Ball.getPosition (ball g) in
  let radius := Ball.getRadius (ball g) in
  let '(g', _, bricks') := brickLoop ballCenter radius (bricks g) g false in
  setBricks bricks' g'.

(** *** Main loop steps *)

(** The [KeyPressed] case of [processEvents]; [rnd] is what [std::rand]
    returns should the key launch the ball. *)
Definition handleKeyPressed (rnd : Z) (code : sf.Key) (g : t) : t :=
  match code with
  | sf.Escape =>
      match state g with
      | Controls => setState (previousState g) g
      | _ => setWindowOpen false g
      end
  | sf.Space =>
      match state g with
      | MainMenu => restartGame g
      | BallOnPaddle =>
          setState Playing
            (setBall (Ball.launch rnd (ballSpeed g) (ball g)) g)
      | GameOver | Victory => restartGame g
      | _ => g
      end
  | sf.P =>
      match state g with
      | Playing => setState Paused g
      | Paused => setState Playing g
      | _ => g
      end
  | sf.H =>
      match state g with
      | MainMenu | Paused => setState Controls (setPreviousState (state g) g)
      | Controls => setState (previousState g) g
      | _ => g
      end
  | sf.OtherKey => g
  end.

(** [events] is the queue [pollEvent] reads from during this call, each
    event paired with the value [std::rand] holds ready for it; [pollEvent]
    delivers nothing once the window is closed. *)
Fixpoint processEvents (events : list (sf.Event * Z)) (g : t) : t :=
  match events with
  | [] => g
  | e :: rest =>
      if windowOpen g then
        match e with
        | (sf.Closed, _) => setWindowOpen false g
        | (sf.KeyPressed code, rnd) =>
            processEvents rest (handleKeyPressed rnd code g)
        | (sf.OtherEvent, _) => processEvents rest g
        end
      else g
  end.

Definition update (kb : sf.Keyboard) (deltaTime : R) (g : t) : t :=
  let g :=
    setPaddle (Paddle.update kb deltaTime (IZR WINDOW_WIDTH) (paddle g)) g in
  match state g with
  | BallOnPaddle =>
      let ballX := Paddle.getCentreX (paddle g) in
      let ballY := Paddle.getTopY (paddle g) - BALL_RADIUS - 1 in
      setBall (Ball.reset ballX ballY (ball g)) g
  | _ =>
      let g := setBall (Ball.update deltaTime (ball g)) g in
      let g := handleWallCollisions g in
      let g := handlePaddleCollision g in
      let g := handleBrickCollisions g in
      if (bricksRemaining g <=? 0)%Z
      then
        if (level g >=? MAX_LEVELS)%Z
        then setState Victory g
        else setLevelCompleteTimer LEVEL_COMPLETE_DELAY
               (setState LevelComplete g)
      else g
  end.

(** The literal [0.05f] of [run]: the binary32 number nearest to 0.05,
    which is 13421773 / 2^28. *)
Definition MAX_FRAME_TIME : R := F32.round 0.05.

(** What one iteration of the loop of [run] is given. *)
Record FrameInput := mkFrameInput
  { elapsed : R;
    events : list (sf.Event * Z);
    keyboard : sf.Keyboard }.

(** The body of the loop of [run], rendering apart. *)
Definition runIteration (i : FrameInput) (g : t) : t :=
  let deltaTime := Rmin (elapsed i) MAX_FRAME_TIME in
  let g := processEvents (events i) g in
  match state g with
  | Playing | BallOnPaddle => update (keyboard i) deltaTime g
  | LevelComplete =>
      let g :=
        setLevelCompleteTimer (F32.round (levelCompleteTimer g - deltaTime))
                              g in
      if Rle_dec (levelCompleteTimer g) 0 then advanceLevel g else g
  | _ => g
  end.

(** [run] over the frames the inputs provide, for as long as the window
    is open. *)
Fixpoint run (inputs : list FrameInput) (g : t) : t :=
  match inputs with
  | [] => g
  | i :: rest => if windowOpen g then run rest (runIteration i g) else g
  end.

(** *** Rendering: the shapes handed to [window.draw] *)

(** The loop over the bricks at the head of [render]. *)
Definition drawBricks (g : t) : list sf.RectangleShape :=
  flat_map Brick.draw (bricks g).

(** The body of the loop of [drawHUD] for the life indicator [i]. *)
Definition lifeCircle (lives i : Z) : sf.CircleShape :=
  let indicatorDiameter := LIFE_INDICATOR_RADIUS * 2 in
  let totalIndicatorWidth :=
    IZR INITIAL_LIVES * indicatorDiameter +
    IZR (INITIAL_LIVES - 1) * LIFE_INDICATOR_GAP in
  let indicatorStartX := IZR WINDOW_WIDTH - totalIndicatorWidth - 10 in
  let indicatorY := IZR WINDOW_HEIGHT - indicatorDiameter - 6 in
  let x :=
    indicatorStartX + IZR i * (indicatorDiameter + LIFE_INDICATOR_GAP) +
    LIFE_INDICATOR_RADIUS in
  sf.mkCircleShape
    LIFE_INDICATOR_RADIUS
    (sf.mkVector2f LIFE_INDICATOR_RADIUS LIFE_INDICATOR_RADIUS)
    (sf.mkVector2f x (indicatorY + LIFE_INDICATOR_RADIUS))
    1.5
    (if (i <? lives)%Z then sf.rgb 180 180 180 else sf.rgb 90 90 90)
    (if (i <? lives)%Z then sf.White else sf.Transparent).

(** The life indicators [drawHUD] draws, in the order of the loop. *)
Definition drawLifeIndicators (g : t) : list sf.CircleShape :=
  map (fun i => lifeCircle (lives g) (Z.of_nat i))
      (seq 0 (Z.to_nat INITIAL_LIVES)).

End Game.

(** * The collision code in binary32

    The same functions of Ball.cpp and Game.cpp with every arithmetic
    operation on [float] rounded to binary32, one operation at a time (no
    fused multiply-add), and every literal that is not a binary32 number
    replaced by the nearest one.  [std::abs], [std::min], [std::max], the
    negation and the comparisons are exact.  What [std::sin] and
    [std::cos] return for a [float] is left to the two parameters [sinf]
    and [cosf]. *)

Module Ball32.

Definition getSpeed (b : Ball.t) : R :=
  let vx := sf.x (Ball.velocity b) in
  let vy := sf.y (Ball.velocity b) in
  F32.round (sqrt (F32.round (F32.round (vx * vx) + F32.round (vy * vy)))).

(** [shape.move(velocity * deltaTime)]: the product and the sum are
    rounded. *)
Definition update (deltaTime : R) (b : Ball.t) : Ball.t :=
  if negb (Ball.moving b) then b
  else
    Ball.mk
      (sf.mkVector2f
         (F32.round (sf.x (Ball.position b) +
                     F32.round (sf.x (Ball.velocity b) * deltaTime)))
         (F32.round (sf.y (Ball.position b) +
                     F32.round (sf.y (Ball.velocity b) * deltaTime))))
      (Ball.velocity b) (Ball.radius b) (Ball.moving b).

Definition normaliseSpeed (speed : R) (b : Ball.t) : Ball.t :=
  let currentSpeed := getSpeed b in
  if Rlt_dec currentSpeed (F32.round 0.0001) then b
  else
    Ball.mk (Ball.position b)
      (sf.mkVector2f
         (F32.round (F32.round (sf.x (Ball.velocity b) / currentSpeed) * speed))
         (F32.round (F32.round (sf.y (Ball.velocity b) / currentSpeed) * speed)))
      (Ball.radius b) (Ball.moving b).

(** [static constexpr float PI] of Ball.cpp. *)
Definition PI : R := F32.round 3.14159265358979323846.

Definition toRadians (degrees : R) : R :=
  F32.round (degrees * F32.round (PI / 180)).

(** [rnd] is the value [std::rand()] returns; [sinf] and [cosf] are
    [std::sin] and [std::cos] on [float]. *)
Definition launch (sinf cosf : R -> R) (rnd : Z) (speed : R) (b : Ball.t)
  : Ball.t :=
  if Ball.moving b then b
  else
    let angleOffsetDeg := F32.round (IZR (Z.rem rnd 91) - 45) in
    let angleRad := toRadians (F32.round (- 90 + angleOffsetDeg)) in
    Ball.mk (Ball.position b)
            (sf.mkVector2f (F32.round (speed * cosf angleRad))
                           (F32.round (speed * sinf angleRad)))
            (Ball.radius b) true.

End Ball32.

Module Game32.

(** [sf::Rect<float>::contains]. *)
Definition contains (r : sf.FloatRect) (p : sf.Vector2f) : bool :=
  let minX := Rmin (sf.left r) (F32.round (sf.left r + sf.width r)) in
  let maxX := Rmax (sf.left r) (F32.round (sf.left r + sf.width r)) in
  let minY := Rmin (sf.top r) (F32.round (sf.top r + sf.height r)) in
  let maxY := Rmax (sf.top r) (F32.round (sf.top r + sf.height r)) in
  (if Rge_dec (sf.x p) minX then true else false) &&
  (if Rlt_dec (sf.x p) maxX then true else false) &&
  (if Rge_dec (sf.y p) minY then true else false) &&
  (if Rlt_dec (sf.y p) maxY then true else false).

(** [Paddle::getCentreX]. *)
Definition getCentreX (p : Paddle.t) : R :=
  F32.round (sf.x (sf.position (Paddle.shape p)) +
             F32.round (Paddle.width p * 0.5)).

Definition resetBallOnPaddle (g : Game.t) : Game.t :=
  let ballX := getCentreX (Game.paddle g) in
  let ballY :=
    F32.round
      (F32.round (Paddle.getTopY (Game.paddle g) - Constants.BALL_RADIUS) - 1) in
  Game.setState BallOnPaddle
    (Game.setBall (Ball.reset ballX ballY (Game.ball g)) g).

Definition handleWallCollisions (g : Game.t) : Game.t :=
  let pos := Ball.getPosition (Game.ball g) in
  let radius := Ball.getRadius (Game.ball g) in
  let winW := IZR Constants.WINDOW_WIDTH in
  let winH := IZR Constants.WINDOW_HEIGHT in
  let g :=
    if Rlt_dec (F32.round (sf.x pos - radius)) 0
    then
      let b :=
        Ball.setVelocityX (Rabs (sf.x (Ball.getVelocity (Game.ball g))))
                          (Game.ball g) in
      Game.setBall (Ball.setPosition radius (sf.y pos) b) g
    else g in
  let g :=
    if Rgt_dec (F32.round (sf.x pos + radius)) winW
    then
      let b :=
        Ball.setVelocityX (- Rabs (sf.x (Ball.getVelocity (Game.ball g))))
                          (Game.ball g) in
      Game.setBall
        (Ball.setPosition (F32.round (winW - radius)) (sf.y pos) b) g
    else g in
  let g :=
    if Rlt_dec (F32.round (sf.y pos - radius)) 0
    then
      let b :=
        Ball.setVelocityY (Rabs (sf.y (Ball.getVelocity (Game.ball g))))
                          (Game.ball g) in
      Game.setBall (Ball.setPosition (sf.x pos) radius b) g
    else g in
  if Rgt_dec (F32.round (sf.y pos - radius)) winH
  then
    let g := Game.setLives (Game.lives g - 1) g in
    if (Game.lives g <=? 0)%Z
    then Game.setState GameOver (Game.setLives 0 g)
    else resetBallOnPaddle g
  else g.

(** The [constexpr float] of [handlePaddleCollision]. *)
Definition MAX_ANGLE_RAD : R :=
  F32.round (75 * F32.round (F32.round 3.14159265 / 180)).

Section Libm.

Variables sinf cosf : R -> R.

Definition handlePaddleCollision (g : Game.t) : Game.t :=
  if Rle_dec (sf.y (Ball.getVelocity (Game.ball g))) 0 then g
  else
    let paddleBounds := Paddle.getBounds (Game.paddle g) in
    let ballPos := Ball.getPosition (Game.ball g) in
    let radius := Ball.getRadius (Game.ball g) in
    let expandedBounds :=
      sf.mkFloatRect
        (F32.round (sf.left paddleBounds - radius))
        (F32.round (sf.top paddleBounds - radius))
        (F32.round (sf.width paddleBounds + F32.round (2 * radius)))
        (F32.round (sf.height paddleBounds + F32.round (2 * radius))) in
    if negb (contains expandedBounds ballPos) then g
    else
      let b :=
        Ball.setPosition
          (sf.x ballPos)
          (F32.round (F32.round (sf.top paddleBounds - radius) - 0.5))
          (Game.ball g) in
      let hitOffset :=
        F32.round
          (F32.round (sf.x ballPos - getCentreX (Game.paddle g)) /
           F32.round (Paddle.getWidth (Game.paddle g) * 0.5)) in
      let hitOffset := Rmax (- 1) (Rmin 1 hitOffset) in
      let angle := F32.round (hitOffset * MAX_ANGLE_RAD) in
      let speed := Ball32.getSpeed b in
      let b := Ball.setVelocityX (F32.round (speed * sinf angle)) b in
      let b := Ball.setVelocityY (F32.round (- speed * cosf angle)) b in
      Game.setBall (Ball32.normaliseSpeed (Game.ballSpeed g) b) g.

End Libm.

Definition reflectBall (normal : sf.Vector2f) (g : Game.t) : Game.t :=
  let vel := Ball.getVelocity (Game.ball g) in
  let dot :=
    F32.round (F32.round (sf.x vel * sf.x normal) +
               F32.round (sf.y vel * sf.y normal)) in
  let b :=
    Ball.setVelocityX
      (F32.round (sf.x vel - F32.round (F32.round (2 * dot) * sf.x normal)))
      (Game.ball g) in
  let b :=
    Ball.setVelocityY
      (F32.round (sf.y vel - F32.round (F32.round (2 * dot) * sf.y normal)))
      b in
  Game.setBall b g.

Definition brickStep (ballCenter : sf.Vector2f) (radius : R)
           (g : Game.t) (resolved : bool) (brick : Brick.t)
  : Game.t * bool * Brick.t :=
  if Brick.isDestroyed brick then (g, resolved, brick)
  else
    let rect := Brick.getBounds brick in
    let closestX :=
      Rmax (sf.left rect)
           (Rmin (sf.x ballCenter) (F32.round (sf.left rect + sf.width rect))) in
    let closestY :=
      Rmax (sf.top rect)
           (Rmin (sf.y ballCenter) (F32.round (sf.top rect + sf.height rect))) in
    let dx := F32.round (sf.x ballCenter - closestX) in
    let dy := F32.round (sf.y ballCenter - closestY) in
    let distSq := F32.round (F32.round (dx * dx) + F32.round (dy * dy)) in
    if Rge_dec distSq (F32.round (radius * radius)) then (g, resolved, brick)
    else
      let brick := Brick.hit brick in
      let g :=
        if Brick.isDestroyed brick
        then Game.setBricksRemaining (Game.bricksRemaining g - 1)
               (Game.setScore (Game.score g + Brick.getPoints brick) g)
        else g in
      if negb resolved
      then
        let dist := F32.round (sqrt distSq) in
        let normal :=
          if Rgt_dec dist (F32.round 0.0001)
          then sf.mkVector2f (F32.round (dx / dist)) (F32.round (dy / dist))
          else sf.mkVector2f 0 (- 1) in
        let g := reflectBall normal g in
        let penetrationDepth := F32.round (radius - dist) in
        let g :=
          Game.setBall
            (Ball.setPosition
               (F32.round
                  (sf.x ballCenter +
                   F32.round (sf.x normal *
                              F32.round (penetrationDepth + 0.5))))
               (F32.round
                  (sf.y ballCenter +
                   F32.round (sf.y normal *
                              F32.round (penetrationDepth + 0.5))))
               (Game.ball g)) g in
        let g :=
          Game.setBall
            (Ball32.normaliseSpeed (Game.ballSpeed g) (Game.ball g)) g in
        (g, true, brick)
      else (g, resolved, brick).

Fixpoint brickLoop (ballCenter : sf.Vector2f) (radius : R)
         (todo : list Brick.t) (g : Game.t) (resolved : bool)
  : Game.t * bool * list Brick.t :=
  match todo with
  | [] => (g, resolved, [])
  | brick :: rest =>
      let '(g1, resolved1, brick1) :=
        brickStep ballCenter radius g resolved brick in
      let '(g2, resolved2, rest2) :=
        brickLoop ballCenter radius rest g1 resolved1 in
      (g2, resolved2, brick1 :: rest2)
  end.

Definition handleBrickCollisions (g : Game.t) : Game.t :=
  let ballCenter := Ball.getPosition (Game.ball g) in
  let radius := Ball.getRadius (Game.ball g) in
  let '(g', _, bricks') :=
    brickLoop ballCenter radius (Game.bricks g) g false in
  Game.setBricks bricks' g'.

End Game32.

(** * Properties *)

(** ** Auxiliary notions used by the statements *)

(** [n] successive calls of [hit]. *)
Fixpoint hits (n : nat) (b : Brick.t) : Brick.t :=
  match n with
  | O => b
  | S k => hits k (Brick.hit b)
  end.

(** A brick that is still standing has at least one hit point left.  This
    holds of every brick [createBricks] makes and [hit] keeps it. *)
Definition standing_ok (b : Brick.t) : Prop :=
  Brick.destroyed b = false -> (1 <= Brick.hitPoints b)%Z.

(** The directional intent [Paddle::update] reads off the keyboard. *)
Definition intent (kb : sf.Keyboard) : R :=
  match sf.keyLeft kb || sf.keyA kb, sf.keyRight kb || sf.keyD kb with
  | true, true => 0
  | true, false => - 1
  | false, true => 1
  | false, false => 0
  end.

Definition clamp (v lo hi : R) : R := Rmax lo (Rmin v hi).

Definition paddleX (p : Paddle.t) : R := sf.x (sf.position (Paddle.shape p)).

(** *** The circle against rectangle test of [handleBrickCollisions] *)

(** Nearest point of the rectangle [rect] to [c]. *)
Definition nearest (c : sf.Vector2f) (rect : sf.FloatRect) : sf.Vector2f :=
  sf.mkVector2f
    (clamp (sf.x c) (sf.left rect) (sf.left rect + sf.width rect))
    (clamp (sf.y c) (sf.top rect) (sf.top rect + sf.height rect)).

Definition offsetX (c : sf.Vector2f) (b : Brick.t) : R :=
  sf.x c - sf.x (nearest c (Brick.getBounds b)).

Definition offsetY (c : sf.Vector2f) (b : Brick.t) : R :=
  sf.y c - sf.y (nearest c (Brick.getBounds b)).

Definition distSq (c : sf.Vector2f) (b : Brick.t) : R :=
  offsetX c b * offsetX c b + offsetY c b * offsetY c b.

(** A standing brick whose nearest point is strictly within the radius. *)
Definition collides (c : sf.Vector2f) (rad : R) (b : Brick.t) : bool :=
  negb (Brick.destroyed b) &&
  (if Rlt_dec (distSq c b) (rad * rad) then true else false).

(** The collision normal the code computes. *)
Definition normalOf (c : sf.Vector2f) (b : Brick.t) : sf.Vector2f :=
  let dist := sqrt (distSq c b) in
  if Rgt_dec dist 0.0001
  then sf.mkVector2f (offsetX c b / dist) (offsetY c b / dist)
  else sf.mkVector2f 0 (- 1).

(** Specular reflection [v - 2 (v . n) n]. *)
Definition reflect (v n : sf.Vector2f) : sf.Vector2f :=
  let dot := sf.x v * sf.x n + sf.y v * sf.y n in
  sf.mkVector2f (sf.x v - 2 * dot * sf.x n) (sf.y v - 2 * dot * sf.y n).

(** The response to a hit on [b] along the normal [n]: reflect, push the
    ball out by the penetration depth plus a half, rescale the speed. *)
Definition respond (n : sf.Vector2f) (c : sf.Vector2f) (rad speed : R)
           (b : Brick.t) (ball : Ball.t) : Ball.t :=
  let dist := sqrt (distSq c b) in
  Ball.normaliseSpeed speed
    (Ball.mk (sf.mkVector2f (sf.x c + sf.x n * (rad - dist + 0.5))
                            (sf.y c + sf.y n * (rad - dist + 0.5)))
             (reflect (Ball.velocity ball) n)
             (Ball.radius ball) (Ball.moving ball)).

(** *** Counting and scoring over the brick storage *)

Definition standing (b : Brick.t) : bool := negb (Brick.destroyed b).

Definition countStanding (bs : list Brick.t) : Z :=
  Z.of_nat (length (filter standing bs)).

(** Points still to be earned: those of the standing bricks. *)
Definition standingPoints (bs : list Brick.t) : Z :=
  fold_right (fun b acc => ((if Brick.destroyed b then 0 else Brick.points b) + acc)%Z)
             0%Z bs.

Definition totalPoints (bs : list Brick.t) : Z :=
  fold_right (fun b acc => (Brick.points b + acc)%Z) 0%Z bs.

(** A brick that this pass of the loop destroys. *)
Definition felled (c : sf.Vector2f) (rad : R) (b : Brick.t) : bool :=
  collides c rad b && Brick.destroyed (Brick.hit b).

Definition countFelled (c : sf.Vector2f) (rad : R) (bs : list Brick.t) : Z :=
  Z.of_nat (length (filter (felled c rad) bs)).

Definition felledPoints (c : sf.Vector2f) (rad : R) (bs : list Brick.t) : Z :=
  totalPoints (filter (felled c rad) bs).

(** *** The brick loop in closed form *)

(** What the ball, the score and the count become; the rest of the game
    is not touched by the loop. *)
Definition withBoard (ball : Ball.t) (score remaining : Z) (g : Game.t) : Game.t :=
  Game.mk (Game.windowOpen g) ball (Game.paddle g) (Game.bricks g)
          (Game.state g) score (Game.lives g) (Game.level g)
          (Game.ballSpeed g) (Game.levelCompleteTimer g) remaining
          (Game.previousState g).

Definition hitIfCollides (c : sf.Vector2f) (rad : R) (b : Brick.t) : Brick.t :=
  if collides c rad b then Brick.hit b else b.

(** The ball after the loop: the response to the first colliding brick,
    unless a response was already made. *)
Definition ballAfter (c : sf.Vector2f) (rad speed : R) (resolved : bool)
           (bs : list Brick.t) (ball : Ball.t) : Ball.t :=
  if resolved then ball
  else match find (collides c rad) bs with
       | Some b1 => respond (normalOf c b1) c rad speed b1 ball
       | None => ball
       end.

(** *** The board: what scoring and counting depend on *)

Definition board (g : Game.t) : list Brick.t * Z * Z :=
  (Game.bricks g, Game.score g, Game.bricksRemaining g).

(** [bricksRemaining] counts the standing bricks. *)
Definition countInv (g : Game.t) : Prop :=
  Game.bricksRemaining g = countStanding (Game.bricks g).

(** The score plus the points still standing on the board. *)
Definition banked (g : Game.t) : Z :=
  (Game.score g + standingPoints (Game.bricks g))%Z.

(** *** The grid of a level *)

(** The x coordinate of the first column, as [createBricks] computes it. *)
Definition gridStartX : R :=
  (IZR Constants.WINDOW_WIDTH -
   (INR Constants.BRICK_COLS * Constants.BRICK_WIDTH +
    INR (Constants.BRICK_COLS - 1) * Constants.BRICK_PADDING)) * 0.5.

(** The extra hit points of a level. *)
Definition extraOf (level : Z) : Z := Z.max 0 (level - 1).

(** Row base value times max hit points, summed over the grid. *)
Definition levelValue (extra : Z) : Z :=
  fold_right Z.add 0%Z
    (flat_map
       (fun row =>
          map (fun _ : nat =>
                 (nth row Game.ROW_POINTS 0 *
                  (nth row Game.ROW_BASE_HIT_POINTS 0 + extra))%Z)
              (seq 0 Constants.BRICK_COLS))
       (seq 0 Constants.BRICK_ROWS)).

(** *** The paddle response *)

(** The paddle rectangle grown by the ball radius on every side. *)
Definition expandedBounds (g : Game.t) : sf.FloatRect :=
  let paddleBounds := Paddle.getBounds (Game.paddle g) in
  let radius := Ball.radius (Game.ball g) in
  sf.mkFloatRect (sf.left paddleBounds - radius) (sf.top paddleBounds - radius)
                 (sf.width paddleBounds + 2 * radius)
                 (sf.height paddleBounds + 2 * radius).

(** The paddle responds: the ball heads down and its centre is inside the
    grown rectangle. *)
Definition paddleHit (g : Game.t) : bool :=
  (if Rgt_dec (sf.y (Ball.velocity (Game.ball g))) 0 then true else false) &&
  sf.contains (expandedBounds g) (Ball.position (Game.ball g)).

Definition hitOffsetOf (g : Game.t) : R :=
  clamp ((sf.x (Ball.position (Game.ball g)) - Paddle.getCentreX (Game.paddle g)) /
         (Paddle.getWidth (Game.paddle g) * 0.5))
        (- 1) 1.

Definition launchAngle (g : Game.t) : R := hitOffsetOf g * Game.MAX_ANGLE_RAD.

(** The ball placed above the paddle and sent off at [launchAngle] from
    straight up with the speed it had, before the speed is rescaled. *)
Definition steered (g : Game.t) : Ball.t :=
  let b := Game.ball g in
  Ball.mk (sf.mkVector2f
             (sf.x (Ball.position b))
             (sf.top (Paddle.getBounds (Game.paddle g)) - Ball.radius b - 0.5))
          (sf.mkVector2f (Ball.getSpeed b * sin (launchAngle g))
                         (- Ball.getSpeed b * cos (launchAngle g)))
          (Ball.radius b) (Ball.moving b).

Definition deflected (g : Game.t) : Ball.t :=
  Ball.normaliseSpeed (Game.ballSpeed g) (steered g).

(** *** Play within one level *)

(** The states in which no key rebuilds the brick grid, now or after
    leaving the help screen. *)
Definition inLevel (g : Game.t) : Prop :=
  match Game.state g with
  | BallOnPaddle | Playing | Paused => True
  | Controls => Game.previousState g = Paused
  | _ => False
  end.

(** Every frame of [inputs] starts within the level. *)
Fixpoint staysInLevel (inputs : list Game.FrameInput) (g : Game.t) : Prop :=
  match inputs with
  | [] => True
  | i :: rest => inLevel g /\ staysInLevel rest (Game.runIteration i g)
  end.

(** *** A small game for the examples *)

(** The top left brick of the first level. *)
Definition firstBrick : Brick.t :=
  Brick.Brick 42 60 68 22 (sf.rgb 220 45 45) 1 60.

(** The paddle where the constructor puts it. *)
Definition centredPaddle : Paddle.t := Paddle.Paddle 340 555 120 14 500.

(** A game in play with [firstBrick] alone and the ball moving straight
    up, a few pixels below it. *)
Definition oneBrickGame : Game.t :=
  Game.mk true
          (Ball.mk (sf.mkVector2f 76 95) (sf.mkVector2f 0 (- 320)) 8 true)
          centredPaddle [firstBrick] Playing 0 3 1 320 0 1 MainMenu.

(** The same game once the frame [quietFrame] has run. *)
Definition oneBrickGameAfter : Game.t :=
  Game.mk true
          (Ball.mk (sf.mkVector2f 76 92) (sf.mkVector2f 0 320) 8 true)
          centredPaddle [Brick.hit firstBrick] LevelComplete 60 3 1 320 2 0
          MainMenu.

(** The countdown after that frame with as little left as one capped
    frame takes. *)
Definition lastMomentGame : Game.t :=
  Game.setLevelCompleteTimer Game.MAX_FRAME_TIME oneBrickGameAfter.

(** A frame that took a whole second, with no event and no key held. *)
Definition longFrame : Game.FrameInput :=
  Game.mkFrameInput 1 [] (sf.mkKeyboard false false false false).

(** A frame of an eightieth of a second with no event and no key held. *)
Definition quietFrame : Game.FrameInput :=
  Game.mkFrameInput 0.0125 [] (sf.mkKeyboard false false false false).

(** [oneBrickGame] with the ball coming down on the middle of the
    paddle. *)
Definition paddleGame : Game.t :=
  Game.setBall (Ball.mk (sf.mkVector2f 400 548) (sf.mkVector2f 0 320) 8 true)
               oneBrickGame.

(** The neighbour of [firstBrick] to the right. *)
Definition secondBrick : Brick.t :=
  Brick.Brick 114 60 68 22 (sf.rgb 220 45 45) 1 60.

(** The ball under the gap between [firstBrick] and [secondBrick],
    reaching both. *)
Definition twoBrickGame : Game.t :=
  Game.mk true
          (Ball.mk (sf.mkVector2f 112 88) (sf.mkVector2f 0 (- 320)) 8 true)
          centredPaddle [firstBrick; secondBrick] Playing 0 3 1 320 0 2
          MainMenu.

(** The ball centre 2^-15 of a pixel to the left of [firstBrick], moving
    straight down at speed 320. *)
Definition sliverGame : Game.t :=
  Game.mk true
          (Ball.mk (sf.mkVector2f (1327103 / 32768) 70) (sf.mkVector2f 0 320)
                   8 true)
          centredPaddle [firstBrick] Playing 0 3 1 320 0 1 MainMenu.

(** The ball centre below and to the right of the lower right corner of
    [firstBrick], a hair less than the radius away from it. *)
Definition cornerGame : Game.t :=
  Game.mk true
          (Ball.mk (sf.mkVector2f (244627 / 2048) (691579 / 8192))
                   (sf.mkVector2f 0 (- 320)) 8 true)
          centredPaddle [firstBrick] Playing 0 3 1 320 0 1 MainMenu.

(** *** Events that no branch of [processEvents] reacts to *)

Definition ignoredEvent (e : sf.Event * Z) : Prop :=
  fst e = sf.OtherEvent \/ fst e = sf.KeyPressed sf.OtherKey.

(** *** Rectangles *)

(** Two rectangles with at least one pixel between them. *)
Definition apart (r1 r2 : sf.FloatRect) : Prop :=
  sf.left r1 + sf.width r1 + 1 <= sf.left r2 \/
  sf.left r2 + sf.width r2 + 1 <= sf.left r1 \/
  sf.top r1 + sf.height r1 + 1 <= sf.top r2 \/
  sf.top r2 + sf.height r2 + 1 <= sf.top r1.

(** A brick of some level's fresh grid, after some number of hits. *)
Definition gridBrick (b : Brick.t) : Prop :=
  exists g0 b0 k, In b0 (Game.bricks (Game.createBricks g0)) /\ b = hits k b0.

(** *** What holds of every game that a run can reach *)

(** Where the ball rests on the paddle [p]. *)
Definition restingBall (p : Paddle.t) : Ball.t :=
  Ball.mk (sf.mkVector2f (Paddle.getCentreX p)
                         (Paddle.getTopY p - Constants.BALL_RADIUS - 1))
          (sf.mkVector2f 0 0) Constants.BALL_RADIUS false.

(** The paddle of the game with its left edge at [x]. *)
Definition paddleAt (x : R) : Paddle.t :=
  Paddle.Paddle x (IZR Constants.WINDOW_HEIGHT - Constants.PADDLE_Y_OFFSET)
                Constants.PADDLE_WIDTH Constants.PADDLE_HEIGHT
                Constants.PADDLE_SPEED.

Record gameInv (g : Game.t) : Prop := mkGameInv
  { inv_level : (1 <= Game.level g <= Constants.MAX_LEVELS)%Z;
    inv_lives : (0 <= Game.lives g <= Constants.INITIAL_LIVES)%Z;
    inv_speed :
      Game.ballSpeed g =
      Constants.BALL_INITIAL_SPEED +
      Constants.BALL_SPEED_STEP * IZR (Game.level g - 1);
    inv_menu : Game.state g <> MainMenu;
    inv_controls : Game.state g = Controls -> Game.previousState g = Paused;
    inv_complete :
      Game.state g = LevelComplete -> (Game.level g < Constants.MAX_LEVELS)%Z;
    inv_victory :
      Game.state g = Victory -> Game.level g = Constants.MAX_LEVELS;
    inv_cleared :
      Game.state g = LevelComplete \/ Game.state g = Victory ->
      (Game.bricksRemaining g <= 0)%Z;
    inv_count : countInv g;
    inv_banked : banked g = (1050 * Game.level g * (Game.level g + 1))%Z;
    inv_total : totalPoints (Game.bricks g) = (2100 * Game.level g)%Z;
    inv_points : Forall (fun b => (0 <= Brick.points b)%Z) (Game.bricks g);
    inv_grid : Forall gridBrick (Game.bricks g);
    inv_paddle :
      exists x,
        0 <= x <= IZR Constants.WINDOW_WIDTH - Constants.PADDLE_WIDTH /\
        Game.paddle g = paddleAt x;
    inv_radius : Ball.radius (Game.ball g) = Constants.BALL_RADIUS;
    inv_rest :
      Game.state g = BallOnPaddle -> Game.ball g = restingBall (Game.paddle g);
    inv_moving :
      Game.state g = Playing \/ Game.state g = Paused \/ Game.state g = Controls ->
      Ball.moving (Game.ball g) = true }.

(** The lives and the count of bricks agree with the state: the game is
    over exactly when no life is left, and a brick is left to hit unless
    the level has just been cleared. *)
Record liveInv (g : Game.t) : Prop := mkLiveInv
  { live_over : Game.state g = GameOver -> Game.lives g = 0%Z;
    live_alive : Game.state g <> GameOver -> (1 <= Game.lives g)%Z;
    live_bricks :
      Game.state g <> LevelComplete -> Game.state g <> Victory ->
      (0 < Game.bricksRemaining g)%Z }.

(** A frame in which the player launches the ball, pauses and asks for
    the controls screen. *)
Definition helpFrame : Game.FrameInput :=
  Game.mkFrameInput 0.0125
    [(sf.KeyPressed sf.Space, 45%Z); (sf.KeyPressed sf.P, 0%Z);
     (sf.KeyPressed sf.H, 0%Z)]
    (sf.mkKeyboard false false false false).

(** *** The life indicators of the HUD *)

(** An indicator drawn filled: its fill is opaque. *)
Definition filledCircle (c : sf.CircleShape) : bool :=
  (sf.a (sf.circleFillColor c) =? 255)%Z.

(** The square that holds the circle and its outline. *)
Definition circleBox (c : sf.CircleShape) : sf.FloatRect :=
  let reach := sf.circleRadius c + sf.circleOutlineThickness c in
  sf.mkFloatRect
    (sf.x (sf.circlePosition c) - sf.x (sf.circleOrigin c) +
     sf.circleRadius c - reach)
    (sf.y (sf.circlePosition c) - sf.y (sf.circleOrigin c) +
     sf.circleRadius c - reach)
    (2 * reach) (2 * reach).

(** *** The brick loop in binary32, in closed form *)

(** Nearest point of the rectangle to [c], as the code computes its right
    and bottom edges. *)
Definition nearest32 (c : sf.Vector2f) (rect : sf.FloatRect) : sf.Vector2f :=
  sf.mkVector2f
    (clamp (sf.x c) (sf.left rect) (F32.round (sf.left rect + sf.width rect)))
    (clamp (sf.y c) (sf.top rect) (F32.round (sf.top rect + sf.height rect))).

Definition offsetX32 (c : sf.Vector2f) (b : Brick.t) : R :=
  F32.round (sf.x c - sf.x (nearest32 c (Brick.getBounds b))).

Definition offsetY32 (c : sf.Vector2f) (b : Brick.t) : R :=
  F32.round (sf.y c - sf.y (nearest32 c (Brick.getBounds b))).

Definition distSq32 (c : sf.Vector2f) (b : Brick.t) : R :=
  F32.round (F32.round (offsetX32 c b * offsetX32 c b) +
             F32.round (offsetY32 c b * offsetY32 c b)).

(** The test of the code: a standing brick whose squared distance, as
    computed, is below the square of the radius, as computed. *)
Definition collides32 (c : sf.Vector2f) (rad : R) (b : Brick.t) : bool :=
  negb (Brick.destroyed b) &&
  (if Rlt_dec (distSq32 c b) (F32.round (rad * rad)) then true else false).

Definition dist32 (c : sf.Vector2f) (b : Brick.t) : R :=
  F32.round (sqrt (distSq32 c b)).

Definition normal32 (c : sf.Vector2f) (b : Brick.t) : sf.Vector2f :=
  if Rgt_dec (dist32 c b) (F32.round 0.0001)
  then sf.mkVector2f (F32.round (offsetX32 c b / dist32 c b))
                     (F32.round (offsetY32 c b / dist32 c b))
  else sf.mkVector2f 0 (- 1).

Definition reflect32 (v n : sf.Vector2f) : sf.Vector2f :=
  let dot :=
    F32.round (F32.round (sf.x v * sf.x n) + F32.round (sf.y v * sf.y n)) in
  sf.mkVector2f
    (F32.round (sf.x v - F32.round (F32.round (2 * dot) * sf.x n)))
    (F32.round (sf.y v - F32.round (F32.round (2 * dot) * sf.y n))).

(** The ball moved out along [n] and sent off along the reflection, before
    the speed is rescaled. *)
Definition bounced32 (n c : sf.Vector2f) (rad : R) (b : Brick.t)
           (ball : Ball.t) : Ball.t :=
  let push := F32.round (F32.round (rad - dist32 c b) + 0.5) in
  Ball.mk (sf.mkVector2f (F32.round (sf.x c + F32.round (sf.x n * push)))
                         (F32.round (sf.y c + F32.round (sf.y n * push))))
          (reflect32 (Ball.velocity ball) n)
          (Ball.radius ball) (Ball.moving ball).

Definition respond32 (n c : sf.Vector2f) (rad speed : R) (b : Brick.t)
           (ball : Ball.t) : Ball.t :=
  Ball32.normaliseSpeed speed (bounced32 n c rad b ball).

(** The ball centre lies in the rectangle, edges included. *)
Definition insideRect32 (c : sf.Vector2f) (rect : sf.FloatRect) : bool :=
  (if Rle_dec (sf.left rect) (sf.x c) then true else false) &&
  (if Rle_dec (sf.x c) (F32.round (sf.left rect + sf.width rect))
   then true else false) &&
  (if Rle_dec (sf.top rect) (sf.y c) then true else false) &&
  (if Rle_dec (sf.y c) (F32.round (sf.top rect + sf.height rect))
   then true else false).

(** The normal as the specification words it: straight up when the
    centre is inside the rectangle, otherwise the vector from the nearest
    point to the centre over its length. *)
Definition specNormal32 (c : sf.Vector2f) (b : Brick.t) : sf.Vector2f :=
  if insideRect32 c (Brick.getBounds b)
  then sf.mkVector2f 0 (- 1)
  else sf.mkVector2f (F32.round (offsetX32 c b / dist32 c b))
                     (F32.round (offsetY32 c b / dist32 c b)).

Definition hitIfCollides32 (c : sf.Vector2f) (rad : R) (b : Brick.t)
  : Brick.t :=
  if collides32 c rad b then Brick.hit b else b.

Definition felled32 (c : sf.Vector2f) (rad : R) (b : Brick.t) : bool :=
  collides32 c rad b && Brick.destroyed (Brick.hit b).

Definition ballAfter32 (c : sf.Vector2f) (rad speed : R) (resolved : bool)
           (bs : list Brick.t) (ball : Ball.t) : Ball.t :=
  if resolved then ball
  else match find (collides32 c rad) bs with
       | Some b1 => respond32 (normal32 c b1) c rad speed b1 ball
       | None => ball
       end.

(** *** Rounding errors and the speed of the ball *)

(** [x] is [y] up to the factors [lo] and [hi]. *)
Definition bnd (lo hi x y : R) : Prop := y * lo <= x <= y * hi.

(** [x] is within [E * V] of [y], which is at most [B * V] in size. *)
Definition approx (E B V x y : R) : Prop :=
  Rabs (x - y) <= E * V /\ Rabs y <= B * V.

(** The target speed is one of a game (between 1 and 2000; the levels use
    320 to 600), and the speed of a ball in motion, as [getSpeed] computes
    it, is within 0.001 of the target. *)
Definition speedOk32 (g : Game.t) : Prop :=
  1 <= Game.ballSpeed g <= 2000 /\
  (Ball.moving (Game.ball g) = true ->
   Rabs (Ball32.getSpeed (Game.ball g) - Game.ballSpeed g) <= 0.001).

(** The paddle rectangle grown by the radius, as [handlePaddleCollision]
    computes it. *)
Definition expandedBounds32 (g : Game.t) : sf.FloatRect :=
  let paddleBounds := Paddle.getBounds (Game.paddle g) in
  let radius := Ball.radius (Game.ball g) in
  sf.mkFloatRect
    (F32.round (sf.left paddleBounds - radius))
    (F32.round (sf.top paddleBounds - radius))
    (F32.round (sf.width paddleBounds + F32.round (2 * radius)))
    (F32.round (sf.height paddleBounds + F32.round (2 * radius))).

(** The test of [handlePaddleCollision]. *)
Definition paddleHit32 (g : Game.t) : bool :=
  (if Rgt_dec (sf.y (Ball.velocity (Game.ball g))) 0 then true else false) &&
  Game32.contains (expandedBounds32 g) (Ball.position (Game.ball g)).

Definition hitOffset32 (g : Game.t) : R :=
  Rmax (- 1)
    (Rmin 1
       (F32.round
          (F32.round (sf.x (Ball.position (Game.ball g)) -
                      Game32.getCentreX (Game.paddle g)) /
           F32.round (Paddle.width (Game.paddle g) * 0.5)))).

Definition launchAngle32 (g : Game.t) : R :=
  F32.round (hitOffset32 g * Game32.MAX_ANGLE_RAD).

(** The ball placed above the paddle and sent off at [launchAngle32],
    before the speed is rescaled. *)
Definition steered32 (sinf cosf : R -> R) (g : Game.t) : Ball.t :=
  let b := Game.ball g in
  let speed := Ball32.getSpeed b in
  Ball.mk (sf.mkVector2f
             (sf.x (Ball.position b))
             (F32.round
                (F32.round (sf.top (Paddle.getBounds (Game.paddle g)) -
                            Ball.radius b) - 0.5)))
          (sf.mkVector2f (F32.round (speed * sinf (launchAngle32 g)))
                         (F32.round (- speed * cosf (launchAngle32 g))))
          (Ball.radius b) (Ball.moving b).

Definition deflected32 (sinf cosf : R -> R) (g : Game.t) : Ball.t :=
  Ball32.normaliseSpeed (Game.ballSpeed g) (steered32 sinf cosf g).

(** The three collision resolvers of [update]. *)
Inductive Resolver : Type := Walls | PaddleHit | Bricks.

Definition resolve32 (sinf cosf : R -> R) (g : Game.t) (r : Resolver) : Game.t :=
  match r with
  | Walls => Game32.handleWallCollisions g
  | PaddleHit => Game32.handlePaddleCollision sinf cosf g
  | Bricks => Game32.handleBrickCollisions g
  end.

(** Sine and cosine rounded to binary32. *)
Definition sinRounded (a : R) : R := F32.round (sin a).
Definition cosRounded (a : R) : R := F32.round (cos a).

(** ** Tactics *)

Ltac minmax :=
  unfold clamp, Rmax, Rmin in *;
  repeat match goal with
         | |- context [Rle_dec ?a ?b] => destruct (Rle_dec a b)
         | H : context [Rle_dec ?a ?b] |- _ => destruct (Rle_dec a b)
         end;
  try lra.

Ltac split_ifs :=
  repeat match goal with
         | |- context [if ?c then _ else _] => destruct c
         end.

Ltac split_walls :=
  repeat match goal with
         | |- context [Rlt_dec ?a ?b] => destruct (Rlt_dec a b)
         | |- context [Rgt_dec ?a ?b] => destruct (Rgt_dec a b)
         end.

(** Decide the comparisons of closed real expressions in the goal. *)
Ltac rdec :=
  repeat match goal with
         | |- context [Rlt_dec ?a ?b] =>
             destruct (Rlt_dec a b); [try (exfalso; lra) | try (exfalso; lra)]
         | |- context [Rgt_dec ?a ?b] =>
             destruct (Rgt_dec a b); [try (exfalso; lra) | try (exfalso; lra)]
         | |- context [Rle_dec ?a ?b] =>
             destruct (Rle_dec a b); [try (exfalso; lra) | try (exfalso; lra)]
         | |- context [Rge_dec ?a ?b] =>
             destruct (Rge_dec a b); [try (exfalso; lra) | try (exfalso; lra)]
         end.

(** The fields of the invariant [H] as hypotheses. *)
Ltac inv_facts H :=
  pose proof (inv_level _ H); pose proof (inv_lives _ H);
  pose proof (inv_speed _ H); pose proof (inv_menu _ H);
  pose proof (inv_controls _ H); pose proof (inv_complete _ H);
  pose proof (inv_victory _ H); pose proof (inv_cleared _ H);
  pose proof (inv_count _ H); pose proof (inv_banked _ H);
  pose proof (inv_total _ H); pose proof (inv_points _ H);
  pose proof (inv_grid _ H); pose proof (inv_paddle _ H);
  pose proof (inv_radius _ H); pose proof (inv_rest _ H);
  pose proof (inv_moving _ H).

(** A field that is as before, or that speaks of another state. *)
Ltac inv_easy :=
  first [ assumption
        | discriminate
        | let E := fresh in intros E; discriminate E
        | let E := fresh in intros [E | E]; discriminate E
        | let E := fresh in intros [E | [E | E]]; discriminate E ].

(** ** binary32 rounding *)

Lemma Rabs_bound (a b : R) : Rabs a <= b -> - b <= a <= b.
Proof. unfold Rabs. destruct (Rcase_abs a); lra. Qed.

Lemma pow2_pos (e : Z) : 0 < powerRZ 2 e.
Proof. apply powerRZ_lt. lra. Qed.

Lemma pow2_add (a b : Z) : powerRZ 2 (a + b) = powerRZ 2 a * powerRZ 2 b.
Proof. apply powerRZ_add. lra. Qed.

Lemma pow2_lt (a b : Z) : (a < b)%Z -> powerRZ 2 a < powerRZ 2 b.
Proof.
  intros H. rewrite !powerRZ_Rpower by lra.
  apply Rpower_lt; [lra | now apply IZR_lt].
Qed.

Lemma pow2_le (a b : Z) : (a <= b)%Z -> powerRZ 2 a <= powerRZ 2 b.
Proof.
  intros H. destruct (Z.eq_dec a b) as [-> | Hne]; [lra | ].
  left. apply pow2_lt. lia.
Qed.

Lemma pow2_lt_inv (a b : Z) : powerRZ 2 a < powerRZ 2 b -> (a < b)%Z.
Proof.
  intros H. destruct (Z.lt_ge_cases a b) as [Hlt | Hge]; [exact Hlt | ].
  pose proof (pow2_le b a Hge). lra.
Qed.

Lemma pow2_pos_val (p : positive) : powerRZ 2 (Z.pos p) = IZR (2 ^ Z.pos p).
Proof. symmetry. apply (Zpower_pos_powerRZ 2 p). Qed.

Lemma pow2_neg_val (p : positive) :
  powerRZ 2 (Z.neg p) = / IZR (2 ^ Z.pos p).
Proof.
  change (Z.neg p) with (- Z.pos p)%Z.
  now rewrite powerRZ_neg', pow2_pos_val.
Qed.

(** Evaluate the powers of two with literal exponents. *)
Ltac pow2_values :=
  rewrite ?pow2_pos_val, ?pow2_neg_val, ?powerRZ_O;
  repeat match goal with
         | |- context [IZR (2 ^ Z.pos ?p)] =>
             let v := eval vm_compute in (2 ^ Z.pos p)%Z in
             change (2 ^ Z.pos p)%Z with v
         end.

Lemma pow2_log (x : R) :
  0 < x -> powerRZ 2 (Zfloor (ln x / ln 2)) <= x < powerRZ 2 (Zfloor (ln x / ln 2) + 1).
Proof.
  intros Hx. pose proof ln_lt_2 as H2.
  assert (Hl2 : 0 < ln 2) by lra.
  set (L := ln x / ln 2).
  assert (HL : x = Rpower 2 L).
  { unfold Rpower, L. replace (ln x / ln 2 * ln 2) with (ln x) by (field; lra).
    now rewrite exp_ln. }
  destruct (Zfloor_bound L) as [Hlo Hhi].
  rewrite !powerRZ_Rpower by lra. rewrite plus_IZR. split.
  - apply Rle_trans with (Rpower 2 L); [apply Rle_Rpower; lra | ].
    rewrite <- HL. lra.
  - apply Rle_lt_trans with (Rpower 2 L); [rewrite <- HL; lra | ].
    apply Rpower_lt; lra.
Qed.

Lemma exponent_bounds (x : R) :
  x <> 0 ->
  powerRZ 2 (F32.exponent x) <= Rabs x < powerRZ 2 (F32.exponent x + 1).
Proof. intros Hx. apply pow2_log. now apply Rabs_pos_lt. Qed.

Lemma exponent_unique (x : R) (e : Z) :
  powerRZ 2 e <= Rabs x < powerRZ 2 (e + 1) -> F32.exponent x = e.
Proof.
  intros [Hlo Hhi].
  assert (Hx : x <> 0).
  { intros ->. rewrite Rabs_R0 in Hlo. pose proof (pow2_pos e). lra. }
  destruct (exponent_bounds x Hx) as [Hlo' Hhi'].
  assert (H1 : (e < F32.exponent x + 1)%Z) by (apply pow2_lt_inv; lra).
  assert (H2 : (F32.exponent x < e + 1)%Z) by (apply pow2_lt_inv; lra).
  lia.
Qed.

Lemma nearest_bound (y : R) : Rabs (IZR (F32.nearest y) - y) <= 1 / 2.
Proof.
  unfold F32.nearest. destruct (Zfloor_bound y) as [Hlo Hhi].
  destruct (Rlt_dec _ _) as [H1 | H1].
  - apply Rabs_le. lra.
  - destruct (Rgt_dec _ _) as [H2 | H2].
    + rewrite plus_IZR. apply Rabs_le. lra.
    + destruct (Z.even _); [ | rewrite plus_IZR]; apply Rabs_le; lra.
Qed.

Lemma nearest_IZR (n : Z) : F32.nearest (IZR n) = n.
Proof.
  unfold F32.nearest. rewrite ZfloorZ.
  destruct (Rlt_dec _ _) as [H1 | H1]; [reflexivity | exfalso; lra].
Qed.

(** A real closer than a half to an integer is rounded to it. *)
Lemma nearest_eq (y : R) (n : Z) :
  Rabs (y - IZR n) < 1 / 2 -> F32.nearest y = n.
Proof.
  intros H. apply Rabs_def2 in H as [Hlo Hhi].
  unfold F32.nearest. destruct (Zfloor_bound y) as [Flo Fhi].
  destruct (Rle_dec (IZR n) y) as [Hle | Hgt].
  - assert (E : Zfloor y = n) by (apply Zfloor_eq; lra).
    rewrite E. destruct (Rlt_dec _ _); [reflexivity | exfalso; lra].
  - assert (E : Zfloor y = (n - 1)%Z).
    { apply Zfloor_eq. rewrite minus_IZR. lra. }
    rewrite E, minus_IZR.
    destruct (Rlt_dec _ _); [exfalso; lra | ].
    destruct (Rgt_dec _ _); [lia | exfalso; lra].
Qed.

Lemma round_0 : F32.round 0 = 0.
Proof. unfold F32.round. destruct (Req_dec_T 0 0); [reflexivity | contradiction]. Qed.

Lemma ulp_pos (x : R) : 0 < F32.ulp x.
Proof. apply pow2_pos. Qed.

Lemma round_ulp (x : R) : Rabs (F32.round x - x) <= F32.ulp x / 2.
Proof.
  pose proof (ulp_pos x) as Hu. unfold F32.round.
  destruct (Req_dec_T x 0) as [-> | Hx].
  - rewrite Rminus_diag, Rabs_R0. lra.
  - pose proof (nearest_bound (x / F32.ulp x)) as Hn.
    replace (IZR (F32.nearest (x / F32.ulp x)) * F32.ulp x - x)
      with ((IZR (F32.nearest (x / F32.ulp x)) - x / F32.ulp x) * F32.ulp x)
      by (field; lra).
    rewrite Rabs_mult, (Rabs_pos_eq (F32.ulp x)) by lra.
    apply Rmult_le_compat_r with (r := F32.ulp x) in Hn; lra.
Qed.


Lemma ulp_rel (x : R) : x <> 0 -> F32.ulp x / 2 <= u32 * Rabs x.
Proof.
  intros Hx. destruct (exponent_bounds x Hx) as [Hlo _].
  unfold F32.ulp.
  replace (F32.exponent x - 23)%Z with (F32.exponent x + (- 23))%Z by lia.
  rewrite pow2_add.
  replace (powerRZ 2 (- 23)) with (/ 8388608) by (pow2_values; reflexivity).
  unfold u32. pose proof (pow2_pos (F32.exponent x)). lra.
Qed.

Lemma round_rel (x : R) : Rabs (F32.round x - x) <= u32 * Rabs x.
Proof.
  destruct (Req_dec_T x 0) as [-> | Hx].
  - rewrite round_0, Rminus_diag, Rabs_R0. unfold u32. lra.
  - eapply Rle_trans; [apply round_ulp | now apply ulp_rel].
Qed.

Lemma round_pos (x : R) : 0 < x -> 0 < F32.round x.
Proof.
  intros Hx. pose proof (round_rel x) as H.
  rewrite (Rabs_pos_eq x) in H by lra.
  apply Rabs_bound in H. unfold u32 in H. lra.
Qed.

Lemma round_neg (x : R) : x < 0 -> F32.round x < 0.
Proof.
  intros Hx. pose proof (round_rel x) as H.
  rewrite (Rabs_left x) in H by lra.
  apply Rabs_bound in H. unfold u32 in H. lra.
Qed.

Lemma round_le_0 (x : R) : F32.round x <= 0 <-> x <= 0.
Proof.
  split; intros H.
  - destruct (Rle_dec x 0); [assumption | ].
    pose proof (round_pos x). lra.
  - destruct (Req_dec_T x 0) as [-> | Hx]; [rewrite round_0; lra | ].
    pose proof (round_neg x). lra.
Qed.

(** What has 24 significant bits is not changed. *)
Lemma round_repr (m k : Z) :
  (Z.abs m < 16777216)%Z ->
  F32.round (IZR m * powerRZ 2 k) = IZR m * powerRZ 2 k.
Proof.
  intros Hm. set (x := IZR m * powerRZ 2 k).
  pose proof (pow2_pos k) as Hk.
  destruct (Z.eq_dec m 0) as [-> | Hm0].
  { unfold x. rewrite Rmult_0_l. apply round_0. }
  assert (Hx : x <> 0).
  { unfold x. apply Rmult_integral_contrapositive_currified; [ | lra].
    now apply not_0_IZR. }
  unfold F32.round. destruct (Req_dec_T x 0) as [E | _]; [contradiction | ].
  destruct (exponent_bounds x Hx) as [Hlo Hhi].
  set (e := F32.exponent x) in *.
  assert (Habs : Rabs x = IZR (Z.abs m) * powerRZ 2 k).
  { unfold x. rewrite Rabs_mult, (Rabs_pos_eq (powerRZ 2 k)) by lra.
    now rewrite abs_IZR. }
  assert (He : (e < 24 + k)%Z).
  { apply pow2_lt_inv. rewrite pow2_add.
    replace (powerRZ 2 24) with 16777216 by (pow2_values; reflexivity).
    assert (IZR (Z.abs m) < 16777216) by (apply IZR_lt; exact Hm).
    rewrite Habs in Hlo.
    apply Rle_lt_trans with (1 := Hlo).
    apply Rmult_lt_compat_r; lra. }
  unfold F32.ulp. fold e.
  set (s := (k - (e - 23))%Z).
  assert (Hs : (0 <= s)%Z) by (unfold s; lia).
  assert (Hq : x / powerRZ 2 (e - 23) = IZR (m * 2 ^ s)).
  { unfold x. rewrite mult_IZR.
    replace k with (s + (e - 23))%Z at 1 by (unfold s; lia).
    rewrite pow2_add.
    replace (IZR (2 ^ s)) with (powerRZ 2 s).
    - field. pose proof (pow2_pos (e - 23)). lra.
    - rewrite <- (Z2Nat.id s Hs) at 1. rewrite <- pow_powerRZ.
      rewrite pow_IZR. now rewrite Z2Nat.id. }
  rewrite Hq, nearest_IZR, <- Hq. field.
  pose proof (pow2_pos (e - 23)). lra.
Qed.

Lemma round_IZR (m : Z) : (Z.abs m < 16777216)%Z -> F32.round (IZR m) = IZR m.
Proof.
  intros H. pose proof (round_repr m 0 H) as E.
  cbn [powerRZ] in E. now rewrite Rmult_1_r in E.
Qed.

(** The value of [round] at a real between two binary32 numbers, away
    from the midpoint. *)
Lemma round_eval (x : R) (e m : Z) :
  powerRZ 2 e <= Rabs x < powerRZ 2 (e + 1) ->
  Rabs (x / powerRZ 2 (e - 23) - IZR m) < 1 / 2 ->
  F32.round x = IZR m * powerRZ 2 (e - 23).
Proof.
  intros He Hm.
  assert (Hx : x <> 0).
  { intros ->. rewrite Rabs_R0 in He. pose proof (pow2_pos e). lra. }
  unfold F32.round, F32.ulp.
  destruct (Req_dec_T x 0) as [E | _]; [contradiction | ].
  rewrite (exponent_unique x e He). now rewrite (nearest_eq _ m Hm).
Qed.

Lemma MAX_FRAME_TIME_value : Game.MAX_FRAME_TIME = 13421773 / 268435456.
Proof.
  unfold Game.MAX_FRAME_TIME.
  rewrite (round_eval 0.05 (- 5) 13421773).
  - change (- 5 - 23)%Z with (- 28)%Z. pow2_values. lra.
  - change (- 5 + 1)%Z with (- 4)%Z. pow2_values.
    rewrite Rabs_pos_eq by lra. lra.
  - change (- 5 - 23)%Z with (- 28)%Z. pow2_values.
    apply Rabs_def1; lra.
Qed.

Lemma MAX_FRAME_TIME_bounds : 0.05 < Game.MAX_FRAME_TIME < 0.050000001.
Proof. rewrite MAX_FRAME_TIME_value. lra. Qed.

(** The value of [round] at a real written with 24 bits. *)
Lemma round_val (x v : R) (m k : Z) :
  x = v -> v = IZR m * powerRZ 2 k -> (Z.abs m < 16777216)%Z ->
  F32.round x = v.
Proof. intros -> -> H. now apply round_repr. Qed.

(** Replace [round x] in the goal by its value [v], which is [m * 2^k]. *)
Ltac round_to x v m k :=
  replace (F32.round x) with v
    by (symmetry; apply (round_val x v m k);
        [lra | pow2_values; lra | reflexivity]).

(** Replace [round x] by its value [v], which is [m * 2^(e - 23)], for
    [x] of exponent [e] that is not at the middle of two binary32
    numbers. *)
Ltac round_near x e m v :=
  replace (F32.round x) with v
    by (rewrite (round_eval x e m);
        [ let k := eval vm_compute in (e - 23)%Z in
          change (e - 23)%Z with k; pow2_values; lra
        | let k := eval vm_compute in (e + 1)%Z in
          change (e + 1)%Z with k; pow2_values;
          rewrite Rabs_pos_eq by lra; lra
        | let k := eval vm_compute in (e - 23)%Z in
          change (e - 23)%Z with k; pow2_values;
          apply Rabs_def1; lra ]).

(** The literal [0.0001f]. *)
Lemma guard_value : F32.round 0.0001 = 13743895 / 137438953472.
Proof.
  rewrite (round_eval 0.0001 (- 14) 13743895).
  - change (- 14 - 23)%Z with (- 37)%Z. pow2_values. lra.
  - change (- 14 + 1)%Z with (- 13)%Z. pow2_values.
    rewrite Rabs_pos_eq by lra. lra.
  - change (- 14 - 23)%Z with (- 37)%Z. pow2_values.
    apply Rabs_def1; lra.
Qed.

Lemma guard_bounds : 0.00009999 < F32.round 0.0001 < 0.0001.
Proof. rewrite guard_value. lra. Qed.

(** ** Brick *)

Lemma updateColor_hitPoints (b : Brick.t) :
  Brick.hitPoints (Brick.updateColor b) = Brick.hitPoints b.
Proof. reflexivity. Qed.

Lemma updateColor_destroyed (b : Brick.t) :
  Brick.destroyed (Brick.updateColor b) = Brick.destroyed b.
Proof. reflexivity. Qed.

Lemma hit_destroyed_noop (b : Brick.t) :
  Brick.destroyed b = true -> Brick.hit b = b.
Proof. intros H. unfold Brick.hit. now rewrite H. Qed.

Lemma hit_standing (b : Brick.t) :
  standing_ok b -> Brick.destroyed b = false ->
  Brick.hitPoints (Brick.hit b) = (Brick.hitPoints b - 1)%Z /\
  (Brick.destroyed (Brick.hit b) = true <-> Brick.hitPoints (Brick.hit b) = 0%Z).
Proof.
  intros Hok Hd. specialize (Hok Hd). unfold Brick.hit. rewrite Hd.
  destruct (Z.leb_spec (Brick.hitPoints b - 1) 0) as [Hle | Hgt]; cbn.
  - split; [lia | tauto].
  - split; [reflexivity | ]. split; [discriminate | lia].
Qed.

Lemma hit_keeps_standing_ok (b : Brick.t) :
  standing_ok b -> standing_ok (Brick.hit b).
Proof.
  intros Hok. unfold standing_ok, Brick.hit.
  destruct (Brick.destroyed b) eqn:Hd; [now rewrite Hd | ].
  destruct (Z.leb_spec (Brick.hitPoints b - 1) 0); cbn; [discriminate | lia].
Qed.

Lemma hit_hitPoints_le (b : Brick.t) :
  standing_ok b -> (Brick.hitPoints (Brick.hit b) <= Brick.hitPoints b)%Z.
Proof.
  intros Hok. destruct (Brick.destroyed b) eqn:Hd.
  - rewrite hit_destroyed_noop by assumption. lia.
  - destruct (hit_standing b Hok Hd) as [-> _]. lia.
Qed.

Lemma hit_destroyed_stays (b : Brick.t) :
  Brick.destroyed b = true -> Brick.destroyed (Brick.hit b) = true.
Proof. intros H. now rewrite hit_destroyed_noop. Qed.

Lemma hits_destroyed_noop (n : nat) (b : Brick.t) :
  Brick.destroyed b = true -> hits n b = b.
Proof.
  induction n as [| n IH]; intros H; cbn; [reflexivity | ].
  rewrite hit_destroyed_noop by assumption. now apply IH.
Qed.

Lemma hits_standing_ok (n : nat) : forall b, standing_ok b -> standing_ok (hits n b).
Proof.
  induction n as [| n IH]; intros b H; cbn; [assumption | ].
  apply IH. now apply hit_keeps_standing_ok.
Qed.

Lemma hits_plus (n k : nat) : forall b, hits (n + k) b = hits k (hits n b).
Proof.
  induction n as [| n IH]; intros b; cbn; [reflexivity | apply IH].
Qed.

Lemma hits_hitPoints_le (k : nat) :
  forall b, standing_ok b -> (Brick.hitPoints (hits k b) <= Brick.hitPoints b)%Z.
Proof.
  induction k as [| k IH]; intros b Hok; cbn; [lia | ].
  specialize (IH (Brick.hit b) (hit_keeps_standing_ok b Hok)).
  pose proof (hit_hitPoints_le b Hok). lia.
Qed.

(** The constructor, used as documented with at least one hit point,
    makes such a brick. *)
Lemma Brick_standing_ok (px py w h : R) (color : sf.Color) (hp pts : Z) :
  (1 <= hp)%Z -> standing_ok (Brick.Brick px py w h color hp pts).
Proof. intros H _. exact H. Qed.

Lemma brickStep_destroyed (c : sf.Vector2f) (rad : R) (g : Game.t)
      (resolved : bool) (b : Brick.t) :
  Brick.destroyed b = true -> Game.brickStep c rad g resolved b = (g, resolved, b).
Proof. intros H. unfold Game.brickStep, Brick.isDestroyed. now rewrite H. Qed.

(** C7. Brick monotonicity and destroyed permanence.  For a brick with at
    least one hit point while it stands: along any sequence of [hit] calls
    the hit points never increase; a [hit] on a standing brick takes
    exactly one hit point and sets the destroyed flag exactly when the hit
    points reach zero; once the brick is destroyed every later [hit]
    leaves it as it is, the collision loop passes over it without any
    effect, and [draw] draws nothing. *)
Theorem C7_brick_monotone_destroyed_permanent (b : Brick.t) :
  standing_ok b ->
  (forall n m, (n <= m)%nat ->
     (Brick.hitPoints (hits m b) <= Brick.hitPoints (hits n b))%Z) /\
  (forall n, Brick.destroyed (hits n b) = false ->
     Brick.hitPoints (hits (S n) b) = (Brick.hitPoints (hits n b) - 1)%Z /\
     (Brick.destroyed (hits (S n) b) = true <->
      Brick.hitPoints (hits (S n) b) = 0%Z)) /\
  (forall n m, (n <= m)%nat -> Brick.destroyed (hits n b) = true ->
     hits m b = hits n b /\
     (forall c rad g resolved,
        Game.brickStep c rad g resolved (hits m b) = (g, resolved, hits m b)) /\
     Brick.draw (hits m b) = []).
Proof.
  intros Hok. split; [ | split].
  - intros n m Hnm. replace m with (n + (m - n))%nat by lia.
    rewrite hits_plus. apply hits_hitPoints_le. now apply hits_standing_ok.
  - intros n Hd. replace (S n) with (n + 1)%nat by lia. rewrite hits_plus. cbn.
    apply hit_standing; [now apply hits_standing_ok | assumption].
  - intros n m Hnm Hd.
    assert (E : hits m b = hits n b).
    { replace m with (n + (m - n))%nat by lia. rewrite hits_plus.
      now apply hits_destroyed_noop. }
    rewrite E. split; [reflexivity | split].
    + intros. now apply brickStep_destroyed.
    + unfold Brick.draw. now rewrite Hd.
Qed.

(** A brick of the first level: one hit destroys it and the next changes
    nothing. *)
Lemma C7_witness :
  let b := Brick.Brick 42 60 68 22 (sf.rgb 220 45 45) 1 60 in
  standing_ok b /\
  Brick.hitPoints (hits 1 b) = 0%Z /\ hits 2 b = hits 1 b.
Proof.
  intros b.
  assert (Hok : standing_ok b) by (apply Brick_standing_ok; lia).
  split; [exact Hok | ].
  destruct (C7_brick_monotone_destroyed_permanent b Hok) as (_ & Hdec & Hperm).
  split.
  - destruct (Hdec 0%nat eq_refl) as [E _]. exact E.
  - destruct (Hperm 1%nat 2%nat (le_S _ _ (le_n _)) eq_refl) as [E _]. exact E.
Defined.

(** ** Paddle *)

Lemma update_newX (kb : sf.Keyboard) (dt W : R) (p : Paddle.t) :
  paddleX (Paddle.update kb dt W p) =
  clamp (paddleX p + intent kb * Paddle.speed p * dt) 0 (W - Paddle.width p).
Proof.
  unfold Paddle.update, paddleX, intent, clamp. cbn.
  destruct (sf.keyLeft kb || sf.keyA kb), (sf.keyRight kb || sf.keyD kb);
    f_equal; f_equal; lra.
Qed.

(** C6. Paddle clamp.  When the paddle fits in the boundary width, after
    [Paddle::update] with any delta-time and any keys the left edge is
    [clamp (old + intent * speed * dt) 0 (boundaryWidth - width)], hence
    within [0, boundaryWidth - width]; with left and right held together
    the intent is neutral and a paddle inside the range does not move. *)
Theorem C6_paddle_clamp (kb : sf.Keyboard) (dt W : R) (p : Paddle.t) :
  Paddle.width p <= W ->
  let p' := Paddle.update kb dt W p in
  paddleX p' =
    clamp (paddleX p + intent kb * Paddle.speed p * dt) 0 (W - Paddle.width p) /\
  0 <= paddleX p' <= W - Paddle.width p /\
  Paddle.getTopY p' = Paddle.getTopY p /\
  Paddle.width p' = Paddle.width p /\
  ((sf.keyLeft kb || sf.keyA kb) && (sf.keyRight kb || sf.keyD kb) = true ->
   intent kb = 0 /\
   (0 <= paddleX p <= W - Paddle.width p -> paddleX p' = paddleX p)).
Proof.
  intros Hw p'. subst p'. rewrite update_newX.
  split; [reflexivity | ]. split; [minmax | ].
  split; [reflexivity | ]. split; [reflexivity | ].
  intros Hboth. apply andb_prop in Hboth as [Hl Hr].
  unfold intent. rewrite Hl, Hr. split; [reflexivity | ].
  intros Hin. minmax.
Qed.

(** The paddle of the game at the right end of the window, with the right
    key held for a long frame, stays at 680. *)
Lemma C6_witness :
  let p := Paddle.Paddle 680 555 120 14 500 in
  Paddle.width p <= 800 /\
  0 <= paddleX (Paddle.update (sf.mkKeyboard false false true false) 0.05 800 p)
    <= 800 - Paddle.width p.
Proof.
  intros p.
  assert (Hw : Paddle.width p <= 800) by (cbn; lra).
  split; [exact Hw | ].
  exact (proj1 (proj2 (C6_paddle_clamp (sf.mkKeyboard false false true false)
                                       0.05 800 p Hw))).
Defined.

(** ** The brick loop, in closed form *)

Lemma hit_points (b : Brick.t) : Brick.points (Brick.hit b) = Brick.points b.
Proof.
  unfold Brick.hit. destruct (Brick.destroyed b); [reflexivity | ].
  destruct (Brick.hitPoints b - 1 <=? 0)%Z; reflexivity.
Qed.

Lemma brickStep_eq (c : sf.Vector2f) (rad : R) (g : Game.t) (resolved : bool)
      (b : Brick.t) :
  Game.brickStep c rad g resolved b =
  if collides c rad b
  then
    (withBoard
       (if resolved then Game.ball g
        else respond (normalOf c b) c rad (Game.ballSpeed g) b (Game.ball g))
       (if Brick.destroyed (Brick.hit b)
        then Game.score g + Brick.points b else Game.score g)%Z
       (if Brick.destroyed (Brick.hit b)
        then Game.bricksRemaining g - 1 else Game.bricksRemaining g)%Z
       g,
     true, Brick.hit b)
  else (g, resolved, b).
Proof.
  unfold Game.brickStep, collides, Brick.isDestroyed, Brick.getPoints.
  destruct (Brick.destroyed b); [reflexivity | ]. cbv beta iota zeta.
  change (Rmax ?lo (Rmin ?v ?hi)) with (clamp v lo hi).
  fold (nearest c (Brick.getBounds b)).
  change (sf.x c - clamp (sf.x c) (sf.left (Brick.getBounds b))
                         (sf.left (Brick.getBounds b) + sf.width (Brick.getBounds b)))
    with (offsetX c b).
  change (sf.y c - clamp (sf.y c) (sf.top (Brick.getBounds b))
                         (sf.top (Brick.getBounds b) + sf.height (Brick.getBounds b)))
    with (offsetY c b).
  fold (distSq c b).
  destruct (Rge_dec (distSq c b) (rad * rad)) as [Hge | Hlt];
    destruct (Rlt_dec (distSq c b) (rad * rad)) as [Hlt' | Hge']; try lra;
    [reflexivity | ].
  cbn [negb andb]. rewrite hit_points.
  destruct g as [wo bl pd bks st sc lv lvl bs tm rem prev].
  destruct resolved; destruct (Brick.destroyed (Brick.hit b)); reflexivity.
Qed.

Lemma brickLoop_eq (c : sf.Vector2f) (rad : R) :
  forall (bs : list Brick.t) (g : Game.t) (resolved : bool),
    Game.brickLoop c rad bs g resolved =
    (withBoard (ballAfter c rad (Game.ballSpeed g) resolved bs (Game.ball g))
               (Game.score g + felledPoints c rad bs)%Z
               (Game.bricksRemaining g - countFelled c rad bs)%Z
               g,
     resolved || existsb (collides c rad) bs,
     map (hitIfCollides c rad) bs).
Proof.
  induction bs as [| b rest IH]; intros g resolved.
  - destruct g; destruct resolved; unfold withBoard; cbn;
      (apply f_equal2; [apply f_equal2 | ]); try reflexivity;
      f_equal; lia.
  - cbn [Game.brickLoop]. rewrite brickStep_eq.
    unfold felledPoints, countFelled, felled, ballAfter, hitIfCollides in *.
    cbn [filter find existsb map].
    destruct (collides c rad b) eqn:Hc; rewrite IH; clear IH.
    + destruct g as [wo bl pd bks st sc lv lvl spd tm rem prev].
      unfold withBoard. cbn [Game.ballSpeed Game.ball Game.score
        Game.bricksRemaining Game.windowOpen Game.paddle Game.bricks
        Game.state Game.lives Game.level Game.levelCompleteTimer
        Game.previousState andb].
      unfold totalPoints.
      destruct (Brick.destroyed (Brick.hit b));
        destruct resolved; cbn [orb length fold_right filter];
        (apply f_equal2; [apply f_equal2 | ]); try reflexivity;
        f_equal; try reflexivity; lia.
    + destruct g as [wo bl pd bks st sc lv lvl spd tm rem prev].
      unfold withBoard. cbn [andb orb]. reflexivity.
Qed.

Lemma handleBrickCollisions_eq (g : Game.t) :
  let c := Ball.position (Game.ball g) in
  let rad := Ball.radius (Game.ball g) in
  Game.handleBrickCollisions g =
  Game.setBricks (map (hitIfCollides c rad) (Game.bricks g))
    (withBoard (ballAfter c rad (Game.ballSpeed g) false (Game.bricks g) (Game.ball g))
               (Game.score g + felledPoints c rad (Game.bricks g))%Z
               (Game.bricksRemaining g - countFelled c rad (Game.bricks g))%Z
               g).
Proof.
  intros c rad. unfold Game.handleBrickCollisions, Ball.getPosition, Ball.getRadius.
  fold c rad. now rewrite brickLoop_eq.
Qed.

Lemma length_filter_cons {A : Type} (f : A -> bool) (a : A) (l : list A) :
  Z.of_nat (length (filter f (a :: l))) =
  (Z.b2z (f a) + Z.of_nat (length (filter f l)))%Z.
Proof. cbn [filter]. destruct (f a); cbn [length Z.b2z]; lia. Qed.

Lemma standing_hitIfCollides (c : sf.Vector2f) (rad : R) (b : Brick.t) :
  Z.b2z (standing (hitIfCollides c rad b)) =
  (Z.b2z (standing b) - Z.b2z (felled c rad b))%Z.
Proof.
  unfold hitIfCollides, felled, collides, standing.
  destruct (Brick.destroyed b) eqn:Hd; cbn [negb andb]; [now rewrite Hd | ].
  destruct (Rlt_dec (distSq c b) (rad * rad)).
  - destruct (Brick.destroyed (Brick.hit b)); reflexivity.
  - now rewrite Hd.
Qed.

Lemma countStanding_hit (c : sf.Vector2f) (rad : R) (bs : list Brick.t) :
  countStanding (map (hitIfCollides c rad) bs) =
  (countStanding bs - countFelled c rad bs)%Z.
Proof.
  unfold countStanding, countFelled.
  induction bs as [| b rest IH]; [reflexivity | ].
  cbn [map]. rewrite !length_filter_cons, standing_hitIfCollides. lia.
Qed.

Lemma standingPoints_cons (b : Brick.t) (bs : list Brick.t) :
  standingPoints (b :: bs) =
  ((if Brick.destroyed b then 0 else Brick.points b) + standingPoints bs)%Z.
Proof. reflexivity. Qed.

Lemma totalPoints_cons (b : Brick.t) (bs : list Brick.t) :
  totalPoints (b :: bs) = (Brick.points b + totalPoints bs)%Z.
Proof. reflexivity. Qed.

Lemma felledPoints_cons (c : sf.Vector2f) (rad : R) (b : Brick.t)
      (bs : list Brick.t) :
  felledPoints c rad (b :: bs) =
  ((if felled c rad b then Brick.points b else 0) + felledPoints c rad bs)%Z.
Proof.
  unfold felledPoints. cbn [filter].
  destruct (felled c rad b); [apply totalPoints_cons | reflexivity].
Qed.

Lemma standingPoints_hitIfCollides (c : sf.Vector2f) (rad : R) (b : Brick.t) :
  (if Brick.destroyed (hitIfCollides c rad b) then 0
   else Brick.points (hitIfCollides c rad b))%Z =
  ((if Brick.destroyed b then 0 else Brick.points b) -
   (if felled c rad b then Brick.points b else 0))%Z.
Proof.
  unfold hitIfCollides, felled, collides.
  destruct (Brick.destroyed b) eqn:Hd; cbn [negb andb]; cbv iota;
    [rewrite Hd; lia | ].
  destruct (Rlt_dec (distSq c b) (rad * rad)); cbn [andb]; cbv iota.
  - rewrite hit_points. destruct (Brick.destroyed (Brick.hit b)); lia.
  - rewrite Hd. lia.
Qed.

Lemma standingPoints_hit (c : sf.Vector2f) (rad : R) (bs : list Brick.t) :
  standingPoints (map (hitIfCollides c rad) bs) =
  (standingPoints bs - felledPoints c rad bs)%Z.
Proof.
  induction bs as [| b rest IH]; [reflexivity | ].
  cbn [map]. rewrite !standingPoints_cons, felledPoints_cons, IH,
    standingPoints_hitIfCollides. lia.
Qed.

(** ** What each step leaves alone *)

Lemma handleWallCollisions_board (g : Game.t) :
  board (Game.handleWallCollisions g) = board g.
Proof. unfold Game.handleWallCollisions. split_ifs; reflexivity. Qed.

Lemma handlePaddleCollision_board (g : Game.t) :
  board (Game.handlePaddleCollision g) = board g.
Proof. unfold Game.handlePaddleCollision. split_ifs; reflexivity. Qed.

Lemma handleBrickCollisions_countInv (g : Game.t) :
  countInv g -> countInv (Game.handleBrickCollisions g).
Proof.
  unfold countInv. intros H. rewrite handleBrickCollisions_eq. cbn.
  rewrite countStanding_hit. lia.
Qed.

Lemma handleBrickCollisions_banked (g : Game.t) :
  banked (Game.handleBrickCollisions g) = banked g.
Proof.
  unfold banked. rewrite handleBrickCollisions_eq. cbn.
  rewrite standingPoints_hit. lia.
Qed.

Lemma board_countInv (g g' : Game.t) :
  board g' = board g -> countInv g -> countInv g'.
Proof. unfold board, countInv. intros E. injection E as -> _ ->. trivial. Qed.

Lemma board_banked (g g' : Game.t) :
  board g' = board g -> banked g' = banked g.
Proof. unfold board, banked. intros E. injection E as -> -> _. trivial. Qed.

Lemma update_countInv (kb : sf.Keyboard) (dt : R) (g : Game.t) :
  countInv g -> countInv (Game.update kb dt g).
Proof.
  intros H. unfold Game.update.
  set (g0 := Game.setPaddle _ g).
  assert (H0 : countInv g0) by exact H.
  assert (Hs : Game.state g0 = Game.state g) by reflexivity.
  clearbody g0.
  set (g1 := Game.setBall (Ball.update dt (Game.ball g0)) g0).
  assert (H1 : countInv (Game.handleBrickCollisions
                           (Game.handlePaddleCollision
                              (Game.handleWallCollisions g1)))).
  { apply handleBrickCollisions_countInv.
    apply (board_countInv _ _ (handlePaddleCollision_board _)).
    apply (board_countInv _ _ (handleWallCollisions_board _)). exact H0. }
  destruct (Game.state g0); try exact H0; split_ifs; exact H1.
Qed.

Lemma update_banked (kb : sf.Keyboard) (dt : R) (g : Game.t) :
  banked (Game.update kb dt g) = banked g.
Proof.
  unfold Game.update.
  set (g0 := Game.setPaddle _ g).
  change (banked g) with (banked g0). clearbody g0.
  set (g1 := Game.setBall (Ball.update dt (Game.ball g0)) g0).
  assert (H1 : banked (Game.handleBrickCollisions
                         (Game.handlePaddleCollision
                            (Game.handleWallCollisions g1))) = banked g0).
  { rewrite handleBrickCollisions_banked.
    rewrite (board_banked _ _ (handlePaddleCollision_board _)).
    now rewrite (board_banked _ _ (handleWallCollisions_board _)). }
  destruct (Game.state g0); try reflexivity; split_ifs; exact H1.
Qed.

(** ** The grid that [createBricks] builds *)

Lemma createBricks_bricks (g : Game.t) :
  Game.bricks (Game.createBricks g) =
  flat_map
    (fun row =>
       map (Game.brickAt (extraOf (Game.level g)) gridStartX row)
           (seq 0 Constants.BRICK_COLS))
    (seq 0 Constants.BRICK_ROWS).
Proof. reflexivity. Qed.

Lemma createBricks_In (g : Game.t) (b : Brick.t) :
  In b (Game.bricks (Game.createBricks g)) <->
  exists row col,
    (row < Constants.BRICK_ROWS)%nat /\ (col < Constants.BRICK_COLS)%nat /\
    b = Game.brickAt (extraOf (Game.level g)) gridStartX row col.
Proof.
  rewrite createBricks_bricks, in_flat_map. split.
  - intros (row & Hrow & Hb). apply in_map_iff in Hb as (col & <- & Hcol).
    apply in_seq in Hrow, Hcol. exists row, col. repeat split; lia.
  - intros (row & col & Hrow & Hcol & ->). exists row. split.
    + apply in_seq. lia.
    + apply in_map. apply in_seq. lia.
Qed.

Lemma brickAt_fields (e : Z) (x0 : R) (row col : nat) :
  let b := Game.brickAt e x0 row col in
  Brick.destroyed b = false /\
  Brick.maxHitPoints b = (nth row Game.ROW_BASE_HIT_POINTS 0 + e)%Z /\
  Brick.hitPoints b = Brick.maxHitPoints b /\
  Brick.points b = (nth row Game.ROW_POINTS 0 * Brick.maxHitPoints b)%Z.
Proof. cbn. repeat split. Qed.

Lemma createBricks_rows (g : Game.t) (b : Brick.t) :
  In b (Game.bricks (Game.createBricks g)) ->
  exists row col,
    (row < Constants.BRICK_ROWS)%nat /\ (col < Constants.BRICK_COLS)%nat /\
    b = Game.brickAt (extraOf (Game.level g)) gridStartX row col /\
    sf.position (Brick.shape b) =
      sf.mkVector2f
        (gridStartX +
         INR col * (Constants.BRICK_WIDTH + Constants.BRICK_PADDING))
        (Constants.BRICK_TOP_OFFSET +
         INR row * (Constants.BRICK_HEIGHT + Constants.BRICK_PADDING)) /\
    Brick.destroyed b = false /\
    Brick.hitPoints b = Brick.maxHitPoints b /\
    Brick.maxHitPoints b =
      (nth row Game.ROW_BASE_HIT_POINTS 0 + extraOf (Game.level g))%Z /\
    Brick.points b = (nth row Game.ROW_POINTS 0 * Brick.maxHitPoints b)%Z.
Proof.
  intros H. apply createBricks_In in H as (row & col & Hrow & Hcol & ->).
  exists row, col.
  destruct (brickAt_fields (extraOf (Game.level g)) gridStartX row col)
    as (Hd & Hmax & Hhp & Hpts).
  repeat split; try assumption.
Qed.

Lemma createBricks_length (g : Game.t) :
  length (Game.bricks (Game.createBricks g)) =
  (Constants.BRICK_ROWS * Constants.BRICK_COLS)%nat.
Proof. reflexivity. Qed.

Lemma createBricks_remaining (g : Game.t) :
  Game.bricksRemaining (Game.createBricks g) =
  Z.of_nat (Constants.BRICK_ROWS * Constants.BRICK_COLS).
Proof. reflexivity. Qed.

Lemma createBricks_standing (g : Game.t) :
  Forall (fun b => Brick.destroyed b = false) (Game.bricks (Game.createBricks g)).
Proof.
  apply Forall_forall. intros b Hb.
  apply createBricks_In in Hb as (row & col & _ & _ & ->).
  apply brickAt_fields.
Qed.

Lemma filter_standing_all (bs : list Brick.t) :
  Forall (fun b => Brick.destroyed b = false) bs -> filter standing bs = bs.
Proof.
  induction 1 as [| b rest Hb _ IH]; [reflexivity | ].
  cbn. unfold standing at 1. rewrite Hb. cbn. now rewrite IH.
Qed.

Lemma createBricks_countInv (g : Game.t) : countInv (Game.createBricks g).
Proof.
  unfold countInv, countStanding.
  rewrite filter_standing_all by apply createBricks_standing.
  now rewrite createBricks_length, createBricks_remaining.
Qed.

Lemma createBricks_totalPoints (g : Game.t) :
  totalPoints (Game.bricks (Game.createBricks g)) =
  levelValue (extraOf (Game.level g)).
Proof.
  rewrite createBricks_bricks. unfold levelValue, totalPoints.
  generalize (extraOf (Game.level g)) as e. intros e.
  induction (seq 0 Constants.BRICK_ROWS) as [| row rows IHrows];
    [reflexivity | ].
  cbn [flat_map]. rewrite !fold_right_app, <- IHrows. clear IHrows.
  generalize (fold_right (fun (b : Brick.t) (acc : Z) => (Brick.points b + acc)%Z)
                0%Z
                (flat_map
                   (fun row0 =>
                      map (Game.brickAt e gridStartX row0)
                          (seq 0 Constants.BRICK_COLS)) rows)) as z.
  intros z.
  induction (seq 0 Constants.BRICK_COLS) as [| col cols IHcols];
    [reflexivity | ].
  cbn [map fold_right]. rewrite IHcols. reflexivity.
Qed.

Lemma levelValue_closed (e : Z) : levelValue e = (2100 * (1 + e))%Z.
Proof. unfold levelValue. cbn -[Z.mul Z.add]. lia. Qed.

(** ** Events, frames and runs *)

Lemma resetBallOnPaddle_board (g : Game.t) :
  board (Game.resetBallOnPaddle g) = board g.
Proof. reflexivity. Qed.

Lemma restartGame_countInv (g : Game.t) : countInv (Game.restartGame g).
Proof.
  unfold Game.restartGame.
  apply (board_countInv _ _ (resetBallOnPaddle_board _)).
  apply createBricks_countInv.
Qed.

Lemma advanceLevel_countInv (g : Game.t) : countInv (Game.advanceLevel g).
Proof.
  unfold Game.advanceLevel.
  apply (board_countInv _ _ (resetBallOnPaddle_board _)).
  apply createBricks_countInv.
Qed.

Lemma handleKeyPressed_countInv (rnd : Z) (code : sf.Key) (g : Game.t) :
  countInv g -> countInv (Game.handleKeyPressed rnd code g).
Proof.
  intros H. unfold Game.handleKeyPressed.
  destruct code; destruct (Game.state g);
    first [exact H | apply restartGame_countInv].
Qed.

Lemma processEvents_countInv (events : list (sf.Event * Z)) :
  forall g, countInv g -> countInv (Game.processEvents events g).
Proof.
  induction events as [| [[| code |] rnd] rest IH]; intros g H; cbn;
    (destruct (Game.windowOpen g); [ | exact H]).
  - exact H.
  - exact H.
  - apply IH. now apply handleKeyPressed_countInv.
  - now apply IH.
Qed.

Lemma runIteration_countInv (i : Game.FrameInput) (g : Game.t) :
  countInv g -> countInv (Game.runIteration i g).
Proof.
  intros H. unfold Game.runIteration.
  pose proof (processEvents_countInv (Game.events i) g H) as H1.
  destruct (Game.state (Game.processEvents (Game.events i) g));
    try exact H1; try (now apply update_countInv).
  split_ifs; [apply advanceLevel_countInv | exact H1].
Qed.

Lemma run_countInv (inputs : list Game.FrameInput) :
  forall g, countInv g -> countInv (Game.run inputs g).
Proof.
  induction inputs as [| i rest IH]; intros g H; cbn; [exact H | ].
  destruct (Game.windowOpen g); [ | exact H].
  apply IH. now apply runIteration_countInv.
Qed.

Lemma Game_countInv (fontLoaded : bool) : countInv (Game.Game fontLoaded).
Proof.
  unfold Game.Game. destruct fontLoaded; cbn [negb].
  - apply (board_countInv _ _ (resetBallOnPaddle_board _)).
    apply createBricks_countInv.
  - reflexivity.
Qed.

Lemma handleKeyPressed_inLevel (rnd : Z) (code : sf.Key) (g : Game.t) :
  inLevel g ->
  inLevel (Game.handleKeyPressed rnd code g) /\
  board (Game.handleKeyPressed rnd code g) = board g.
Proof.
  unfold inLevel, Game.handleKeyPressed.
  destruct code; destruct (Game.state g) eqn:Hs; intros H;
    try contradiction; cbn; rewrite ?Hs, ?H; auto.
Qed.

Lemma processEvents_inLevel (events : list (sf.Event * Z)) :
  forall g, inLevel g ->
    inLevel (Game.processEvents events g) /\
    board (Game.processEvents events g) = board g.
Proof.
  induction events as [| [[| code |] rnd] rest IH]; intros g H; cbn;
    (destruct (Game.windowOpen g); [ | now auto]).
  - auto.
  - auto.
  - destruct (handleKeyPressed_inLevel rnd code g H) as [H1 E1].
    destruct (IH _ H1) as [H2 E2]. split; [exact H2 | congruence].
  - now apply IH.
Qed.

Lemma runIteration_banked (i : Game.FrameInput) (g : Game.t) :
  inLevel g -> banked (Game.runIteration i g) = banked g.
Proof.
  intros H. unfold Game.runIteration.
  destruct (processEvents_inLevel (Game.events i) g H) as [H1 E1].
  apply board_banked in E1. unfold inLevel in H1.
  destruct (Game.state (Game.processEvents (Game.events i) g));
    try contradiction; rewrite ?update_banked; exact E1.
Qed.

Lemma run_banked (inputs : list Game.FrameInput) :
  forall g, staysInLevel inputs g -> banked (Game.run inputs g) = banked g.
Proof.
  induction inputs as [| i rest IH]; intros g H; cbn; [reflexivity | ].
  destruct H as [Hin Hrest].
  destruct (Game.windowOpen g); [ | reflexivity].
  rewrite (IH _ Hrest). now apply runIteration_banked.
Qed.

Lemma standingPoints_all_standing (bs : list Brick.t) :
  Forall (fun b => Brick.destroyed b = false) bs ->
  standingPoints bs = totalPoints bs.
Proof.
  induction 1 as [| b rest Hb _ IH]; [reflexivity | ].
  rewrite standingPoints_cons, totalPoints_cons, Hb, IH. reflexivity.
Qed.

Lemma standingPoints_all_destroyed (bs : list Brick.t) :
  Forall (fun b => Brick.destroyed b = true) bs -> standingPoints bs = 0%Z.
Proof.
  induction 1 as [| b rest Hb _ IH]; [reflexivity | ].
  rewrite standingPoints_cons, Hb, IH. reflexivity.
Qed.

Lemma countStanding_nonneg (bs : list Brick.t) : (0 <= countStanding bs)%Z.
Proof. unfold countStanding. lia. Qed.

Lemma countStanding_zero (bs : list Brick.t) :
  countStanding bs = 0%Z <-> Forall (fun b => Brick.destroyed b = true) bs.
Proof.
  unfold countStanding. induction bs as [| b rest IH].
  - split; [constructor | reflexivity].
  - rewrite length_filter_cons. unfold standing at 1.
    destruct (Brick.destroyed b) eqn:Hd; cbn [negb Z.b2z].
    + rewrite Z.add_0_l, IH. split.
      * intros H. now constructor.
      * intros H. now inversion H.
    + split; [lia | ]. intros H. inversion H. congruence.
Qed.

(** One pass of the loop body: the score and the count move exactly when
    the brick goes from standing to destroyed. *)
Lemma brickStep_transition (c : sf.Vector2f) (rad : R) (g : Game.t)
      (resolved : bool) (b : Brick.t) :
  let r := Game.brickStep c rad g resolved b in
  let fell := negb (Brick.destroyed b) && Brick.destroyed (snd r) in
  Game.score (fst (fst r)) =
    (Game.score g + (if fell then Brick.points b else 0))%Z /\
  Game.bricksRemaining (fst (fst r)) =
    (Game.bricksRemaining g - (if fell then 1 else 0))%Z.
Proof.
  cbv zeta. rewrite brickStep_eq. unfold collides.
  destruct (Brick.destroyed b) eqn:Hd; cbn [negb andb fst snd].
  - split; lia.
  - destruct (Rlt_dec (distSq c b) (rad * rad)); cbn [fst snd].
    + destruct (Brick.destroyed (Brick.hit b)); cbn; split; lia.
    + rewrite Hd. split; lia.
Qed.

(** The same of the loop body as binary32 computes its test. *)
Lemma brickStep32_transition (c : sf.Vector2f) (rad : R) (g : Game.t)
      (resolved : bool) (b : Brick.t) :
  let r := Game32.brickStep c rad g resolved b in
  let fell := negb (Brick.destroyed b) && Brick.destroyed (snd r) in
  Game.score (fst (fst r)) =
    (Game.score g + (if fell then Brick.points b else 0))%Z /\
  Game.bricksRemaining (fst (fst r)) =
    (Game.bricksRemaining g - (if fell then 1 else 0))%Z.
Proof.
  cbv zeta. unfold Game32.brickStep, Brick.isDestroyed, Brick.getPoints.
  destruct (Brick.destroyed b) eqn:Hd; cbn [negb andb fst snd].
  - split; lia.
  - destruct (Rge_dec _ _); cbn [fst snd].
    + rewrite Hd. split; lia.
    + pose proof (hit_points b) as Hp.
      set (hb := Brick.hit b) in *. clearbody hb.
      destruct (Brick.destroyed hb) eqn:Hh; destruct resolved;
        cbn; rewrite ?Hp, ?Hh; split; lia.
Qed.

(** ** Evaluating a concrete frame *)

(** No wall responds to a ball that is within the side and top walls
    and whose top edge has not passed the bottom of the window. *)
Lemma handleWallCollisions_inside (g : Game.t) :
  let pos := Ball.position (Game.ball g) in
  let rad := Ball.radius (Game.ball g) in
  0 <= sf.x pos - rad -> sf.x pos + rad <= IZR Constants.WINDOW_WIDTH ->
  0 <= sf.y pos - rad -> sf.y pos - rad <= IZR Constants.WINDOW_HEIGHT ->
  Game.handleWallCollisions g = g.
Proof.
  cbv zeta. intros Hl Hr Ht Hb.
  unfold Game.handleWallCollisions, Ball.getPosition, Ball.getRadius.
  rdec. reflexivity.
Qed.

Lemma handlePaddleCollision_rising (g : Game.t) :
  sf.y (Ball.velocity (Game.ball g)) <= 0 ->
  Game.handlePaddleCollision g = g.
Proof.
  intros H. unfold Game.handlePaddleCollision, Ball.getVelocity.
  rdec. reflexivity.
Qed.

(** The bricks after a frame of play: those the ball reaches, where it
    stands once the walls and the paddle have responded, are hit. *)
Lemma update_bricks (kb : sf.Keyboard) (dt : R) (g : Game.t) :
  Game.state g <> BallOnPaddle ->
  let g1 :=
    Game.handlePaddleCollision
      (Game.handleWallCollisions
         (Game.setBall (Ball.update dt (Game.ball g))
            (Game.setPaddle
               (Paddle.update kb dt (IZR Constants.WINDOW_WIDTH) (Game.paddle g))
               g))) in
  Game.update kb dt g =
  let g2 := Game.handleBrickCollisions g1 in
  if (Game.bricksRemaining g2 <=? 0)%Z
  then if (Game.level g2 >=? Constants.MAX_LEVELS)%Z
       then Game.setState Victory g2
       else Game.setLevelCompleteTimer Constants.LEVEL_COMPLETE_DELAY
              (Game.setState LevelComplete g2)
  else g2.
Proof.
  intros Hs. unfold Game.update.
  change (Game.state (Game.setPaddle _ g)) with (Game.state g).
  destruct (Game.state g); try reflexivity. contradiction.
Qed.

Lemma Rmin_quiet : Rmin 0.0125 Game.MAX_FRAME_TIME = 0.0125.
Proof. apply Rmin_left. pose proof MAX_FRAME_TIME_bounds. lra. Qed.

Lemma centredPaddle_quiet (dt : R) :
  Paddle.update (sf.mkKeyboard false false false false) dt
                (IZR Constants.WINDOW_WIDTH) centredPaddle = centredPaddle.
Proof.
  unfold Paddle.update, centredPaddle, Paddle.Paddle, sf.setPosition,
    Constants.WINDOW_WIDTH.
  cbn. f_equal. f_equal. f_equal. minmax.
Qed.

Lemma firstBrick_offsets :
  offsetX (sf.mkVector2f 76 91) firstBrick = 0 /\
  offsetY (sf.mkVector2f 76 91) firstBrick = 7.5.
Proof.
  unfold offsetX, offsetY, nearest, firstBrick. cbn.
  assert (Ex : clamp 76 (42 - 1.5) (42 - 1.5 + (68 + 2 * 1.5)) = 76) by minmax.
  assert (Ey : clamp 91 (60 - 1.5) (60 - 1.5 + (22 + 2 * 1.5)) = 83.5) by minmax.
  rewrite Ex, Ey. split; lra.
Qed.

Lemma firstBrick_distSq :
  distSq (sf.mkVector2f 76 91) firstBrick = 7.5 * 7.5.
Proof.
  unfold distSq. destruct firstBrick_offsets as [-> ->]. lra.
Qed.

Lemma firstBrick_collides : collides (sf.mkVector2f 76 91) 8 firstBrick = true.
Proof.
  unfold collides. rewrite firstBrick_distSq. rdec. reflexivity.
Qed.

Lemma firstBrick_felled : felled (sf.mkVector2f 76 91) 8 firstBrick = true.
Proof. unfold felled. now rewrite firstBrick_collides. Qed.

Lemma firstBrick_normal :
  normalOf (sf.mkVector2f 76 91) firstBrick = sf.mkVector2f 0 1.
Proof.
  unfold normalOf. rewrite firstBrick_distSq.
  destruct firstBrick_offsets as [-> ->].
  rewrite sqrt_square by lra. rdec. f_equal; lra.
Qed.

Lemma sqrt_320 : sqrt (0 * 0 + 320 * 320) = 320.
Proof. replace (0 * 0 + 320 * 320) with (320 * 320) by lra. apply sqrt_square. lra. Qed.

Lemma firstBrick_respond (moving : bool) :
  respond (sf.mkVector2f 0 1) (sf.mkVector2f 76 91) 8 320 firstBrick
          (Ball.mk (sf.mkVector2f 76 91) (sf.mkVector2f 0 (- 320)) 8 moving) =
  Ball.mk (sf.mkVector2f 76 92) (sf.mkVector2f 0 320) 8 moving.
Proof.
  unfold respond. rewrite firstBrick_distSq, sqrt_square by lra.
  unfold reflect. cbn [sf.x sf.y Ball.velocity Ball.radius Ball.moving].
  replace (0 - 2 * (0 * 0 + - 320 * 1) * 0) with 0 by lra.
  replace (- 320 - 2 * (0 * 0 + - 320 * 1) * 1) with 320 by lra.
  unfold Ball.normaliseSpeed, Ball.getSpeed.
  cbn [sf.x sf.y Ball.velocity Ball.radius Ball.moving Ball.position].
  rewrite sqrt_320. rdec. f_equal; f_equal; lra.
Qed.

Lemma oneBrickGame_frame :
  Game.runIteration quietFrame oneBrickGame = oneBrickGameAfter.
Proof.
  unfold Game.runIteration, quietFrame, oneBrickGame.
  cbn [Game.events Game.processEvents Game.state Game.elapsed Game.keyboard].
  rewrite Rmin_quiet.
  rewrite update_bricks by discriminate.
  cbn [Game.paddle Game.ball]. rewrite centredPaddle_quiet.
  unfold Ball.update. cbn [Ball.moving negb].
  cbn [Ball.position Ball.velocity Ball.radius sf.x sf.y].
  replace (76 + 0 * 0.0125) with 76 by lra.
  replace (95 + - 320 * 0.0125) with 91 by lra.
  rewrite handleWallCollisions_inside.
  2-5: cbn; unfold Constants.WINDOW_WIDTH, Constants.WINDOW_HEIGHT; lra.
  rewrite handlePaddleCollision_rising by (cbn; lra).
  rewrite handleBrickCollisions_eq.
  cbn [Game.ball Game.setBall Game.setPaddle Game.bricks Ball.position
       Ball.radius Game.ballSpeed Game.score Game.bricksRemaining].
  unfold ballAfter, felledPoints, countFelled, hitIfCollides.
  cbn [map find filter].
  rewrite firstBrick_collides, firstBrick_felled, firstBrick_normal,
    firstBrick_respond.
  reflexivity.
Qed.

(** ** Scoring and the count of remaining bricks *)

(** C8. Score correctness.  The bricks [createBricks] makes are exactly
    the bricks of the rows and columns of the grid; the brick of a row and
    column stands at that row's height and that column's place, and its
    point value is the base value of that same row (60 for the top row
    down to 10 for the bottom one) times its max hit points, the row's
    base hit points plus the extra of the level; [hit] never changes the
    point value; one pass of the collision loop adds that value to the
    score exactly when the brick goes from standing to destroyed, however
    the test of the pass is computed, in exact arithmetic or in binary32;
    hence, over any run of frames played within a level that starts with
    every brick standing and ends with every brick destroyed, the score
    grows by the sum of the bricks' point values, which for a fresh grid
    is the sum over the grid of row base value times max hit points. *)
Theorem C8_score_correctness :
  (forall g b,
     In b (Game.bricks (Game.createBricks g)) <->
     exists row col,
       (row < Constants.BRICK_ROWS)%nat /\ (col < Constants.BRICK_COLS)%nat /\
       b = Game.brickAt (extraOf (Game.level g)) gridStartX row col) /\
  (forall e row col,
     let b := Game.brickAt e gridStartX row col in
     sf.position (Brick.shape b) =
       sf.mkVector2f
         (gridStartX +
          INR col * (Constants.BRICK_WIDTH + Constants.BRICK_PADDING))
         (Constants.BRICK_TOP_OFFSET +
          INR row * (Constants.BRICK_HEIGHT + Constants.BRICK_PADDING)) /\
     Brick.maxHitPoints b = (nth row Game.ROW_BASE_HIT_POINTS 0 + e)%Z /\
     Brick.hitPoints b = Brick.maxHitPoints b /\
     Brick.points b = (nth row Game.ROW_POINTS 0 * Brick.maxHitPoints b)%Z) /\
  Game.ROW_POINTS = [60; 50; 40; 30; 20; 10]%Z /\
  (forall b, Brick.points (Brick.hit b) = Brick.points b) /\
  (forall c rad g resolved b,
     let r := Game.brickStep c rad g resolved b in
     Game.score (fst (fst r)) =
       (Game.score g +
        (if negb (Brick.destroyed b) && Brick.destroyed (snd r)
         then Brick.points b else 0))%Z) /\
  (forall c rad g resolved b,
     let r := Game32.brickStep c rad g resolved b in
     Game.score (fst (fst r)) =
       (Game.score g +
        (if negb (Brick.destroyed b) && Brick.destroyed (snd r)
         then Brick.points b else 0))%Z) /\
  (forall inputs g,
     Forall (fun b => Brick.destroyed b = false) (Game.bricks g) ->
     staysInLevel inputs g ->
     Forall (fun b => Brick.destroyed b = true)
            (Game.bricks (Game.run inputs g)) ->
     Game.score (Game.run inputs g) =
       (Game.score g + totalPoints (Game.bricks g))%Z) /\
  (forall g,
     totalPoints (Game.bricks (Game.createBricks g)) =
       levelValue (extraOf (Game.level g))).
Proof.
  split; [ | split; [ | split; [ | split; [ | split; [ | split; [ | split]]]]]].
  - intros g b. apply createBricks_In.
  - intros e row col. cbv zeta.
    destruct (brickAt_fields e gridStartX row col) as (_ & Hmax & Hhp & Hpts).
    repeat split; assumption.
  - reflexivity.
  - apply hit_points.
  - intros c rad g resolved b. apply brickStep_transition.
  - intros c rad g resolved b. apply brickStep32_transition.
  - intros inputs g Hstanding Hstay Hdone.
    pose proof (run_banked inputs g Hstay) as Hb. unfold banked in Hb.
    rewrite (standingPoints_all_destroyed _ Hdone) in Hb.
    rewrite (standingPoints_all_standing _ Hstanding) in Hb. lia.
  - apply createBricks_totalPoints.
Qed.

(** On [oneBrickGame] the frame destroys the only brick and the score
    becomes the 60 points of that brick. *)
Lemma C8_witness :
  Forall (fun b => Brick.destroyed b = false) (Game.bricks oneBrickGame) /\
  staysInLevel [quietFrame] oneBrickGame /\
  Forall (fun b => Brick.destroyed b = true)
         (Game.bricks (Game.run [quietFrame] oneBrickGame)) /\
  Game.score (Game.run [quietFrame] oneBrickGame) = 60%Z.
Proof.
  assert (H1 : Forall (fun b => Brick.destroyed b = false)
                      (Game.bricks oneBrickGame))
    by (repeat constructor).
  assert (H2 : staysInLevel [quietFrame] oneBrickGame)
    by (repeat split).
  assert (H3 : Forall (fun b => Brick.destroyed b = true)
                      (Game.bricks (Game.run [quietFrame] oneBrickGame))).
  { cbn [Game.run Game.windowOpen oneBrickGame].
    fold oneBrickGame. rewrite oneBrickGame_frame. repeat constructor. }
  repeat split; try assumption.
  destruct C8_score_correctness as (_ & _ & _ & _ & _ & _ & Hrun & _).
  exact (Hrun [quietFrame] oneBrickGame H1 H2 H3).
Defined.

(** C9. [bricksRemaining] is the number of standing bricks.
    [createBricks] sets it to the size of the grid with every brick
    standing; [handleBrickCollisions] takes from it the number of bricks
    the call destroys, each once, as one pass of the loop shows, and adds
    their points to the score in the same pass; the equality holds
    initially and after any run of frames; where it holds the count is
    not negative and is zero exactly when every brick is destroyed. *)
Theorem C9_bricksRemaining_counts_standing :
  (forall g,
     Game.bricksRemaining (Game.createBricks g) =
       Z.of_nat (Constants.BRICK_ROWS * Constants.BRICK_COLS) /\
     length (Game.bricks (Game.createBricks g)) =
       (Constants.BRICK_ROWS * Constants.BRICK_COLS)%nat /\
     Forall (fun b => Brick.destroyed b = false)
            (Game.bricks (Game.createBricks g)) /\
     countInv (Game.createBricks g)) /\
  (forall c rad g resolved b,
     let r := Game.brickStep c rad g resolved b in
     let fell := negb (Brick.destroyed b) && Brick.destroyed (snd r) in
     Game.bricksRemaining (fst (fst r)) =
       (Game.bricksRemaining g - (if fell then 1 else 0))%Z /\
     Game.score (fst (fst r)) =
       (Game.score g + (if fell then Brick.points b else 0))%Z) /\
  (forall g,
     let g' := Game.handleBrickCollisions g in
     (Game.bricksRemaining g - Game.bricksRemaining g' =
      countStanding (Game.bricks g) - countStanding (Game.bricks g'))%Z /\
     (countInv g -> countInv g')) /\
  (forall fontLoaded inputs,
     countInv (Game.run inputs (Game.Game fontLoaded))) /\
  (forall g, countInv g ->
     (0 <= Game.bricksRemaining g)%Z /\
     (Game.bricksRemaining g = 0%Z <->
      Forall (fun b => Brick.destroyed b = true) (Game.bricks g))).
Proof.
  split; [ | split; [ | split; [ | split]]].
  - intros g. split; [apply createBricks_remaining | ].
    split; [apply createBricks_length | ].
    split; [apply createBricks_standing | apply createBricks_countInv].
  - intros c rad g resolved b. cbv zeta.
    destruct (brickStep_transition c rad g resolved b) as [Hs Hr].
    split; assumption.
  - intros g. cbv zeta. split; [ | apply handleBrickCollisions_countInv].
    rewrite handleBrickCollisions_eq. cbn. rewrite countStanding_hit. lia.
  - intros fontLoaded inputs. apply run_countInv, Game_countInv.
  - intros g H. unfold countInv in H. rewrite H.
    split; [apply countStanding_nonneg | apply countStanding_zero].
Qed.

(** After the frame on [oneBrickGame] the count is zero and the only
    brick is destroyed. *)
Lemma C9_witness :
  countInv oneBrickGameAfter /\
  (0 <= Game.bricksRemaining oneBrickGameAfter)%Z /\
  (Game.bricksRemaining oneBrickGameAfter = 0%Z <->
   Forall (fun b => Brick.destroyed b = true) (Game.bricks oneBrickGameAfter)).
Proof.
  assert (H : countInv oneBrickGameAfter) by reflexivity.
  split; [exact H | ].
  destruct C9_bricksRemaining_counts_standing as (_ & _ & _ & _ & Hz).
  exact (Hz oneBrickGameAfter H).
Defined.

(** ** Walls and lives *)

Lemma handlePaddleCollision_only_ball (g : Game.t) :
  Game.handlePaddleCollision g =
  Game.setBall (Game.ball (Game.handlePaddleCollision g)) g.
Proof.
  unfold Game.handlePaddleCollision. destruct g. split_ifs; reflexivity.
Qed.

Lemma handleWallCollisions_state (g : Game.t) :
  Game.state (Game.handleWallCollisions g) = Game.state g \/
  Game.state (Game.handleWallCollisions g) = GameOver \/
  Game.state (Game.handleWallCollisions g) = BallOnPaddle.
Proof. unfold Game.handleWallCollisions. split_ifs; cbn; auto. Qed.

Lemma handleWallCollisions_level (g : Game.t) :
  Game.level (Game.handleWallCollisions g) = Game.level g.
Proof. unfold Game.handleWallCollisions. split_ifs; reflexivity. Qed.

(** C10. The bottom boundary triggers later than the other walls.  The
    left, right and top walls force the sign of a velocity component as
    soon as the near edge of the ball is across ([x - r < 0],
    [x + r > width], [y - r < 0]); a life is lost exactly when
    [y - r > height], that is when the top edge of the ball is below the
    window; a ball that touches or overlaps the bottom edge keeps its
    lives, its state, its vertical velocity and its height. *)
Theorem C10_bottom_boundary_later (g : Game.t) :
  let pos := Ball.position (Game.ball g) in
  let rad := Ball.radius (Game.ball g) in
  let vel := Ball.velocity (Game.ball g) in
  let winW := IZR Constants.WINDOW_WIDTH in
  let winH := IZR Constants.WINDOW_HEIGHT in
  let g' := Game.handleWallCollisions g in
  (sf.y pos - rad <= winH ->
     Game.lives g' = Game.lives g /\ Game.state g' = Game.state g /\
     sf.x (Ball.velocity (Game.ball g')) =
       (if Rgt_dec (sf.x pos + rad) winW then - Rabs (sf.x vel)
        else if Rlt_dec (sf.x pos - rad) 0 then Rabs (sf.x vel)
             else sf.x vel) /\
     sf.y (Ball.velocity (Game.ball g')) =
       (if Rlt_dec (sf.y pos - rad) 0 then Rabs (sf.y vel) else sf.y vel)) /\
  (sf.y pos - rad > winH ->
     Game.lives g' = Z.max 0 (Game.lives g - 1) /\
     Game.state g' =
       (if (Game.lives g - 1 <=? 0)%Z then GameOver else BallOnPaddle)) /\
  (winH - rad <= sf.y pos <= winH + rad -> 0 <= sf.y pos - rad ->
     Game.lives g' = Game.lives g /\ Game.state g' = Game.state g /\
     sf.y (Ball.velocity (Game.ball g')) = sf.y vel /\
     sf.y (Ball.position (Game.ball g')) = sf.y pos).
Proof.
  cbv zeta. unfold Game.handleWallCollisions, Ball.getPosition,
    Ball.getRadius, Ball.getVelocity.
  unfold Constants.WINDOW_WIDTH, Constants.WINDOW_HEIGHT.
  split; [ | split].
  - intros Hb. rdec; cbn; rewrite ?Rabs_Rabsolu; auto.
  - intros Hb. rdec; cbn;
      destruct (Z.leb_spec (Game.lives g - 1) 0); cbn; split; auto; lia.
  - intros [Hlo Hhi] Htop. rdec; cbn; auto.
Qed.

(** The ball of [oneBrickGame] lowered until it overlaps the bottom edge
    of the window: nothing happens to it. *)
Lemma C10_witness :
  let g := Game.setBall
             (Ball.mk (sf.mkVector2f 76 604) (sf.mkVector2f 0 320) 8 true)
             oneBrickGame in
  604 - 8 <= 600 /\
  Game.lives (Game.handleWallCollisions g) = 3%Z /\
  Game.state (Game.handleWallCollisions g) = Playing.
Proof.
  intros g.
  assert (H : 604 - 8 <= 600) by lra.
  split; [exact H | ].
  destruct (C10_bottom_boundary_later g) as [Hno _].
  destruct (Hno H) as (Hl & Hs & _). split; [exact Hl | exact Hs].
Defined.

Lemma handleWallCollisions_loss (g : Game.t) :
  sf.y (Ball.position (Game.ball g)) - Ball.radius (Game.ball g) >
    IZR Constants.WINDOW_HEIGHT ->
  (1 < Game.lives g)%Z ->
  Game.handleWallCollisions g =
  Game.resetBallOnPaddle (Game.setLives (Game.lives g - 1) g).
Proof.
  intros Hb H1.
  unfold Game.handleWallCollisions, Ball.getPosition, Ball.getRadius,
    Ball.getVelocity.
  destruct (Rgt_dec (sf.y (Ball.position (Game.ball g)) - Ball.radius (Game.ball g))
                    (IZR Constants.WINDOW_HEIGHT)) as [_ | Hn];
    [ | contradiction].
  assert (E : (Game.lives g - 1 <=? 0)%Z = false) by (apply Z.leb_gt; lia).
  split_walls; cbn; rewrite E; reflexivity.
Qed.

Lemma map_hitIfCollides_none (c : sf.Vector2f) (rad : R) (bs : list Brick.t) :
  Forall (fun b => collides c rad b = false) bs ->
  map (hitIfCollides c rad) bs = bs /\ find (collides c rad) bs = None /\
  felledPoints c rad bs = 0%Z /\ countFelled c rad bs = 0%Z.
Proof.
  unfold felledPoints, countFelled, felled, hitIfCollides.
  induction 1 as [| b rest Hb _ (IH1 & IH2 & IH3 & IH4)]; [repeat split | ].
  cbn [map find filter]. rewrite Hb. cbn [andb]. rewrite IH1.
  repeat split; assumption.
Qed.

(** Nothing happens when no standing brick is within reach of the ball. *)
Lemma handleBrickCollisions_none (g : Game.t) :
  Forall (fun b => collides (Ball.position (Game.ball g))
                            (Ball.radius (Game.ball g)) b = false)
         (Game.bricks g) ->
  Game.handleBrickCollisions g = g.
Proof.
  intros H. rewrite handleBrickCollisions_eq. cbv zeta. unfold ballAfter.
  destruct (map_hitIfCollides_none _ _ _ H) as (-> & -> & -> & ->).
  destruct g. unfold withBoard, Game.setBricks. cbn. f_equal; lia.
Qed.




(** ** Level progression *)

Lemma processEvents_LevelComplete (events : list (sf.Event * Z)) :
  forall g, Game.state g = LevelComplete ->
    exists wo, Game.processEvents events g = Game.setWindowOpen wo g.
Proof.
  assert (Hsame : forall g, exists wo, g = Game.setWindowOpen wo g)
    by (intros g; exists (Game.windowOpen g); now destruct g).
  induction events as [| [[| code |] rnd] rest IH]; intros g Hs; cbn;
    (destruct (Game.windowOpen g) eqn:Hopen; [ | now apply Hsame]).
  - exists (Game.windowOpen g). now destruct g.
  - now exists false.
  - assert (Hk : exists wo, Game.handleKeyPressed rnd code g =
                            Game.setWindowOpen wo g).
    { unfold Game.handleKeyPressed. rewrite Hs.
      destruct code; first [now exists false
                           | exists (Game.windowOpen g); now destruct g]. }
    destruct Hk as [wo ->].
    destruct (IH (Game.setWindowOpen wo g) Hs) as [wo' ->]. now exists wo'.
  - now apply IH.
Qed.

Lemma update_playing_state (kb : sf.Keyboard) (dt : R) (g : Game.t) :
  Game.state g = Playing ->
  let g' := Game.update kb dt g in
  Game.level g' = Game.level g /\
  ((Game.bricksRemaining g' <= 0)%Z ->
     Game.state g' =
       (if (Game.level g >=? Constants.MAX_LEVELS)%Z
        then Victory else LevelComplete) /\
     ((Game.level g < Constants.MAX_LEVELS)%Z ->
        Game.levelCompleteTimer g' = Constants.LEVEL_COMPLETE_DELAY)) /\
  ((0 < Game.bricksRemaining g')%Z ->
     Game.state g' = Playing \/ Game.state g' = GameOver \/
     Game.state g' = BallOnPaddle).
Proof.
  intros Hs g'. subst g'.
  rewrite update_bricks by (rewrite Hs; discriminate).
  set (g0 := Game.setBall _ (Game.setPaddle _ g)).
  assert (Hs0 : Game.state g0 = Playing) by exact Hs.
  assert (Hl0 : Game.level g0 = Game.level g) by reflexivity.
  clearbody g0.
  set (gw := Game.handleWallCollisions g0).
  assert (Hsw : Game.state gw = Playing \/ Game.state gw = GameOver \/
                Game.state gw = BallOnPaddle).
  { destruct (handleWallCollisions_state g0) as [H | H]; [ | right; exact H].
    left. fold gw in H. congruence. }
  assert (Hlw : Game.level gw = Game.level g)
    by (unfold gw; now rewrite handleWallCollisions_level).
  clearbody gw. rewrite (handlePaddleCollision_only_ball gw).
  set (gp := Game.setBall _ gw).
  assert (Hsp : Game.state gp = Game.state gw) by reflexivity.
  assert (Hlp : Game.level gp = Game.level gw) by reflexivity.
  clearbody gp. rewrite handleBrickCollisions_eq. cbv zeta.
  set (gb := Game.setBricks _ _).
  assert (Hsb : Game.state gb = Game.state gp) by reflexivity.
  assert (Hlb : Game.level gb = Game.level gp) by reflexivity.
  clearbody gb. cbv zeta.
  destruct (Z.leb_spec (Game.bricksRemaining gb) 0) as [Hle | Hgt].
  - rewrite Hlb, Hlp, Hlw.
    destruct (Z.geb_spec (Game.level g) Constants.MAX_LEVELS) as [Hge | Hlt];
      cbn; (split; [congruence | ]); (split; [intros _ | intros; lia]);
      (split; [reflexivity | intros; try reflexivity; lia]).
  - split; [congruence | ]. split; [intros; lia | ].
    intros _. rewrite Hsb, Hsp. exact Hsw.
Qed.

Lemma advanceLevel_fields (g : Game.t) :
  let g' := Game.advanceLevel g in
  Game.level g' = (Game.level g + 1)%Z /\
  Game.ballSpeed g' =
    Rmin (Game.ballSpeed g + Constants.BALL_SPEED_STEP) Constants.BALL_MAX_SPEED /\
  paddleX (Game.paddle g') =
    (IZR Constants.WINDOW_WIDTH - Constants.PADDLE_WIDTH) * 0.5 /\
  Game.state g' = BallOnPaddle /\
  Game.bricks g' =
    Game.bricks (Game.createBricks (Game.setLevel (Game.level g + 1) g)) /\
  Game.bricksRemaining g' =
    Z.of_nat (Constants.BRICK_ROWS * Constants.BRICK_COLS) /\
  Game.score g' = Game.score g /\ Game.lives g' = Game.lives g /\
  Game.windowOpen g' = Game.windowOpen g.
Proof. cbv zeta. repeat split. Qed.

(** C4. Level progression.  A frame of play leaves the level as it is;
    if it ends with no brick remaining, the state becomes [LevelComplete]
    with the countdown set to its delay when the level is below
    [MAX_LEVELS], and [Victory] otherwise; with bricks remaining the
    level is neither complete nor won.  In [LevelComplete] a frame takes
    its time, at most the binary32 number [0.05f], off the countdown, the
    difference rounded to binary32, which is positive exactly when the
    countdown is more than the time taken.  While the result is positive
    nothing else changes; once it is not, the level goes up by one, the
    ball speed by [BALL_SPEED_STEP] at most to [BALL_MAX_SPEED], the paddle
    is centred, the grid is rebuilt with [BRICK_ROWS * BRICK_COLS] standing
    bricks, one for each row and column at its place in the window, at
    full hit points, the base of its row plus the new level minus one, and
    the state is [BallOnPaddle]. *)
Theorem C4_level_progression :
  (forall kb dt g,
     Game.state g = Playing ->
     let g' := Game.update kb dt g in
     Game.level g' = Game.level g /\
     ((Game.bricksRemaining g' <= 0)%Z ->
        ((Game.level g < Constants.MAX_LEVELS)%Z ->
           Game.state g' = LevelComplete /\
           Game.levelCompleteTimer g' = Constants.LEVEL_COMPLETE_DELAY) /\
        ((Game.level g >= Constants.MAX_LEVELS)%Z -> Game.state g' = Victory)) /\
     ((0 < Game.bricksRemaining g')%Z ->
        Game.state g' <> LevelComplete /\ Game.state g' <> Victory)) /\
  (forall i g,
     Game.state g = LevelComplete -> (1 <= Game.level g)%Z ->
     let dt := Rmin (Game.elapsed i) Game.MAX_FRAME_TIME in
     let left := F32.round (Game.levelCompleteTimer g - dt) in
     let g' := Game.runIteration i g in
     dt <= 13421773 / 268435456 /\
     (0 < left <-> dt < Game.levelCompleteTimer g) /\
     (0 < left ->
        Game.state g' = LevelComplete /\
        Game.levelCompleteTimer g' = left /\
        Game.level g' = Game.level g /\
        Game.ballSpeed g' = Game.ballSpeed g /\
        Game.bricks g' = Game.bricks g) /\
     (left <= 0 ->
        Game.level g' = (Game.level g + 1)%Z /\
        Game.ballSpeed g' =
          Rmin (Game.ballSpeed g + Constants.BALL_SPEED_STEP)
               Constants.BALL_MAX_SPEED /\
        paddleX (Game.paddle g') =
          (IZR Constants.WINDOW_WIDTH - Constants.PADDLE_WIDTH) * 0.5 /\
        Game.state g' = BallOnPaddle /\
        length (Game.bricks g') =
          (Constants.BRICK_ROWS * Constants.BRICK_COLS)%nat /\
        Game.bricksRemaining g' =
          Z.of_nat (Constants.BRICK_ROWS * Constants.BRICK_COLS) /\
        (forall row col,
           (row < Constants.BRICK_ROWS)%nat ->
           (col < Constants.BRICK_COLS)%nat ->
           In (Game.brickAt (Game.level g' - 1) gridStartX row col)
              (Game.bricks g')) /\
        Forall
          (fun b =>
             Brick.destroyed b = false /\
             Brick.hitPoints b = Brick.maxHitPoints b /\
             exists row col,
               (row < Constants.BRICK_ROWS)%nat /\
               (col < Constants.BRICK_COLS)%nat /\
               sf.position (Brick.shape b) =
                 sf.mkVector2f
                   (gridStartX +
                    INR col *
                    (Constants.BRICK_WIDTH + Constants.BRICK_PADDING))
                   (Constants.BRICK_TOP_OFFSET +
                    INR row *
                    (Constants.BRICK_HEIGHT + Constants.BRICK_PADDING)) /\
               Brick.maxHitPoints b =
                 (nth row Game.ROW_BASE_HIT_POINTS 0 + (Game.level g' - 1))%Z)
          (Game.bricks g'))).
Proof.
  split.
  - intros kb dt g Hs g'.
    destruct (update_playing_state kb dt g Hs) as (Hl & Hzero & Hpos).
    fold g' in Hl, Hzero, Hpos.
    split; [exact Hl | ]. split.
    + intros Hz. destruct (Hzero Hz) as [Hst Htm]. split.
      * intros Hlt. split; [ | now apply Htm].
        rewrite Hst. destruct (Z.geb_spec (Game.level g) Constants.MAX_LEVELS);
          [lia | reflexivity].
      * intros Hge. rewrite Hst.
        destruct (Z.geb_spec (Game.level g) Constants.MAX_LEVELS);
          [reflexivity | lia].
    + intros Hp. destruct (Hpos Hp) as [H | [H | H]]; rewrite H;
        split; discriminate.
  - intros i g Hs Hlvl dt left g'.
    assert (Hsign : 0 < left <-> dt < Game.levelCompleteTimer g).
    { unfold left. split; intros H.
      - destruct (Rle_dec (Game.levelCompleteTimer g - dt) 0) as [Hle | Hgt];
          [ | lra].
        apply round_le_0 in Hle. lra.
      - apply round_pos. lra. }
    split.
    { unfold dt. rewrite MAX_FRAME_TIME_value. apply Rmin_r. }
    split; [exact Hsign | ].
    subst g'. unfold Game.runIteration. fold dt.
    destruct (processEvents_LevelComplete (Game.events i) g Hs) as [wo ->].
    cbn [Game.state Game.setWindowOpen]. rewrite Hs.
    cbn [Game.levelCompleteTimer Game.setLevelCompleteTimer Game.setWindowOpen].
    fold left.
    destruct (Rle_dec left 0) as [Hle | Hgt].
    + split; [intros; lra | intros _].
      set (g1 := Game.setLevelCompleteTimer _ _).
      destruct (advanceLevel_fields g1) as (Hl & Hsp & Hpx & Hst & Hbr & Hrem & _).
      assert (Hlev : Game.level (Game.setLevel (Game.level g1 + 1) g1) =
                     (Game.level g + 1)%Z) by reflexivity.
      assert (Hex : extraOf (Game.level g + 1) =
                    (Game.level (Game.advanceLevel g1) - 1)%Z).
      { rewrite Hl. change (Game.level g1) with (Game.level g).
        unfold extraOf. lia. }
      split; [exact Hl | ]. split; [exact Hsp | ]. split; [exact Hpx | ].
      split; [exact Hst | ].
      split; [rewrite Hbr; apply createBricks_length | ].
      split; [exact Hrem | ].
      split.
      * intros row col Hrow Hcol. rewrite Hbr. apply createBricks_In.
        exists row, col. split; [exact Hrow | ]. split; [exact Hcol | ].
        now rewrite Hlev, Hex.
      * rewrite Hbr. apply Forall_forall. intros b Hb.
        apply createBricks_rows in Hb
          as (row & col & Hrow & Hcol & _ & Hpos & Hd & Hhp & Hmax & _).
        split; [exact Hd | ]. split; [exact Hhp | ].
        exists row, col. split; [exact Hrow | ]. split; [exact Hcol | ].
        split; [exact Hpos | ]. now rewrite Hmax, Hlev, Hex.
    + split; [intros _ | intros; lra].
      repeat split; try reflexivity. exact Hs.
Qed.

(** The countdown of [lastMomentGame] has the length of one capped frame
    left: the frame [longFrame] uses it up and the second level begins,
    with the ball 35 faster. *)
Lemma C4_witness :
  Game.state lastMomentGame = LevelComplete /\
  (1 <= Game.level lastMomentGame)%Z /\
  F32.round (Game.levelCompleteTimer lastMomentGame -
             Rmin (Game.elapsed longFrame) Game.MAX_FRAME_TIME) <= 0 /\
  Game.level (Game.runIteration longFrame lastMomentGame) = 2%Z /\
  Game.state (Game.runIteration longFrame lastMomentGame) = BallOnPaddle /\
  Game.ballSpeed (Game.runIteration longFrame lastMomentGame) = 355 /\
  Game.bricksRemaining (Game.runIteration longFrame lastMomentGame) = 60%Z.
Proof.
  assert (Hs : Game.state lastMomentGame = LevelComplete) by reflexivity.
  assert (Hl : (1 <= Game.level lastMomentGame)%Z) by (cbn; lia).
  assert (Hz : F32.round (Game.levelCompleteTimer lastMomentGame -
                          Rmin (Game.elapsed longFrame) Game.MAX_FRAME_TIME)
               <= 0).
  { apply round_le_0. cbn [lastMomentGame Game.levelCompleteTimer
      Game.setLevelCompleteTimer longFrame Game.elapsed].
    rewrite Rmin_right by (pose proof MAX_FRAME_TIME_bounds; lra). lra. }
  split; [exact Hs | ]. split; [exact Hl | ]. split; [exact Hz | ].
  destruct C4_level_progression as [_ Hwait].
  destruct (Hwait longFrame lastMomentGame Hs Hl) as (_ & _ & _ & Hnext).
  destruct (Hnext Hz) as (H1 & H2 & _ & H4 & _ & H6 & _).
  split; [exact H1 | ]. split; [exact H4 | ]. split; [ | exact H6].
  rewrite H2. cbn [lastMomentGame Game.ballSpeed Game.setLevelCompleteTimer
    oneBrickGameAfter].
  unfold Constants.BALL_SPEED_STEP, Constants.BALL_MAX_SPEED.
  rewrite Rmin_left by lra. lra.
Defined.

(** ** Speed of the ball *)

Lemma Rabs_sq (v : R) : Rabs v * Rabs v = v * v.
Proof. unfold Rabs. destruct (Rcase_abs v); ring. Qed.

Lemma sum_sq_nonneg (u v : R) : 0 <= u * u + v * v.
Proof. nra. Qed.

Lemma getSpeed_nonneg (b : Ball.t) : 0 <= Ball.getSpeed b.
Proof. apply sqrt_pos. Qed.

Lemma getSpeed_sq (b : Ball.t) :
  Ball.getSpeed b * Ball.getSpeed b =
  sf.x (Ball.velocity b) * sf.x (Ball.velocity b) +
  sf.y (Ball.velocity b) * sf.y (Ball.velocity b).
Proof. unfold Ball.getSpeed. apply sqrt_sqrt, sum_sq_nonneg. Qed.

Lemma normaliseSpeed_moving (s : R) (b : Ball.t) :
  Ball.moving (Ball.normaliseSpeed s b) = Ball.moving b.
Proof. unfold Ball.normaliseSpeed. split_ifs; reflexivity. Qed.

Lemma normaliseSpeed_position (s : R) (b : Ball.t) :
  Ball.position (Ball.normaliseSpeed s b) = Ball.position b.
Proof. unfold Ball.normaliseSpeed. split_ifs; reflexivity. Qed.

Lemma distSq_nonneg (c : sf.Vector2f) (b : Brick.t) : 0 <= distSq c b.
Proof. apply sum_sq_nonneg. Qed.


Lemma handlePaddleCollision_eq (g : Game.t) :
  Game.handlePaddleCollision g =
  if paddleHit g then Game.setBall (deflected g) g else g.
Proof.
  unfold Game.handlePaddleCollision, paddleHit, Ball.getVelocity,
    Ball.getPosition, Ball.getRadius.
  destruct (Rle_dec (sf.y (Ball.velocity (Game.ball g))) 0) as [Hle | Hgt];
    destruct (Rgt_dec (sf.y (Ball.velocity (Game.ball g))) 0) as [Hgt' | Hle'];
    try lra; cbn [andb]; [reflexivity | ].
  fold (expandedBounds g).
  destruct (sf.contains (expandedBounds g) (Ball.position (Game.ball g)));
    cbn [negb]; [ | reflexivity].
  unfold deflected, steered, launchAngle, hitOffsetOf, clamp, Paddle.getWidth.
  rewrite (Rmin_comm 1). reflexivity.
Qed.

(** ** Paddle deflection *)

Lemma PI_bounds : 3.1415926 < PI < 3.1415927.
Proof.
  pose proof (PI_2_3_7_ineq 3) as H.
  unfold sum_f_R0, tg_alt, PI_2_3_7_tg, Ratan_seq in H.
  cbn [Nat.mul Nat.add pow] in H.
  rewrite !INR_IZR_INZ in H. cbn [Z.of_nat Pos.of_succ_nat Pos.succ] in H.
  lra.
Qed.











(** ** Rounding errors *)

Lemma u32_small : 0 < u32 < 1 / 16000000.
Proof. unfold u32. lra. Qed.

Lemma bnd_round (x : R) : 0 <= x -> bnd (1 - u32) (1 + u32) (F32.round x) x.
Proof.
  intros Hx. pose proof (round_rel x) as H.
  rewrite (Rabs_pos_eq x) in H by lra. apply Rabs_bound in H.
  unfold bnd. lra.
Qed.

Lemma bnd_trans (lo1 hi1 lo2 hi2 x y z : R) :
  0 <= y -> 0 <= lo1 -> 0 <= lo2 -> 0 <= hi2 ->
  bnd lo1 hi1 x y -> bnd lo2 hi2 z x -> bnd (lo1 * lo2) (hi1 * hi2) z y.
Proof.
  unfold bnd. intros Hy H1 H2 H3 [Ha Hb] [Hc Hd].
  assert (Hx : 0 <= x) by nra.
  split.
  - apply Rle_trans with (x * lo2); [ | exact Hc].
    rewrite <- Rmult_assoc. apply Rmult_le_compat_r; assumption.
  - apply Rle_trans with (x * hi2); [exact Hd | ].
    rewrite <- Rmult_assoc. apply Rmult_le_compat_r; assumption.
Qed.

Lemma bnd_weaken (lo hi lo' hi' x y : R) :
  0 <= y -> lo' <= lo -> hi <= hi' -> bnd lo hi x y -> bnd lo' hi' x y.
Proof. unfold bnd. intros Hy H1 H2 [Ha Hb]. split; nra. Qed.

Lemma bnd_add (lo hi a b A B : R) :
  bnd lo hi a A -> bnd lo hi b B -> bnd lo hi (a + b) (A + B).
Proof. unfold bnd. intros [H1 H2] [H3 H4]. split; lra. Qed.

Lemma bnd_scale (lo hi x y k : R) :
  0 <= k -> bnd lo hi x y -> bnd lo hi (x * k) (y * k).
Proof. unfold bnd. intros Hk [H1 H2]. split; nra. Qed.

Lemma bnd_sqrt (lo hi x y : R) :
  0 <= y -> 0 <= lo -> 0 <= hi ->
  bnd (lo * lo) (hi * hi) x y -> bnd lo hi (sqrt x) (sqrt y).
Proof.
  unfold bnd. intros Hy Hlo Hhi [H1 H2]. split.
  - replace (sqrt y * lo) with (sqrt (y * (lo * lo))).
    + apply sqrt_le_1_alt. exact H1.
    + rewrite sqrt_mult by nra. rewrite sqrt_square by exact Hlo. reflexivity.
  - replace (sqrt y * hi) with (sqrt (y * (hi * hi))).
    + apply sqrt_le_1_alt. exact H2.
    + rewrite sqrt_mult by nra. rewrite sqrt_square by exact Hhi. reflexivity.
Qed.

Lemma round_abs (z : R) :
  bnd (1 - u32) (1 + u32) (Rabs (F32.round z)) (Rabs z).
Proof.
  pose proof (round_rel z) as H.
  pose proof (Rabs_triang z (F32.round z - z)) as H1.
  replace (z + (F32.round z - z)) with (F32.round z) in H1 by ring.
  pose proof (Rabs_triang (F32.round z) (z - F32.round z)) as H2.
  replace (F32.round z + (z - F32.round z)) with z in H2 by ring.
  rewrite (Rabs_minus_sym z) in H2.
  unfold bnd. lra.
Qed.

Lemma bnd_round_sq (z : R) :
  bnd ((1 - u32) * (1 - u32)) ((1 + u32) * (1 + u32))
      (F32.round z * F32.round z) (z * z).
Proof.
  pose proof (round_abs z) as [H1 H2]. pose proof u32_small as Hu.
  pose proof (Rabs_pos z) as Hz. pose proof (Rabs_pos (F32.round z)) as Hr.
  rewrite <- (Rabs_sq (F32.round z)), <- (Rabs_sq z).
  assert (H0 : 0 <= Rabs z * (1 - u32)) by (apply Rmult_le_pos; lra).
  unfold bnd. split.
  - replace (Rabs z * Rabs z * ((1 - u32) * (1 - u32)))
      with (Rabs z * (1 - u32) * (Rabs z * (1 - u32))) by ring.
    apply Rmult_le_compat; assumption.
  - replace (Rabs z * Rabs z * ((1 + u32) * (1 + u32)))
      with (Rabs z * (1 + u32) * (Rabs z * (1 + u32))) by ring.
    apply Rmult_le_compat; assumption.
Qed.

Lemma round_nonneg (x : R) : 0 <= x -> 0 <= F32.round x.
Proof.
  intros H. destruct (bnd_round x H) as [H1 _]. pose proof u32_small. nra.
Qed.

(** A rounded sum of rounded squares. *)
Lemma sumsq32_bnd (x y : R) :
  bnd ((1 - u32) * (1 - u32)) ((1 + u32) * (1 + u32))
      (F32.round (F32.round (x * x) + F32.round (y * y))) (x * x + y * y).
Proof.
  pose proof u32_small as Hu.
  assert (Hx : 0 <= x * x) by nra. assert (Hy : 0 <= y * y) by nra.
  pose proof (bnd_round _ Hx) as Bx. pose proof (bnd_round _ Hy) as By.
  pose proof (bnd_add _ _ _ _ _ _ Bx By) as Bs.
  assert (Hs : 0 <= F32.round (x * x) + F32.round (y * y)).
  { destruct Bs as [Bs _]. nra. }
  pose proof (bnd_round _ Hs) as Br.
  assert (Hq : 0 <= x * x + y * y) by lra.
  eapply bnd_trans; [exact Hq | | | | exact Bs | exact Br]; lra.
Qed.

(** The squared distance binary32 computes, from below. *)
Lemma distSq32_floor (c : sf.Vector2f) (b : Brick.t) :
  let p := nearest32 c (Brick.getBounds b) in
  let A := sf.x c - sf.x p in
  let B := sf.y c - sf.y p in
  (A * A + B * B) * (1 - / 2000000) <= distSq32 c b.
Proof.
  intros p A B. pose proof u32_small as Hu. unfold distSq32, offsetX32, offsetY32.
  fold p A B.
  pose proof (sumsq32_bnd (F32.round A) (F32.round B)) as [H1 _].
  pose proof (bnd_round_sq A) as [HA _]. pose proof (bnd_round_sq B) as [HB _].
  set (R := F32.round (F32.round (F32.round A * F32.round A) +
                       F32.round (F32.round B * F32.round B))) in *.
  set (a2 := F32.round A * F32.round A) in *.
  set (b2 := F32.round B * F32.round B) in *.
  assert (HAA : 0 <= A * A) by nra. assert (HBB : 0 <= B * B) by nra.
  set (AA := A * A) in *. set (BB := B * B) in *.
  clearbody R a2 b2 AA BB. unfold u32 in *.
  apply Rle_trans with ((a2 + b2) * ((1 - / 16777216) * (1 - / 16777216)));
    [ | exact H1].
  apply Rle_trans with ((AA + BB) * ((1 - / 16777216) * (1 - / 16777216))
                        * ((1 - / 16777216) * (1 - / 16777216))).
  - apply Rle_trans with ((AA + BB) * (1 - 4 * / 16777216)); [nra | ].
    rewrite Rmult_assoc. apply Rmult_le_compat_l; lra.
  - apply Rmult_le_compat_r; lra.
Qed.

(** The squared distance binary32 computes, from above. *)
Lemma distSq32_ceil (c : sf.Vector2f) (b : Brick.t) :
  let p := nearest32 c (Brick.getBounds b) in
  let A := sf.x c - sf.x p in
  let B := sf.y c - sf.y p in
  distSq32 c b <= (A * A + B * B) * (1 + / 2000000).
Proof.
  intros p A B. pose proof u32_small as Hu. unfold distSq32, offsetX32, offsetY32.
  fold p A B.
  pose proof (sumsq32_bnd (F32.round A) (F32.round B)) as [_ H1].
  pose proof (bnd_round_sq A) as [_ HA]. pose proof (bnd_round_sq B) as [_ HB].
  set (R := F32.round (F32.round (F32.round A * F32.round A) +
                       F32.round (F32.round B * F32.round B))) in *.
  set (a2 := F32.round A * F32.round A) in *.
  set (b2 := F32.round B * F32.round B) in *.
  assert (HAA : 0 <= A * A) by nra. assert (HBB : 0 <= B * B) by nra.
  set (AA := A * A) in *. set (BB := B * B) in *.
  clearbody R a2 b2 AA BB. unfold u32 in *.
  apply Rle_trans with ((a2 + b2) * ((1 + / 16777216) * (1 + / 16777216)));
    [exact H1 | ].
  apply Rle_trans with ((AA + BB) * ((1 + / 16777216) * (1 + / 16777216))
                        * ((1 + / 16777216) * (1 + / 16777216))).
  - apply Rmult_le_compat_r; lra.
  - rewrite Rmult_assoc. apply Rmult_le_compat_l; lra.
Qed.

(** The test of the code against the distance to the rectangle: the two
    agree but for a band of a millionth around the radius. *)
Lemma collides32_band (c : sf.Vector2f) (rad : R) (b : Brick.t) :
  let p := nearest32 c (Brick.getBounds b) in
  let D2 := (sf.x c - sf.x p) * (sf.x c - sf.x p) +
            (sf.y c - sf.y p) * (sf.y c - sf.y p) in
  (collides32 c rad b = true ->
     Brick.destroyed b = false /\ D2 < rad * rad * (1 + / 1000000)) /\
  (Brick.destroyed b = false -> D2 < rad * rad * (1 - / 1000000) ->
     collides32 c rad b = true).
Proof.
  intros p D2.
  pose proof (distSq32_floor c b) as Hlo. pose proof (distSq32_ceil c b) as Hhi.
  cbv zeta in Hlo, Hhi. fold p D2 in Hlo, Hhi.
  assert (Hrr : 0 <= rad * rad) by apply Rle_0_sqr.
  destruct (bnd_round _ Hrr) as [Hr1 Hr2]. unfold u32 in Hr1, Hr2.
  assert (HD : 0 <= D2) by (unfold D2; apply sum_sq_nonneg).
  set (rr := rad * rad) in *. set (q := distSq32 c b) in *.
  unfold collides32. fold q rr. clearbody D2 rr q. split.
  - intros H. apply andb_prop in H as [Hs H].
    split; [now destruct (Brick.destroyed b) | ].
    destruct (Rlt_dec q (F32.round rr)) as [Hlt | ]; [ | discriminate].
    lra.
  - intros Hs Hd. rewrite Hs. cbn [negb andb].
    destruct (Rlt_dec q (F32.round rr)) as [ | Hn]; [reflexivity | exfalso].
    lra.
Qed.

(** ** One reflection per frame *)

Lemma firstBrick_bounds :
  Brick.getBounds firstBrick = sf.mkFloatRect (42 - 1.5) (60 - 1.5)
                                              (68 + 2 * 1.5) (22 + 2 * 1.5).
Proof. reflexivity. Qed.

Lemma normalOf_far (c : sf.Vector2f) (b : Brick.t) :
  sqrt (distSq c b) > 0.0001 ->
  normalOf c b = sf.mkVector2f (offsetX c b / sqrt (distSq c b))
                               (offsetY c b / sqrt (distSq c b)).
Proof.
  intros H. unfold normalOf.
  destruct (Rgt_dec (sqrt (distSq c b)) 0.0001); [reflexivity | contradiction].
Qed.

Lemma normalOf_near (c : sf.Vector2f) (b : Brick.t) :
  sqrt (distSq c b) <= 0.0001 -> normalOf c b = sf.mkVector2f 0 (- 1).
Proof.
  intros H. unfold normalOf.
  destruct (Rgt_dec (sqrt (distSq c b)) 0.0001); [lra | reflexivity].
Qed.

Lemma respond_position (n c : sf.Vector2f) (rad s : R) (b : Brick.t)
      (ball : Ball.t) :
  Ball.position (respond n c rad s b ball) =
  sf.mkVector2f (sf.x c + sf.x n * (rad - sqrt (distSq c b) + 0.5))
                (sf.y c + sf.y n * (rad - sqrt (distSq c b) + 0.5)).
Proof. unfold respond. now rewrite normaliseSpeed_position. Qed.

(** *** The loop in binary32 *)

Lemma brickStep32_eq (c : sf.Vector2f) (rad : R) (g : Game.t)
      (resolved : bool) (b : Brick.t) :
  Game32.brickStep c rad g resolved b =
  if collides32 c rad b
  then
    (withBoard
       (if resolved then Game.ball g
        else respond32 (normal32 c b) c rad (Game.ballSpeed g) b (Game.ball g))
       (if Brick.destroyed (Brick.hit b)
        then Game.score g + Brick.points b else Game.score g)%Z
       (if Brick.destroyed (Brick.hit b)
        then Game.bricksRemaining g - 1 else Game.bricksRemaining g)%Z
       g,
     true, Brick.hit b)
  else (g, resolved, b).
Proof.
  unfold Game32.brickStep, collides32, Brick.isDestroyed, Brick.getPoints.
  destruct (Brick.destroyed b); [reflexivity | ]. cbv beta iota zeta.
  change (Rmax ?lo (Rmin ?v ?hi)) with (clamp v lo hi).
  fold (nearest32 c (Brick.getBounds b)).
  change (F32.round
            (sf.x c -
             clamp (sf.x c) (sf.left (Brick.getBounds b))
               (F32.round (sf.left (Brick.getBounds b) +
                           sf.width (Brick.getBounds b)))))
    with (offsetX32 c b).
  change (F32.round
            (sf.y c -
             clamp (sf.y c) (sf.top (Brick.getBounds b))
               (F32.round (sf.top (Brick.getBounds b) +
                           sf.height (Brick.getBounds b)))))
    with (offsetY32 c b).
  fold (distSq32 c b). fold (dist32 c b).
  destruct (Rge_dec (distSq32 c b) (F32.round (rad * rad))) as [Hge | Hlt];
    destruct (Rlt_dec (distSq32 c b) (F32.round (rad * rad))) as [Hlt' | Hge'];
    try lra; [reflexivity | ].
  cbn [negb andb]. rewrite hit_points.
  destruct g as [wo bl pd bks st sc lv lvl bs tm rem prev].
  unfold respond32, bounced32, normal32, reflect32, Game32.reflectBall.
  destruct resolved; destruct (Brick.destroyed (Brick.hit b));
    destruct (Rgt_dec (dist32 c b) (F32.round 0.0001)); reflexivity.
Qed.

Lemma brickLoop32_eq (c : sf.Vector2f) (rad : R) :
  forall (bs : list Brick.t) (g : Game.t) (resolved : bool),
    Game32.brickLoop c rad bs g resolved =
    (withBoard (ballAfter32 c rad (Game.ballSpeed g) resolved bs (Game.ball g))
               (Game.score g + totalPoints (filter (felled32 c rad) bs))%Z
               (Game.bricksRemaining g -
                Z.of_nat (length (filter (felled32 c rad) bs)))%Z
               g,
     resolved || existsb (collides32 c rad) bs,
     map (hitIfCollides32 c rad) bs).
Proof.
  induction bs as [| b rest IH]; intros g resolved.
  - destruct g; destruct resolved; unfold withBoard; cbn;
      (apply f_equal2; [apply f_equal2 | ]); try reflexivity;
      f_equal; lia.
  - cbn [Game32.brickLoop]. rewrite brickStep32_eq.
    unfold felled32, ballAfter32, hitIfCollides32 in *.
    cbn [filter find existsb map].
    destruct (collides32 c rad b) eqn:Hc; rewrite IH; clear IH.
    + destruct g as [wo bl pd bks st sc lv lvl spd tm rem prev].
      unfold withBoard. cbn [Game.ballSpeed Game.ball Game.score
        Game.bricksRemaining Game.windowOpen Game.paddle Game.bricks
        Game.state Game.lives Game.level Game.levelCompleteTimer
        Game.previousState andb].
      unfold totalPoints.
      destruct (Brick.destroyed (Brick.hit b));
        destruct resolved; cbn [orb length fold_right filter];
        (apply f_equal2; [apply f_equal2 | ]); try reflexivity;
        f_equal; try reflexivity; lia.
    + destruct g as [wo bl pd bks st sc lv lvl spd tm rem prev].
      unfold withBoard. cbn [andb orb]. reflexivity.
Qed.

Lemma handleBrickCollisions32_eq (g : Game.t) :
  let c := Ball.position (Game.ball g) in
  let rad := Ball.radius (Game.ball g) in
  Game32.handleBrickCollisions g =
  Game.setBricks (map (hitIfCollides32 c rad) (Game.bricks g))
    (withBoard
       (ballAfter32 c rad (Game.ballSpeed g) false (Game.bricks g) (Game.ball g))
       (Game.score g + totalPoints (filter (felled32 c rad) (Game.bricks g)))%Z
       (Game.bricksRemaining g -
        Z.of_nat (length (filter (felled32 c rad) (Game.bricks g))))%Z
       g).
Proof.
  intros c rad.
  unfold Game32.handleBrickCollisions, Ball.getPosition, Ball.getRadius.
  fold c rad. now rewrite brickLoop32_eq.
Qed.

Lemma normalOf32_near (c : sf.Vector2f) (b : Brick.t) :
  dist32 c b <= F32.round 0.0001 -> normal32 c b = sf.mkVector2f 0 (- 1).
Proof.
  intros H. unfold normal32.
  destruct (Rgt_dec (dist32 c b) (F32.round 0.0001)); [lra | reflexivity].
Qed.

Lemma normalOf32_far (c : sf.Vector2f) (b : Brick.t) :
  dist32 c b > F32.round 0.0001 ->
  normal32 c b = sf.mkVector2f (F32.round (offsetX32 c b / dist32 c b))
                               (F32.round (offsetY32 c b / dist32 c b)).
Proof.
  intros H. unfold normal32.
  destruct (Rgt_dec (dist32 c b) (F32.round 0.0001)); [reflexivity | lra].
Qed.

(** Inside the rectangle the nearest point is the centre itself. *)
Lemma insideRect32_dist (c : sf.Vector2f) (b : Brick.t) :
  insideRect32 c (Brick.getBounds b) = true -> dist32 c b = 0.
Proof.
  unfold insideRect32, dist32, distSq32, offsetX32, offsetY32, nearest32.
  cbn [sf.x sf.y].
  set (rect := Brick.getBounds b).
  destruct (Rle_dec (sf.left rect) (sf.x c)); [ | discriminate].
  destruct (Rle_dec (sf.x c) (F32.round (sf.left rect + sf.width rect)));
    [ | discriminate].
  destruct (Rle_dec (sf.top rect) (sf.y c)); [ | discriminate].
  destruct (Rle_dec (sf.y c) (F32.round (sf.top rect + sf.height rect)));
    [ | discriminate].
  intros _.
  assert (Ex : clamp (sf.x c) (sf.left rect)
                     (F32.round (sf.left rect + sf.width rect)) = sf.x c)
    by minmax.
  assert (Ey : clamp (sf.y c) (sf.top rect)
                     (F32.round (sf.top rect + sf.height rect)) = sf.y c)
    by minmax.
  rewrite Ex, Ey, !Rminus_diag, round_0, Rmult_0_l, round_0, Rplus_0_l,
    round_0, sqrt_0. apply round_0.
Qed.

(** C2, as amended.  In one call of [handleBrickCollisions], with the ball
    centre and radius read at entry, every standing brick that passes the
    test of the code takes one [hit] and every other brick is left as it
    is, each at its place in the storage; the test is that the squared
    distance from the centre to the nearest point of the rectangle is less
    than the squared radius, both as binary32 computes them, which holds
    of every standing brick whose nearest point is within the radius by
    more than a millionth of its square and of no brick whose nearest
    point is beyond the radius by more than that.  The ball
    answers to the first such brick in storage order only: it is moved
    along the normal by the penetration depth plus a half and its velocity
    becomes [v - 2 (v . n) n], each operation rounded, and is then rescaled
    by [normaliseSpeed].  The normal [n] is the vector from the nearest
    point to the centre divided by its length when that length, as
    computed, is more than [0.0001f], which is the normal the
    specification words; otherwise it is straight up, in particular when
    the centre is inside the rectangle. *)
Theorem C2_single_reflection_full_damage (g : Game.t) :
  let c := Ball.position (Game.ball g) in
  let rad := Ball.radius (Game.ball g) in
  let g' := Game32.handleBrickCollisions g in
  Game.bricks g' =
    map (fun b => if collides32 c rad b then Brick.hit b else b)
        (Game.bricks g) /\
  (forall i b,
     nth_error (Game.bricks g) i = Some b ->
     nth_error (Game.bricks g') i =
       Some (if collides32 c rad b then Brick.hit b else b)) /\
  Game.ball g' =
    match find (collides32 c rad) (Game.bricks g) with
    | Some b1 =>
        respond32 (normal32 c b1) c rad (Game.ballSpeed g) b1 (Game.ball g)
    | None => Game.ball g
    end /\
  (forall b1,
     find (collides32 c rad) (Game.bricks g) = Some b1 ->
     let n := normal32 c b1 in
     let push := F32.round (F32.round (rad - dist32 c b1) + 0.5) in
     let moved :=
       sf.mkVector2f (F32.round (sf.x c + F32.round (sf.x n * push)))
                     (F32.round (sf.y c + F32.round (sf.y n * push))) in
     Ball.position (Game.ball g') = moved /\
     Ball.velocity (Game.ball g') =
       Ball.velocity
         (Ball32.normaliseSpeed (Game.ballSpeed g)
            (Ball.mk moved (reflect32 (Ball.velocity (Game.ball g)) n)
                     (Ball.radius (Game.ball g))
                     (Ball.moving (Game.ball g))))) /\
  (forall b,
     (dist32 c b > F32.round 0.0001 ->
        normal32 c b =
          sf.mkVector2f (F32.round (offsetX32 c b / dist32 c b))
                        (F32.round (offsetY32 c b / dist32 c b)) /\
        normal32 c b = specNormal32 c b) /\
     (dist32 c b <= F32.round 0.0001 ->
        normal32 c b = sf.mkVector2f 0 (- 1)) /\
     (insideRect32 c (Brick.getBounds b) = true ->
        normal32 c b = sf.mkVector2f 0 (- 1))) /\
  (forall b,
     let p := nearest32 c (Brick.getBounds b) in
     let distSq := (sf.x c - sf.x p) * (sf.x c - sf.x p) +
                   (sf.y c - sf.y p) * (sf.y c - sf.y p) in
     (collides32 c rad b = true ->
        Brick.destroyed b = false /\
        distSq < rad * rad * (1 + / 1000000)) /\
     (Brick.destroyed b = false -> distSq < rad * rad * (1 - / 1000000) ->
        collides32 c rad b = true)).
Proof.
  intros c rad g'. subst g'. rewrite handleBrickCollisions32_eq. fold c rad.
  cbn [Game.bricks Game.ball Game.setBricks withBoard]. unfold ballAfter32.
  split; [reflexivity | ]. split.
  { intros i b H. unfold hitIfCollides32.
    rewrite nth_error_map, H. reflexivity. }
  split; [reflexivity | ]. split.
  - intros b1 Hfind. rewrite Hfind. cbv zeta.
    unfold respond32, bounced32, Ball32.normaliseSpeed.
    cbn [Ball.position Ball.velocity Ball.radius Ball.moving].
    split; [ | reflexivity].
    destruct (Rlt_dec _ (F32.round 0.0001)); reflexivity.
  - split; [ | intros b; apply collides32_band].
    intros b. pose proof guard_bounds as Hg. split; [ | split].
    + intros H. split; [now apply normalOf32_far | ].
      rewrite (normalOf32_far c b H). unfold specNormal32.
      destruct (insideRect32 c (Brick.getBounds b)) eqn:Hin; [ | reflexivity].
      rewrite (insideRect32_dist c b Hin) in H. lra.
    + apply normalOf32_near.
    + intros H. apply normalOf32_near.
      rewrite (insideRect32_dist c b H). lra.
Qed.

Lemma firstBrick_nearest32 (c : sf.Vector2f) :
  nearest32 c (Brick.getBounds firstBrick) =
  sf.mkVector2f (clamp (sf.x c) 40.5 111.5) (clamp (sf.y c) 58.5 83.5).
Proof.
  rewrite firstBrick_bounds. unfold nearest32.
  cbn [sf.left sf.top sf.width sf.height].
  round_to (42 - 1.5 + (68 + 2 * 1.5)) 111.5 223%Z (- 1)%Z.
  round_to (60 - 1.5 + (22 + 2 * 1.5)) 83.5 167%Z (- 1)%Z.
  replace (42 - 1.5) with 40.5 by lra. replace (60 - 1.5) with 58.5 by lra.
  reflexivity.
Qed.

Lemma secondBrick_nearest32 (c : sf.Vector2f) :
  nearest32 c (Brick.getBounds secondBrick) =
  sf.mkVector2f (clamp (sf.x c) 112.5 183.5) (clamp (sf.y c) 58.5 83.5).
Proof.
  unfold nearest32, secondBrick.
  cbn [Brick.getBounds Brick.Brick Brick.shape Brick.updateColor
       sf.getGlobalBounds sf.setFillColor sf.position sf.size
       sf.outlineThickness sf.x sf.y sf.left sf.top sf.width sf.height].
  round_to (114 - 1.5 + (68 + 2 * 1.5)) 183.5 367%Z (- 1)%Z.
  round_to (60 - 1.5 + (22 + 2 * 1.5)) 83.5 167%Z (- 1)%Z.
  replace (114 - 1.5) with 112.5 by lra. replace (60 - 1.5) with 58.5 by lra.
  reflexivity.
Qed.

Lemma twoBrick_first32 :
  collides32 (sf.mkVector2f 112 88) 8 firstBrick = true.
Proof.
  unfold collides32, distSq32, offsetX32, offsetY32.
  rewrite firstBrick_nearest32. cbn [sf.x sf.y].
  assert (Ex : clamp 112 40.5 111.5 = 111.5) by minmax.
  assert (Ey : clamp 88 58.5 83.5 = 83.5) by minmax.
  rewrite Ex, Ey.
  round_to (112 - 111.5) 0.5 1%Z (- 1)%Z.
  round_to (88 - 83.5) 4.5 9%Z (- 1)%Z.
  round_to (0.5 * 0.5) 0.25 1%Z (- 2)%Z.
  round_to (4.5 * 4.5) 20.25 81%Z (- 2)%Z.
  round_to (0.25 + 20.25) 20.5 41%Z (- 1)%Z.
  round_to (8 * 8) 64 64%Z 0%Z.
  rdec. reflexivity.
Qed.

Lemma twoBrick_second32 :
  collides32 (sf.mkVector2f 112 88) 8 secondBrick = true.
Proof.
  unfold collides32, distSq32, offsetX32, offsetY32.
  rewrite secondBrick_nearest32. cbn [sf.x sf.y].
  assert (Ex : clamp 112 112.5 183.5 = 112.5) by minmax.
  assert (Ey : clamp 88 58.5 83.5 = 83.5) by minmax.
  rewrite Ex, Ey.
  round_to (112 - 112.5) (- 0.5) (- 1)%Z (- 1)%Z.
  round_to (88 - 83.5) 4.5 9%Z (- 1)%Z.
  round_to (- 0.5 * - 0.5) 0.25 1%Z (- 2)%Z.
  round_to (4.5 * 4.5) 20.25 81%Z (- 2)%Z.
  round_to (0.25 + 20.25) 20.5 41%Z (- 1)%Z.
  round_to (8 * 8) 64 64%Z 0%Z.
  rdec. reflexivity.
Qed.

(** The ball under the gap between two neighbouring bricks reaches both:
    both are hit, here destroyed, and the ball answers to the first
    alone. *)
Lemma C2_witness :
  let c := Ball.position (Game.ball twoBrickGame) in
  let g' := Game32.handleBrickCollisions twoBrickGame in
  find (collides32 c 8) (Game.bricks twoBrickGame) = Some firstBrick /\
  collides32 c 8 secondBrick = true /\
  Game.bricks g' = [Brick.hit firstBrick; Brick.hit secondBrick] /\
  Forall (fun b => Brick.destroyed b = true) (Game.bricks g') /\
  Ball.velocity (Game.ball g') =
    Ball.velocity
      (Ball32.normaliseSpeed 320
         (Ball.mk (Ball.position (Game.ball g'))
                  (reflect32 (sf.mkVector2f 0 (- 320)) (normal32 c firstBrick))
                  8 true)).
Proof.
  intros c g'.
  assert (Hfind : find (collides32 c 8) (Game.bricks twoBrickGame) =
                  Some firstBrick).
  { cbn [twoBrickGame Game.bricks find]. unfold c. cbn [twoBrickGame Game.ball
      Ball.position]. now rewrite twoBrick_first32. }
  destruct (C2_single_reflection_full_damage twoBrickGame)
    as (Hbricks & _ & _ & Hfirst & _).
  fold g' in Hbricks, Hfirst.
  assert (Hb : Game.bricks g' = [Brick.hit firstBrick; Brick.hit secondBrick]).
  { rewrite Hbricks. cbn [twoBrickGame Game.bricks Game.ball Ball.position
      Ball.radius map]. now rewrite twoBrick_first32, twoBrick_second32. }
  split; [exact Hfind | ]. split; [exact twoBrick_second32 | ].
  split; [exact Hb | ]. split; [rewrite Hb; repeat constructor | ].
  destruct (Hfirst firstBrick Hfind) as [Hpos Hvel].
  cbv zeta in Hpos, Hvel. rewrite Hpos. exact Hvel.
Defined.

(** *** Where the wording of the specification fails *)

Lemma corner_misses :
  collides32 (sf.mkVector2f (244627 / 2048) (691579 / 8192)) 8 firstBrick =
  false.
Proof.
  unfold collides32, distSq32, offsetX32, offsetY32.
  rewrite firstBrick_nearest32. cbn [sf.x sf.y].
  assert (Ex : clamp (244627 / 2048) 40.5 111.5 = 111.5) by minmax.
  assert (Ey : clamp (691579 / 8192) 58.5 83.5 = 83.5) by minmax.
  rewrite Ex, Ey.
  round_to (244627 / 2048 - 111.5) (16275 / 2048) 16275%Z (- 11)%Z.
  round_to (691579 / 8192 - 83.5) (7547 / 8192) 7547%Z (- 13)%Z.
  round_near (16275 / 2048 * (16275 / 2048)) 5%Z 16554727%Z
             (16554727 / 262144).
  round_near (7547 / 8192 * (7547 / 8192)) (- 1)%Z 14239302%Z
             (7119651 / 8388608).
  round_near (16554727 / 262144 + 7119651 / 8388608) 6%Z 8388608%Z 64.
  round_to (8 * 8) 64 64%Z 0%Z.
  rdec. reflexivity.
Qed.

Lemma corner_within :
  distSq (sf.mkVector2f (244627 / 2048) (691579 / 8192)) firstBrick < 8 * 8.
Proof.
  unfold distSq, offsetX, offsetY, nearest. rewrite firstBrick_bounds.
  cbn [sf.x sf.y sf.left sf.top sf.width sf.height].
  assert (Ex : clamp (244627 / 2048) (42 - 1.5) (42 - 1.5 + (68 + 2 * 1.5)) =
               111.5) by minmax.
  assert (Ey : clamp (691579 / 8192) (60 - 1.5) (60 - 1.5 + (22 + 2 * 1.5)) =
               83.5) by minmax.
  rewrite Ex, Ey. lra.
Qed.

Lemma sliver_offsets32 :
  offsetX32 (sf.mkVector2f (1327103 / 32768) 70) firstBrick = - / 32768 /\
  offsetY32 (sf.mkVector2f (1327103 / 32768) 70) firstBrick = 0.
Proof.
  unfold offsetX32, offsetY32. rewrite firstBrick_nearest32. cbn [sf.x sf.y].
  assert (Ex : clamp (1327103 / 32768) 40.5 111.5 = 40.5) by minmax.
  assert (Ey : clamp 70 58.5 83.5 = 70) by minmax.
  rewrite Ex, Ey. split.
  - round_to (1327103 / 32768 - 40.5) (- / 32768) (- 1)%Z (- 15)%Z.
    reflexivity.
  - rewrite Rminus_diag. apply round_0.
Qed.

Lemma sliver_distSq32 :
  distSq32 (sf.mkVector2f (1327103 / 32768) 70) firstBrick = / 1073741824.
Proof.
  unfold distSq32. destruct sliver_offsets32 as [-> ->].
  rewrite Rmult_0_l, round_0.
  round_to (- / 32768 * - / 32768) (/ 1073741824) 1%Z (- 30)%Z.
  round_to (/ 1073741824 + 0) (/ 1073741824) 1%Z (- 30)%Z.
  reflexivity.
Qed.

Lemma sliver_dist32 :
  dist32 (sf.mkVector2f (1327103 / 32768) 70) firstBrick = / 32768.
Proof.
  unfold dist32. rewrite sliver_distSq32.
  replace (/ 1073741824) with (/ 32768 * / 32768) by lra.
  rewrite sqrt_square by lra.
  round_to (/ 32768) (/ 32768) 1%Z (- 15)%Z. reflexivity.
Qed.

Lemma sliver_collides32 :
  collides32 (sf.mkVector2f (1327103 / 32768) 70) 8 firstBrick = true.
Proof.
  unfold collides32. rewrite sliver_distSq32.
  round_to (8 * 8) 64 64%Z 0%Z. rdec. reflexivity.
Qed.

Lemma sliver_outside32 :
  insideRect32 (sf.mkVector2f (1327103 / 32768) 70)
               (Brick.getBounds firstBrick) = false.
Proof.
  rewrite firstBrick_bounds. unfold insideRect32. cbn [sf.x sf.y sf.left sf.top
    sf.width sf.height].
  destruct (Rle_dec (42 - 1.5) (1327103 / 32768)); [lra | reflexivity].
Qed.

Lemma sliver_specNormal32 :
  specNormal32 (sf.mkVector2f (1327103 / 32768) 70) firstBrick =
  sf.mkVector2f (- 1) 0.
Proof.
  unfold specNormal32. rewrite sliver_outside32, sliver_dist32.
  destruct sliver_offsets32 as [-> ->].
  round_to (- / 32768 / / 32768) (- 1) (- 1)%Z 0%Z.
  round_to (0 / / 32768) 0 0%Z 0%Z. reflexivity.
Qed.

Lemma sliver_reflect_spec :
  reflect32 (sf.mkVector2f 0 320) (sf.mkVector2f (- 1) 0) =
  sf.mkVector2f 0 320.
Proof.
  unfold reflect32. cbn [sf.x sf.y].
  repeat rewrite ?Rmult_0_l, ?Rmult_0_r, ?Rplus_0_l, ?Rminus_0_r, ?round_0.
  round_to 320 320 320%Z 0%Z. reflexivity.
Qed.

Lemma sliver_reflect_code :
  reflect32 (sf.mkVector2f 0 320) (sf.mkVector2f 0 (- 1)) =
  sf.mkVector2f 0 (- 320).
Proof.
  unfold reflect32. cbn [sf.x sf.y].
  rewrite Rmult_0_l, round_0, Rplus_0_l.
  round_to (320 * - 1) (- 320) (- 320)%Z 0%Z.
  round_to (- 320) (- 320) (- 320)%Z 0%Z.
  round_to (2 * - 320) (- 640) (- 640)%Z 0%Z.
  rewrite Rmult_0_r, round_0, Rminus_0_r, round_0.
  round_to (- 640 * - 1) 640 640%Z 0%Z.
  round_to (320 - 640) (- 320) (- 320)%Z 0%Z. reflexivity.
Qed.

Lemma straight_up_normalised (pos : sf.Vector2f) :
  Ball.velocity
    (Ball32.normaliseSpeed 320
       (Ball.mk pos (sf.mkVector2f 0 (- 320)) 8 true)) =
  sf.mkVector2f 0 (- 320).
Proof.
  pose proof guard_bounds as Hg.
  unfold Ball32.normaliseSpeed, Ball32.getSpeed.
  cbn [Ball.velocity Ball.position Ball.radius Ball.moving sf.x sf.y].
  rewrite Rmult_0_l, round_0, Rplus_0_l.
  round_to (- 320 * - 320) 102400 102400%Z 0%Z.
  round_to 102400 102400 102400%Z 0%Z.
  replace 102400 with (320 * 320) by lra. rewrite sqrt_square by lra.
  round_to 320 320 320%Z 0%Z.
  destruct (Rlt_dec 320 (F32.round 0.0001)); [lra | ].
  cbn [Ball.velocity].
  round_to (0 / 320) 0 0%Z 0%Z. rewrite Rmult_0_l, round_0.
  round_to (- 320 / 320) (- 1) (- 1)%Z 0%Z.
  round_to (- 1 * 320) (- 320) (- 320)%Z 0%Z.
  reflexivity.
Qed.

Lemma sliver_velocity32 :
  Ball.velocity (Game.ball (Game32.handleBrickCollisions sliverGame)) =
  sf.mkVector2f 0 (- 320).
Proof.
  pose proof guard_bounds as Hg.
  rewrite handleBrickCollisions32_eq.
  cbn [sliverGame Game.ball Game.bricks Game.setBricks withBoard Ball.position
       Ball.radius Game.ballSpeed]. unfold ballAfter32. cbn [find].
  rewrite sliver_collides32.
  rewrite normalOf32_near by (rewrite sliver_dist32; lra).
  unfold respond32, bounced32.
  cbn [Ball.velocity Ball.radius Ball.moving].
  rewrite sliver_reflect_code. apply straight_up_normalised.
Qed.

(** C2 as first worded fails in two places.  The lower right corner of
    [firstBrick] is strictly within the radius of the ball of
    [cornerGame], yet the sum of the squares, as binary32 rounds it, is
    the square of the radius and the brick takes no hit.  The ball centre
    of [sliverGame] is outside the rectangle of the brick it reaches, to
    its left, closer than [0.0001f]: the velocity after the call is the
    reflection off a normal that points straight up, (0, -320), and not
    off the vector from the nearest point to the centre, which leaves
    (0, 320). *)
Lemma C2_counterexample :
  (Brick.destroyed firstBrick = false /\
   distSq (Ball.position (Game.ball cornerGame)) firstBrick <
     Ball.radius (Game.ball cornerGame) * Ball.radius (Game.ball cornerGame) /\
   Game.bricks (Game32.handleBrickCollisions cornerGame) = [firstBrick]) /\
  (let c := Ball.position (Game.ball sliverGame) in
   let v := Ball.velocity (Game.ball sliverGame) in
   find (collides32 c (Ball.radius (Game.ball sliverGame)))
        (Game.bricks sliverGame) = Some firstBrick /\
   insideRect32 c (Brick.getBounds firstBrick) = false /\
   reflect32 v (specNormal32 c firstBrick) = sf.mkVector2f 0 320 /\
   Ball.velocity (Game.ball (Game32.handleBrickCollisions sliverGame)) =
     sf.mkVector2f 0 (- 320) /\
   Ball.velocity (Game.ball (Game32.handleBrickCollisions sliverGame)) <>
     reflect32 v (specNormal32 c firstBrick)).
Proof.
  split.
  - split; [reflexivity | ]. split; [exact corner_within | ].
    rewrite handleBrickCollisions32_eq.
    cbn [cornerGame Game.ball Game.bricks Game.setBricks withBoard
         Ball.position Ball.radius map].
    unfold hitIfCollides32. now rewrite corner_misses.
  - cbv zeta. cbn [sliverGame Game.ball Game.bricks Ball.position Ball.radius
      Ball.velocity find].
    assert (Hr : reflect32 (sf.mkVector2f 0 320)
                   (specNormal32 (sf.mkVector2f (1327103 / 32768) 70)
                                 firstBrick) =
                 sf.mkVector2f 0 320).
    { rewrite sliver_specNormal32. exact sliver_reflect_spec. }
    split; [now rewrite sliver_collides32 | ].
    split; [exact sliver_outside32 | ]. split; [exact Hr | ].
    split; [exact sliver_velocity32 | ].
    rewrite sliver_velocity32, Hr. intros E.
    apply (f_equal sf.y) in E. cbn in E. lra.
Qed.

(** * Further properties of the code *)

(** ** The speed of the ball in binary32 *)

(** The speed binary32 computes against the length of the velocity. *)
Lemma getSpeed32_bnd (b : Ball.t) :
  bnd ((1 - u32) * (1 - u32)) ((1 + u32) * (1 + u32))
      (Ball32.getSpeed b) (Ball.getSpeed b).
Proof.
  pose proof u32_small as Hu.
  unfold Ball32.getSpeed, Ball.getSpeed. cbv zeta.
  set (vx := sf.x (Ball.velocity b)). set (vy := sf.y (Ball.velocity b)).
  clearbody vx vy.
  assert (Hx : 0 <= vx * vx) by nra. assert (Hy : 0 <= vy * vy) by nra.
  pose proof (bnd_round _ Hx) as Bx. pose proof (bnd_round _ Hy) as By.
  pose proof (bnd_add _ _ _ _ _ _ Bx By) as Bs.
  assert (Hs : 0 <= F32.round (vx * vx) + F32.round (vy * vy)).
  { destruct Bs as [Bs _]. nra. }
  pose proof (bnd_round _ Hs) as Br.
  assert (Hq : 0 <= vx * vx + vy * vy) by lra.
  assert (B2 : bnd ((1 - u32) * (1 - u32)) ((1 + u32) * (1 + u32))
                   (F32.round (F32.round (vx * vx) + F32.round (vy * vy)))
                   (vx * vx + vy * vy)).
  { eapply bnd_trans; [exact Hq | | | | exact Bs | exact Br]; lra. }
  apply bnd_sqrt in B2; [ | lra | lra | lra].
  assert (H0 : 0 <= sqrt (F32.round (F32.round (vx * vx) + F32.round (vy * vy))))
    by apply sqrt_pos.
  pose proof (bnd_round _ H0) as B3.
  eapply bnd_trans; [apply sqrt_pos | | | | exact B2 | exact B3]; lra.
Qed.

Lemma getSpeed32_near (b : Ball.t) :
  bnd (1 - / 8000000) (1 + / 8000000) (Ball32.getSpeed b) (Ball.getSpeed b).
Proof.
  pose proof u32_small as Hu.
  apply (bnd_weaken _ _ _ _ _ _ (sqrt_pos _)) with (3 := getSpeed32_bnd b);
    unfold u32; lra.
Qed.

(** A component of the velocity after the rescaling, squared. *)
Lemma rescaled_sq (v cs s : R) :
  bnd ((1 - u32) * (1 - u32) * ((1 - u32) * (1 - u32)))
      ((1 + u32) * (1 + u32) * ((1 + u32) * (1 + u32)))
      (F32.round (F32.round (v / cs) * s) * F32.round (F32.round (v / cs) * s))
      (v / cs * (v / cs) * (s * s)).
Proof.
  pose proof u32_small as Hu.
  set (r := F32.round (v / cs)).
  pose proof (bnd_round_sq (r * s)) as B2.
  pose proof (bnd_round_sq (v / cs)) as B1. fold r in B1.
  apply (bnd_scale _ _ _ _ (s * s)) in B1; [ | nra].
  replace (r * r * (s * s)) with (r * s * (r * s)) in B1 by ring.
  eapply bnd_trans; [ | | | | exact B1 | exact B2]; nra.
Qed.

Lemma normaliseSpeed32_velocity (s : R) (b : Ball.t) :
  F32.round 0.0001 <= Ball32.getSpeed b ->
  Ball.velocity (Ball32.normaliseSpeed s b) =
  sf.mkVector2f
    (F32.round (F32.round (sf.x (Ball.velocity b) / Ball32.getSpeed b) * s))
    (F32.round (F32.round (sf.y (Ball.velocity b) / Ball32.getSpeed b) * s)).
Proof.
  intros H. unfold Ball32.normaliseSpeed.
  destruct (Rlt_dec _ _); [lra | reflexivity].
Qed.

(** The length of the velocity after [normaliseSpeed], against the
    target. *)
Lemma normaliseSpeed32_length (s : R) (b : Ball.t) :
  0 <= s -> F32.round 0.0001 <= Ball32.getSpeed b ->
  bnd (1 - / 3000000) (1 + / 3000000)
      (Ball.getSpeed (Ball32.normaliseSpeed s b)) s.
Proof.
  intros Hs Hg. pose proof u32_small as Hu. pose proof guard_bounds as Hgb.
  pose proof (getSpeed32_near b) as [Hc1 Hc2].
  pose proof (getSpeed_nonneg b) as HN.
  set (cs := Ball32.getSpeed b) in *. set (N := Ball.getSpeed b) in *.
  assert (Hcs : 0 < cs) by lra.
  assert (HNpos : 0 < N) by nra.
  unfold Ball.getSpeed at 1. rewrite (normaliseSpeed32_velocity s b Hg).
  cbn [sf.x sf.y]. fold cs.
  set (vx := sf.x (Ball.velocity b)). set (vy := sf.y (Ball.velocity b)).
  assert (HNN : N * N = vx * vx + vy * vy) by apply getSpeed_sq.
  pose proof (rescaled_sq vx cs s) as Bx.
  pose proof (rescaled_sq vy cs s) as By.
  pose proof (bnd_add _ _ _ _ _ _ Bx By) as Bs.
  replace (vx / cs * (vx / cs) * (s * s) + vy / cs * (vy / cs) * (s * s))
    with (N * s / cs * (N * s / cs)) in Bs.
  2:{ unfold Rdiv. 
      replace (N * s * / cs * (N * s * / cs))
        with (N * N * (s * / cs * (s * / cs))) by ring.
      rewrite HNN. ring. }
  assert (Hq : 0 <= N * s / cs).
  { apply Rmult_le_pos; [nra | ]. left. now apply Rinv_0_lt_compat. }
  apply bnd_sqrt in Bs; [ | nra | unfold u32; nra | unfold u32; nra].
  rewrite (sqrt_square _ Hq) in Bs.
  assert (Bq : bnd (1 - / 8000000) (1 + / 7000000) (N * s / cs) s).
  { unfold bnd. split.
    - apply Rmult_le_reg_r with cs; [exact Hcs | ].
      replace (N * s / cs * cs) with (N * s) by (field; lra). nra.
    - apply Rmult_le_reg_r with cs; [exact Hcs | ].
      replace (N * s / cs * cs) with (N * s) by (field; lra). nra. }
  apply (bnd_weaken ((1 - / 8000000) * ((1 - u32) * (1 - u32)))
                    ((1 + / 7000000) * ((1 + u32) * (1 + u32))));
    [exact Hs | unfold u32; lra | unfold u32; lra | ].
  eapply bnd_trans; [exact Hs | | | | exact Bq | exact Bs]; unfold u32; lra.
Qed.

(** X3/C1 core: the speed binary32 computes after [normaliseSpeed]. *)
Lemma normaliseSpeed32_speed (s : R) (b : Ball.t) :
  0 <= s -> F32.round 0.0001 <= Ball32.getSpeed b ->
  Rabs (Ball32.getSpeed (Ball32.normaliseSpeed s b) - s) <= s / 2000000.
Proof.
  intros Hs Hg.
  pose proof (normaliseSpeed32_length s b Hs Hg) as B1.
  pose proof (getSpeed32_near (Ball32.normaliseSpeed s b)) as B2.
  assert (B : bnd ((1 - / 3000000) * (1 - / 8000000))
                  ((1 + / 3000000) * (1 + / 8000000))
                  (Ball32.getSpeed (Ball32.normaliseSpeed s b)) s).
  { eapply bnd_trans; [exact Hs | | | | exact B1 | exact B2]; lra. }
  destruct B as [Blo Bhi]. apply Rabs_le. lra.
Qed.

(** *** Absolute errors, in units of a scale [V] *)

Lemma round_err (x : R) : Rabs (F32.round x - x) <= u32 * Rabs x.
Proof. apply round_rel. Qed.

Lemma approx_exact (B V x : R) : Rabs x <= B * V -> approx 0 B V x x.
Proof.
  intros H. split; [ | exact H].
  rewrite Rminus_diag, Rabs_R0. lra.
Qed.

Lemma approx_round (E B V x y : R) :
  approx E B V x y -> approx (E + u32 * (B + E)) B V (F32.round x) y.
Proof.
  intros [He Hb]. split; [ | exact Hb].
  pose proof (round_rel x) as Hr. pose proof u32_small as Hu.
  assert (Hx : Rabs x <= (B + E) * V).
  { replace x with (y + (x - y)) by ring.
    eapply Rle_trans; [apply Rabs_triang | lra]. }
  replace (F32.round x - y) with ((F32.round x - x) + (x - y)) by ring.
  eapply Rle_trans; [apply Rabs_triang | ]. nra.
Qed.

Lemma approx_add (E1 B1 E2 B2 V x1 y1 x2 y2 : R) :
  approx E1 B1 V x1 y1 -> approx E2 B2 V x2 y2 ->
  approx (E1 + E2) (B1 + B2) V (x1 + x2) (y1 + y2).
Proof.
  intros [He1 Hb1] [He2 Hb2]. split.
  - replace (x1 + x2 - (y1 + y2)) with ((x1 - y1) + (x2 - y2)) by ring.
    eapply Rle_trans; [apply Rabs_triang | lra].
  - eapply Rle_trans; [apply Rabs_triang | lra].
Qed.

Lemma approx_sub (E1 B1 E2 B2 V x1 y1 x2 y2 : R) :
  approx E1 B1 V x1 y1 -> approx E2 B2 V x2 y2 ->
  approx (E1 + E2) (B1 + B2) V (x1 - x2) (y1 - y2).
Proof.
  intros [He1 Hb1] [He2 Hb2]. split.
  - replace (x1 - x2 - (y1 - y2)) with ((x1 - y1) + - (x2 - y2)) by ring.
    eapply Rle_trans; [apply Rabs_triang | ]. rewrite Rabs_Ropp. lra.
  - unfold Rminus at 1.
    eapply Rle_trans; [apply Rabs_triang | ]. rewrite Rabs_Ropp. lra.
Qed.

Lemma approx_scale (E B V x y n c : R) :
  Rabs n <= c -> approx E B V x y -> approx (E * c) (B * c) V (x * n) (y * n).
Proof.
  intros Hn [He Hb].
  pose proof (Rabs_pos n) as Hn0. pose proof (Rabs_pos (x - y)) as H1.
  pose proof (Rabs_pos y) as H2. split.
  - replace (x * n - y * n) with ((x - y) * n) by ring.
    rewrite Rabs_mult.
    apply Rle_trans with (E * V * c); [ | lra].
    apply Rmult_le_compat; lra.
  - rewrite Rabs_mult.
    apply Rle_trans with (B * V * c); [ | lra].
    apply Rmult_le_compat; lra.
Qed.

Lemma approx_double (E B V x y : R) :
  approx E B V x y -> approx (2 * E) (2 * B) V (2 * x) (2 * y).
Proof.
  intros [He Hb]. split.
  - replace (2 * x - 2 * y) with (2 * (x - y)) by ring.
    rewrite Rabs_mult, (Rabs_pos_eq 2) by lra. lra.
  - rewrite Rabs_mult, (Rabs_pos_eq 2) by lra. lra.
Qed.

Lemma approx_weaken (E B E' B' V x y : R) :
  0 <= V -> E <= E' -> B <= B' -> approx E B V x y -> approx E' B' V x y.
Proof. intros HV HE HB [He Hb]. split; nra. Qed.

(** One component of [reflect32] against the exact reflection about the
    same vector. *)
Lemma reflect32_component (vx vy nx ny w m V : R) :
  0 <= V -> Rabs vx <= V -> Rabs vy <= V -> Rabs w <= V ->
  Rabs nx <= 1.001 -> Rabs ny <= 1.001 -> Rabs m <= 1.001 ->
  let dot := F32.round (F32.round (vx * nx) + F32.round (vy * ny)) in
  Rabs (F32.round (w - F32.round (F32.round (2 * dot) * m)) -
        (w - 2 * (vx * nx + vy * ny) * m)) <= / 100000 * V.
Proof.
  intros HV Hvx Hvy Hw Hnx Hny Hm dot. pose proof u32_small as Hu.
  assert (A0x : approx 0 1 V vx vx) by (apply approx_exact; lra).
  assert (A0y : approx 0 1 V vy vy) by (apply approx_exact; lra).
  assert (A0w : approx 0 1 V w w) by (apply approx_exact; lra).
  pose proof (approx_round _ _ _ _ _ (approx_scale _ _ _ _ _ _ _ Hnx A0x)) as A1.
  pose proof (approx_round _ _ _ _ _ (approx_scale _ _ _ _ _ _ _ Hny A0y)) as A2.
  pose proof (approx_round _ _ _ _ _ (approx_add _ _ _ _ _ _ _ _ _ A1 A2)) as A3.
  fold dot in A3.
  pose proof (approx_round _ _ _ _ _ (approx_double _ _ _ _ _ A3)) as A4.
  pose proof (approx_round _ _ _ _ _ (approx_scale _ _ _ _ _ _ _ Hm A4)) as A5.
  pose proof (approx_round _ _ _ _ _ (approx_sub _ _ _ _ _ _ _ _ _ A0w A5)) as A6.
  destruct A6 as [A6 _].
  eapply Rle_trans; [exact A6 | ].
  apply Rmult_le_compat_r; [exact HV | ]. unfold u32. lra.
Qed.

(** The length binary32 computes for a vector, against its length. *)
Lemma length32_near (x y : R) :
  bnd (1 - / 8000000) (1 + / 8000000)
      (F32.round (sqrt (F32.round (F32.round (x * x) + F32.round (y * y)))))
      (sqrt (x * x + y * y)).
Proof.
  exact (getSpeed32_near (Ball.mk (sf.mkVector2f 0 0) (sf.mkVector2f x y) 0 false)).
Qed.

Lemma sq_abs_le (x c : R) : 0 <= c -> x * x <= c * c -> Rabs x <= c.
Proof.
  intros Hc H. apply Rabs_le. split; nra.
Qed.

(** The normal of the response is a unit vector up to rounding. *)
Lemma normal32_unit (c : sf.Vector2f) (b : Brick.t) :
  let n := normal32 c b in
  1 - / 1000000 <= sf.x n * sf.x n + sf.y n * sf.y n <= 1 + / 1000000.
Proof.
  unfold normal32. destruct (Rgt_dec (dist32 c b) (F32.round 0.0001)) as [Hfar | _];
    cbn [sf.x sf.y]; [ | lra].
  pose proof guard_bounds as Hg. pose proof u32_small as Hu.
  set (dx := offsetX32 c b) in *. set (dy := offsetY32 c b) in *.
  pose proof (length32_near dx dy) as [Hd1 Hd2].
  change (F32.round (sqrt (F32.round (F32.round (dx * dx) + F32.round (dy * dy)))))
    with (dist32 c b) in Hd1, Hd2.
  set (d := dist32 c b) in *. set (D := sqrt (dx * dx + dy * dy)) in *.
  assert (HDD : D * D = dx * dx + dy * dy).
  { unfold D. apply sqrt_sqrt. nra. }
  assert (Hd : 0 < d) by lra.
  assert (HD : 0 < D) by nra.
  pose proof (bnd_round_sq (dx / d)) as Bx.
  pose proof (bnd_round_sq (dy / d)) as By.
  pose proof (bnd_add _ _ _ _ _ _ Bx By) as [Bs1 Bs2].
  set (S := F32.round (dx / d) * F32.round (dx / d) +
            F32.round (dy / d) * F32.round (dy / d)) in *.
  set (Q := dx / d * (dx / d) + dy / d * (dy / d)) in *.
  assert (HQ : Q * (d * d) = D * D).
  { unfold Q. rewrite HDD. field. lra. }
  assert (HQ0 : 0 <= Q).
  { unfold Q. nra. }
  assert (Hdd1 : D * D * ((1 - / 8000000) * (1 - / 8000000)) <= d * d) by nra.
  assert (Hdd2 : d * d <= D * D * ((1 + / 8000000) * (1 + / 8000000))) by nra.
  assert (HDD0 : 0 < D * D) by nra.
  assert (HQlo : 1 - / 3000000 <= Q).
  { destruct (Rle_dec (1 - / 3000000) Q) as [ | Hn]; [assumption | exfalso].
    assert (Q * (d * d) <= (1 - / 3000000) * (d * d)) by nra.
    nra. }
  assert (HQhi : Q <= 1 + / 3000000).
  { destruct (Rle_dec Q (1 + / 3000000)) as [ | Hn]; [assumption | exfalso].
    assert ((1 + / 3000000) * (d * d) <= Q * (d * d)) by nra.
    nra. }
  unfold u32 in *. split; nra.
Qed.

Lemma cauchy_schwarz (vx vy nx ny : R) :
  (vx * nx + vy * ny) * (vx * nx + vy * ny) <=
  (vx * vx + vy * vy) * (nx * nx + ny * ny).
Proof.
  pose proof (Rle_0_sqr (vx * ny - vy * nx)) as H. unfold Rsqr in H.
  lra.
Qed.

(** The reflection about a vector that is nearly a unit vector keeps at
    least half of the length. *)
Lemma reflect32_length (v n : sf.Vector2f) :
  1 - / 1000000 <= sf.x n * sf.x n + sf.y n * sf.y n <= 1 + / 1000000 ->
  let r := reflect32 v n in
  / 2 * sqrt (sf.x v * sf.x v + sf.y v * sf.y v) <=
  sqrt (sf.x r * sf.x r + sf.y r * sf.y r).
Proof.
  destruct v as [vx vy], n as [nx ny]. cbn [sf.x sf.y]. intros Hn.
  set (V := sqrt (vx * vx + vy * vy)).
  assert (HVV : V * V = vx * vx + vy * vy) by (apply sqrt_sqrt; nra).
  assert (HV : 0 <= V) by apply sqrt_pos.
  assert (Hvx : Rabs vx <= V) by (apply sq_abs_le; nra).
  assert (Hvy : Rabs vy <= V) by (apply sq_abs_le; nra).
  assert (Hnx : Rabs nx <= 1.001) by (apply sq_abs_le; nra).
  assert (Hny : Rabs ny <= 1.001) by (apply sq_abs_le; nra).
  pose proof (reflect32_component vx vy nx ny vx nx V HV Hvx Hvy Hvx Hnx Hny Hnx)
    as Hx.
  pose proof (reflect32_component vx vy nx ny vy ny V HV Hvx Hvy Hvy Hnx Hny Hny)
    as Hy.
  cbv zeta in Hx, Hy. unfold reflect32. cbn [sf.x sf.y].
  set (dot := F32.round (F32.round (vx * nx) + F32.round (vy * ny))) in *.
  set (rx := F32.round (vx - F32.round (F32.round (2 * dot) * nx))) in *.
  set (ry := F32.round (vy - F32.round (F32.round (2 * dot) * ny))) in *.
  set (d := vx * nx + vy * ny) in *.
  set (sx := vx - 2 * d * nx) in *. set (sy := vy - 2 * d * ny) in *.
  apply Rabs_bound in Hx, Hy.
  pose proof (cauchy_schwarz vx vy nx ny) as Hcs. fold d in Hcs.
  assert (Hs : sx * sx + sy * sy =
               V * V + 4 * (d * d) * (nx * nx + ny * ny - 1)).
  { unfold sx, sy. rewrite HVV. unfold d. ring. }
  clearbody rx ry sx sy d dot.
  assert (Hdd : 0 <= d * d) by nra.
  assert (Hdd2 : d * d <= V * V * (1 + / 1000000)) by nra.
  assert (Hs2 : V * V * (1 - / 100000) <= sx * sx + sy * sy).
  { rewrite Hs.
    assert (- (d * d) * / 1000000 <= d * d * (nx * nx + ny * ny - 1)) by nra.
    nra. }
  assert (Hex : (rx - sx) * (rx - sx) <= / 100000 * V * (/ 100000 * V)) by nra.
  assert (Hey : (ry - sy) * (ry - sy) <= / 100000 * V * (/ 100000 * V)) by nra.
  assert (Hrx : sx * sx / 2 - (rx - sx) * (rx - sx) <= rx * rx).
  { pose proof (Rle_0_sqr (sx + 2 * (rx - sx))) as T. unfold Rsqr in T. lra. }
  assert (Hry : sy * sy / 2 - (ry - sy) * (ry - sy) <= ry * ry).
  { pose proof (Rle_0_sqr (sy + 2 * (ry - sy))) as T. unfold Rsqr in T. lra. }
  assert (Hfin : / 2 * V * (/ 2 * V) <= rx * rx + ry * ry) by nra.
  rewrite <- (sqrt_square (/ 2 * V)) by lra.
  apply sqrt_le_1_alt. exact Hfin.
Qed.

Lemma handlePaddleCollision32_eq (sinf cosf : R -> R) (g : Game.t) :
  Game32.handlePaddleCollision sinf cosf g =
  if paddleHit32 g then Game.setBall (deflected32 sinf cosf g) g else g.
Proof.
  unfold Game32.handlePaddleCollision, paddleHit32, Ball.getVelocity,
    Ball.getPosition, Ball.getRadius.
  destruct (Rle_dec (sf.y (Ball.velocity (Game.ball g))) 0) as [Hle | Hgt];
    destruct (Rgt_dec (sf.y (Ball.velocity (Game.ball g))) 0) as [Hgt' | Hle'];
    try lra; cbn [andb]; [reflexivity | ].
  fold (expandedBounds32 g).
  destruct (Game32.contains (expandedBounds32 g) (Ball.position (Game.ball g)));
    cbn [negb]; [ | reflexivity].
  reflexivity.
Qed.

(** The walls. *)
Lemma handleWallCollisions32_speed (g : Game.t) :
  let g' := Game32.handleWallCollisions g in
  Game.ballSpeed g' = Game.ballSpeed g /\
  (Ball.moving (Game.ball g') = true ->
   Ball.moving (Game.ball g) = true /\
   Rabs (sf.x (Ball.velocity (Game.ball g'))) =
     Rabs (sf.x (Ball.velocity (Game.ball g))) /\
   Rabs (sf.y (Ball.velocity (Game.ball g'))) =
     Rabs (sf.y (Ball.velocity (Game.ball g))) /\
   Ball32.getSpeed (Game.ball g') = Ball32.getSpeed (Game.ball g) /\
   Ball.getSpeed (Game.ball g') = Ball.getSpeed (Game.ball g)).
Proof.
  cbv zeta. unfold Game32.handleWallCollisions, Game32.resetBallOnPaddle,
    Ball.getPosition, Ball.getRadius, Ball.getVelocity.
  pose proof (Rabs_sq (sf.x (Ball.velocity (Game.ball g)))) as Hx.
  pose proof (Rabs_sq (sf.y (Ball.velocity (Game.ball g)))) as Hy.
  assert (Hx' : - Rabs (sf.x (Ball.velocity (Game.ball g))) *
                - Rabs (sf.x (Ball.velocity (Game.ball g))) =
                sf.x (Ball.velocity (Game.ball g)) *
                sf.x (Ball.velocity (Game.ball g))) by lra.
  split_walls; try destruct (Game.lives _ <=? 0)%Z; cbn;
    (split; [reflexivity | ]); intros Hm; try discriminate;
    (split; [exact Hm | ]);
    rewrite ?Rabs_Ropp, ?Rabs_Rabsolu;
    (split; [reflexivity | ]); (split; [reflexivity | ]);
    unfold Ball32.getSpeed, Ball.getSpeed; cbn;
    rewrite ?Hx', ?Hx, ?Hy; split; reflexivity.
Qed.

Lemma speedOk32_floor (g : Game.t) :
  speedOk32 g -> Ball.moving (Game.ball g) = true ->
  0.99 <= Ball32.getSpeed (Game.ball g) /\ 0.99 <= Ball.getSpeed (Game.ball g).
Proof.
  intros [[Hs1 Hs2] Hm] Hmov. specialize (Hm Hmov). apply Rabs_bound in Hm.
  pose proof (getSpeed32_near (Game.ball g)) as [H1 H2].
  pose proof (getSpeed_nonneg (Game.ball g)) as H0.
  split; [lra | nra].
Qed.

Lemma getSpeed_ge_y (b : Ball.t) :
  Rabs (sf.y (Ball.velocity b)) <= Ball.getSpeed b.
Proof.
  unfold Ball.getSpeed. rewrite <- sqrt_Rsqr_abs. apply sqrt_le_1_alt.
  unfold Rsqr. nra.
Qed.

Lemma tolerance_of_bnd (s x : R) :
  0 <= s -> bnd (1 - / 3000000) (1 + / 3000000) x s ->
  Rabs (x - s) <= s / 3000000.
Proof. intros Hs [H1 H2]. apply Rabs_le. lra. Qed.

(** The brick response, guard passed. *)
Lemma respond32_speed (n c : sf.Vector2f) (rad speed : R) (b : Brick.t)
      (ball : Ball.t) :
  1 - / 1000000 <= sf.x n * sf.x n + sf.y n * sf.y n <= 1 + / 1000000 ->
  0 <= speed -> 0.001 <= Ball.getSpeed ball ->
  let ball' := respond32 n c rad speed b ball in
  Rabs (Ball32.getSpeed ball' - speed) <= speed / 2000000 /\
  Rabs (Ball.getSpeed ball' - speed) <= speed / 3000000.
Proof.
  intros Hn Hs Hv ball'. subst ball'. unfold respond32.
  pose proof guard_bounds as Hgb.
  pose proof (reflect32_length (Ball.velocity ball) n Hn) as Hr. cbv zeta in Hr.
  pose proof (getSpeed32_near (bounced32 n c rad b ball)) as [Hb1 _].
  assert (Hg : F32.round 0.0001 <= Ball32.getSpeed (bounced32 n c rad b ball)).
  { unfold Ball.getSpeed in Hb1 at 1.
    cbn [bounced32 Ball.velocity] in Hb1. unfold Ball.getSpeed in Hv.
    set (N := sqrt _) in Hr at 2. fold N in Hb1. clearbody N.
    set (V := sqrt _) in Hr, Hv. clearbody V. lra. }
  split; [now apply normaliseSpeed32_speed | ].
  apply tolerance_of_bnd; [exact Hs | ]. now apply normaliseSpeed32_length.
Qed.

Lemma MAX_ANGLE_RAD32_bounds : 0 < Game32.MAX_ANGLE_RAD < 1.3091.
Proof.
  unfold Game32.MAX_ANGLE_RAD.
  pose proof (round_rel 3.14159265) as H1.
  rewrite (Rabs_pos_eq 3.14159265) in H1 by lra. apply Rabs_bound in H1.
  set (r1 := F32.round 3.14159265) in *. clearbody r1. unfold u32 in H1.
  pose proof (round_rel (r1 / 180)) as H2.
  rewrite (Rabs_pos_eq (r1 / 180)) in H2 by lra. apply Rabs_bound in H2.
  set (r2 := F32.round (r1 / 180)) in *. clearbody r2. unfold u32 in H2.
  pose proof (round_rel (75 * r2)) as H3.
  rewrite (Rabs_pos_eq (75 * r2)) in H3 by lra. apply Rabs_bound in H3.
  unfold u32 in H3. lra.
Qed.

Lemma launchAngle32_bounds (g : Game.t) : Rabs (launchAngle32 g) <= 1.31.
Proof.
  unfold launchAngle32. pose proof MAX_ANGLE_RAD32_bounds as HM.
  assert (Hh : - 1 <= hitOffset32 g <= 1) by (unfold hitOffset32; minmax).
  set (h := hitOffset32 g) in *. clearbody h.
  set (M := Game32.MAX_ANGLE_RAD) in *. clearbody M.
  pose proof (round_rel (h * M)) as Hr.
  assert (Hp : Rabs (h * M) <= 1.3091).
  { rewrite Rabs_mult, (Rabs_pos_eq M) by lra.
    assert (Rabs h <= 1) by (apply Rabs_le; lra).
    pose proof (Rabs_pos h). nra. }
  unfold u32 in Hr.
  replace (F32.round (h * M)) with ((F32.round (h * M) - h * M) + h * M) by ring.
  eapply Rle_trans; [apply Rabs_triang | ]. lra.
Qed.

Lemma cos_floor (a : R) : Rabs a <= 1.31 -> 0.25 <= cos a.
Proof.
  intros Ha. pose proof PI_bounds as [Hpi1 Hpi2].
  assert (H131 : 0.25 <= cos 1.31).
  { destruct (COS 1.31) as [Hlb _]; [lra | lra | ].
    unfold cos_lb, cos_approx, cos_term, sum_f_R0 in Hlb.
    cbn [Nat.mul Nat.add pow Factorial.fact] in Hlb.
    rewrite !INR_IZR_INZ in Hlb. cbn in Hlb. lra. }
  apply Rabs_bound in Ha.
  eapply Rle_trans; [exact H131 | ].
  destruct (Rle_dec 0 a) as [Hpos | Hneg].
  - apply cos_decr_1; lra.
  - rewrite (cos_sym a). apply cos_decr_1; lra.
Qed.

(** The paddle response, guard passed. *)
Lemma deflected32_speed (sinf cosf : R -> R) (g : Game.t) :
  (forall a, Rabs (cosf a - cos a) <= 0.001) ->
  0 <= Game.ballSpeed g -> 0.001 <= Ball32.getSpeed (Game.ball g) ->
  let ball' := deflected32 sinf cosf g in
  Rabs (Ball32.getSpeed ball' - Game.ballSpeed g) <= Game.ballSpeed g / 2000000 /\
  Rabs (Ball.getSpeed ball' - Game.ballSpeed g) <= Game.ballSpeed g / 3000000.
Proof.
  intros Hcos Hs Hv ball'. subst ball'. unfold deflected32.
  pose proof guard_bounds as Hgb.
  pose proof (launchAngle32_bounds g) as Ha.
  pose proof (cos_floor _ Ha) as Hc.
  pose proof (Hcos (launchAngle32 g)) as Hcf. apply Rabs_bound in Hcf.
  pose proof (getSpeed32_near (steered32 sinf cosf g)) as [Hb1 _].
  pose proof (getSpeed_ge_y (steered32 sinf cosf g)) as Hy.
  cbn [steered32 Ball.velocity sf.y] in Hy.
  set (speed := Ball32.getSpeed (Game.ball g)) in *.
  set (cf := cosf (launchAngle32 g)) in *.
  pose proof (round_abs (- speed * cf)) as [Hr1 _].
  assert (Hx : Rabs (- speed * cf) = speed * cf).
  { rewrite Rabs_left; [ring | nra]. }
  rewrite Hx in Hr1.
  assert (Hg : F32.round 0.0001 <= Ball32.getSpeed (steered32 sinf cosf g)).
  { set (N := Ball.getSpeed (steered32 sinf cosf g)) in *. clearbody N.
    set (w := Rabs (F32.round (- speed * cf))) in *. clearbody w.
    clearbody speed cf. unfold u32 in Hr1. nra. }
  split; [now apply normaliseSpeed32_speed | ].
  apply tolerance_of_bnd; [exact Hs | ]. now apply normaliseSpeed32_length.
Qed.

Lemma handleWallCollisions32_ok (g : Game.t) :
  speedOk32 g -> speedOk32 (Game32.handleWallCollisions g).
Proof.
  intros [Hs Ht]. destruct (handleWallCollisions32_speed g) as [Es Hm].
  split; [now rewrite Es | ].
  intros Hmoving. destruct (Hm Hmoving) as (Hb & _ & _ & -> & _).
  rewrite Es. now apply Ht.
Qed.

Lemma normaliseSpeed32_moving (s : R) (b : Ball.t) :
  Ball.moving (Ball32.normaliseSpeed s b) = Ball.moving b.
Proof.
  unfold Ball32.normaliseSpeed. destruct (Rlt_dec _ _); reflexivity.
Qed.

Lemma handlePaddleCollision32_ok (sinf cosf : R -> R) (g : Game.t) :
  (forall a, Rabs (cosf a - cos a) <= 0.001) ->
  speedOk32 g -> speedOk32 (Game32.handlePaddleCollision sinf cosf g).
Proof.
  intros Hcos H. rewrite handlePaddleCollision32_eq.
  destruct (paddleHit32 g); [ | exact H].
  pose proof (speedOk32_floor g H) as Hfl. destruct H as [Hs Ht].
  split; [exact Hs | ]. cbn [Game.setBall Game.ball Game.ballSpeed].
  unfold deflected32 at 1. rewrite normaliseSpeed32_moving.
  cbn [steered32 Ball.moving]. intros Hm. destruct (Hfl Hm) as [Hf _].
  destruct (deflected32_speed sinf cosf g Hcos) as [Hd _]; lra.
Qed.

Lemma handleBrickCollisions32_ball (g : Game.t) :
  let c := Ball.position (Game.ball g) in
  let rad := Ball.radius (Game.ball g) in
  Game.ballSpeed (Game32.handleBrickCollisions g) = Game.ballSpeed g /\
  Game.ball (Game32.handleBrickCollisions g) =
    match find (collides32 c rad) (Game.bricks g) with
    | Some b1 =>
        respond32 (normal32 c b1) c rad (Game.ballSpeed g) b1 (Game.ball g)
    | None => Game.ball g
    end.
Proof.
  intros c rad. rewrite handleBrickCollisions32_eq. fold c rad.
  split; reflexivity.
Qed.

Lemma handleBrickCollisions32_ok (g : Game.t) :
  speedOk32 g -> speedOk32 (Game32.handleBrickCollisions g).
Proof.
  intros H. destruct (handleBrickCollisions32_ball g) as [Es Eb].
  pose proof (speedOk32_floor g H) as Hfl. destruct H as [Hs Ht].
  split; [now rewrite Es | ]. rewrite Es, Eb.
  destruct (find _ _) as [b1 | ]; [ | exact Ht].
  unfold respond32 at 1. rewrite normaliseSpeed32_moving.
  cbn [bounced32 Ball.moving]. intros Hm. destruct (Hfl Hm) as [_ Hf].
  destruct (respond32_speed (normal32 (Ball.position (Game.ball g)) b1)
              (Ball.position (Game.ball g)) (Ball.radius (Game.ball g))
              (Game.ballSpeed g) b1 (Game.ball g)) as [Hd _];
    [apply normal32_unit | lra | lra | ].
  cbv zeta in Hd. lra.
Qed.

Lemma resolve32_ok (sinf cosf : R -> R) :
  (forall a, Rabs (cosf a - cos a) <= 0.001) ->
  forall (rs : list Resolver) (g : Game.t),
    speedOk32 g -> speedOk32 (fold_left (resolve32 sinf cosf) rs g).
Proof.
  intros Hcos. induction rs as [| r rest IH]; intros g H; [exact H | ].
  cbn [fold_left]. apply IH. destruct r; cbn [resolve32].
  - now apply handleWallCollisions32_ok.
  - now apply handlePaddleCollision32_ok.
  - now apply handleBrickCollisions32_ok.
Qed.

Lemma cosRounded_close (a : R) : Rabs (cosRounded a - cos a) <= 0.001.
Proof.
  unfold cosRounded. pose proof (round_rel (cos a)) as H.
  pose proof (COS_bound a) as [Hc1 Hc2].
  assert (Rabs (cos a) <= 1) by (apply Rabs_le; lra).
  unfold u32 in H. lra.
Qed.

(** C1. Speed invariance, in binary32.  Let [cosf] be within 0.001 of the
    cosine, and let the game have a target speed between 1 and 2000 (the
    levels use 320 to 600) and a ball that, if in motion, has a speed
    within 0.001 of the target, the speed being what [getSpeed] computes.
    Then the same holds after [handleWallCollisions], after
    [handlePaddleCollision] and after [handleBrickCollisions], and so
    after any sequence of them; none of them changes the target.  The walls
    change no more than the sign of a velocity component: both
    magnitudes, and the speed, are exactly as before for a ball that stays
    in motion.  A paddle response and a brick response end with
    [normaliseSpeed] at the target speed [s], whose guard is passed, and
    leave the computed speed within [s / 2000000] of [s] and the length of
    the velocity within [s / 3000000] of it: the speed is close to the
    target, not equal to it. *)
Theorem C1_speed_invariance (sinf cosf : R -> R) (g : Game.t) :
  (forall a, Rabs (cosf a - cos a) <= 0.001) ->
  speedOk32 g ->
  let c := Ball.position (Game.ball g) in
  let rad := Ball.radius (Game.ball g) in
  let s := Game.ballSpeed g in
  let w := Game32.handleWallCollisions g in
  let p := Game32.handlePaddleCollision sinf cosf g in
  let k := Game32.handleBrickCollisions g in
  (speedOk32 w /\ speedOk32 p /\ speedOk32 k) /\
  (forall rs, speedOk32 (fold_left (resolve32 sinf cosf) rs g)) /\
  (Game.ballSpeed w = s /\ Game.ballSpeed p = s /\ Game.ballSpeed k = s) /\
  (Ball.moving (Game.ball w) = true ->
     Rabs (sf.x (Ball.velocity (Game.ball w))) =
       Rabs (sf.x (Ball.velocity (Game.ball g))) /\
     Rabs (sf.y (Ball.velocity (Game.ball w))) =
       Rabs (sf.y (Ball.velocity (Game.ball g))) /\
     Ball32.getSpeed (Game.ball w) = Ball32.getSpeed (Game.ball g) /\
     Ball.getSpeed (Game.ball w) = Ball.getSpeed (Game.ball g)) /\
  (Ball.moving (Game.ball g) = true -> paddleHit32 g = true ->
     Game.ball p = Ball32.normaliseSpeed s (steered32 sinf cosf g) /\
     Rabs (Ball32.getSpeed (Game.ball p) - s) <= s / 2000000 /\
     Rabs (Ball.getSpeed (Game.ball p) - s) <= s / 3000000) /\
  (forall b1,
     Ball.moving (Game.ball g) = true ->
     find (collides32 c rad) (Game.bricks g) = Some b1 ->
     Game.ball k =
       Ball32.normaliseSpeed s (bounced32 (normal32 c b1) c rad b1 (Game.ball g)) /\
     Rabs (Ball32.getSpeed (Game.ball k) - s) <= s / 2000000 /\
     Rabs (Ball.getSpeed (Game.ball k) - s) <= s / 3000000).
Proof.
  intros Hcos H c rad s w p k.
  pose proof (speedOk32_floor g H) as Hfl.
  assert (Hs : 1 <= s <= 2000) by apply H.
  split.
  { split; [now apply handleWallCollisions32_ok | ].
    split; [now apply handlePaddleCollision32_ok
           | now apply handleBrickCollisions32_ok]. }
  split; [intros rs; now apply resolve32_ok | ].
  split.
  { split; [apply (handleWallCollisions32_speed g) | ].
    split; [ | apply (handleBrickCollisions32_ball g)].
    subst p. rewrite handlePaddleCollision32_eq.
    destruct (paddleHit32 g); reflexivity. }
  split.
  { intros Hm. destruct (handleWallCollisions32_speed g) as [_ Hw].
    destruct (Hw Hm) as (_ & Hx & Hy & H32 & Hex). repeat split; assumption. }
  split.
  - intros Hm Hhit. subst p. rewrite handlePaddleCollision32_eq, Hhit.
    cbn [Game.setBall Game.ball]. split; [reflexivity | ].
    destruct (Hfl Hm) as [Hf _].
    apply (deflected32_speed sinf cosf g Hcos); subst s; lra.
  - intros b1 Hm Hfind. destruct (handleBrickCollisions32_ball g) as [_ Eb].
    fold c rad k in Eb. rewrite Hfind in Eb. rewrite Eb.
    split; [reflexivity | ]. destruct (Hfl Hm) as [_ Hf].
    apply respond32_speed; [apply normal32_unit | lra | lra].
Qed.

Lemma straight_getSpeed32 (p : sf.Vector2f) (vy rad : R) (m : bool) :
  vy = 320 \/ vy = - 320 ->
  Ball32.getSpeed (Ball.mk p (sf.mkVector2f 0 vy) rad m) = 320.
Proof.
  intros Hvy. unfold Ball32.getSpeed. cbn [Ball.velocity sf.x sf.y].
  rewrite Rmult_0_l, round_0, Rplus_0_l.
  assert (E : vy * vy = 102400) by (destruct Hvy as [-> | ->]; lra).
  rewrite E. rewrite (round_IZR 102400) by reflexivity.
  rewrite (round_IZR 102400) by reflexivity.
  replace 102400 with (320 * 320) by lra. rewrite sqrt_square by lra.
  apply (round_IZR 320). reflexivity.
Qed.

Lemma twoBrickGame_ok : speedOk32 twoBrickGame.
Proof.
  split; [cbn; lra | ]. intros _. cbn [twoBrickGame Game.ball Game.ballSpeed].
  rewrite straight_getSpeed32 by (right; reflexivity).
  rewrite Rminus_diag, Rabs_R0. lra.
Qed.

Lemma paddleGame_ok : speedOk32 paddleGame.
Proof.
  split; [cbn; lra | ]. intros _.
  cbn [paddleGame oneBrickGame Game.setBall Game.ball Game.ballSpeed].
  rewrite straight_getSpeed32 by (left; reflexivity).
  rewrite Rminus_diag, Rabs_R0. lra.
Qed.

Lemma twoBrickGame_find :
  find (collides32 (Ball.position (Game.ball twoBrickGame))
                   (Ball.radius (Game.ball twoBrickGame)))
       (Game.bricks twoBrickGame) = Some firstBrick.
Proof.
  cbn [twoBrickGame Game.ball Game.bricks Ball.position Ball.radius find].
  now rewrite twoBrick_first32.
Qed.

Lemma paddleGame_hit32 : paddleHit32 paddleGame = true.
Proof.
  unfold paddleHit32, expandedBounds32, Game32.contains, paddleGame,
    oneBrickGame, centredPaddle. cbn.
  round_to (2 * 8) 16 16%Z 0%Z.
  round_to (340 - 1.5 - 8) 330.5 661%Z (- 1)%Z.
  round_to (555 - 1.5 - 8) 545.5 1091%Z (- 1)%Z.
  round_to (120 + 2 * 1.5 + 16) 139 139%Z 0%Z.
  round_to (14 + 2 * 1.5 + 16) 33 33%Z 0%Z.
  round_to (330.5 + 139) 469.5 939%Z (- 1)%Z.
  round_to (545.5 + 33) 578.5 1157%Z (- 1)%Z.
  unfold Rmin, Rmax.
  repeat match goal with
         | |- context [Rle_dec ?a ?b] =>
             destruct (Rle_dec a b); [try (exfalso; lra) | try (exfalso; lra)]
         end.
  rdec. reflexivity.
Qed.

(** The ball of [twoBrickGame] is sent back by [firstBrick], and the ball
    of [paddleGame] by the paddle, with sine and cosine rounded to
    binary32. *)
Lemma C1_witness :
  (forall a, Rabs (cosRounded a - cos a) <= 0.001) /\
  (speedOk32 twoBrickGame /\
   find (collides32 (sf.mkVector2f 112 88) 8) (Game.bricks twoBrickGame) =
     Some firstBrick /\
   speedOk32 (Game32.handleBrickCollisions twoBrickGame) /\
   Rabs (Ball32.getSpeed (Game.ball (Game32.handleBrickCollisions twoBrickGame))
         - 320) <= 320 / 2000000) /\
  (speedOk32 paddleGame /\ paddleHit32 paddleGame = true /\
   Rabs (Ball32.getSpeed
           (Game.ball (Game32.handlePaddleCollision sinRounded cosRounded
                         paddleGame)) - 320) <= 320 / 2000000).
Proof.
  split; [exact cosRounded_close | ]. split.
  - split; [exact twoBrickGame_ok | ]. split; [exact twoBrickGame_find | ].
    destruct (C1_speed_invariance sinRounded cosRounded twoBrickGame
                cosRounded_close twoBrickGame_ok)
      as ((_ & _ & Hk) & _ & _ & _ & _ & Hb).
    split; [exact Hk | ].
    exact (proj1 (proj2 (Hb firstBrick eq_refl twoBrickGame_find))).
  - split; [exact paddleGame_ok | ]. split; [exact paddleGame_hit32 | ].
    destruct (C1_speed_invariance sinRounded cosRounded paddleGame
                cosRounded_close paddleGame_ok)
      as (_ & _ & _ & _ & Hp & _).
    exact (proj1 (proj2 (Hp eq_refl paddleGame_hit32))).
Defined.

(** ** Ball *)

Lemma launch_angle_range (rnd : Z) :
  (0 <= rnd)%Z ->
  0 < - Ball.toRadians (- 90 + (IZR (Z.rem rnd 91) - 45)) < PI.
Proof.
  intros Hr. pose proof (Z.rem_bound_pos rnd 91 Hr ltac:(lia)) as [Hlo Hhi].
  assert (H0 : 0 <= IZR (Z.rem rnd 91)) by (apply (IZR_le 0); exact Hlo).
  assert (H90 : IZR (Z.rem rnd 91) <= 90) by (apply (IZR_le _ 90); lia).
  pose proof PI_bounds as [Hpi _].
  unfold Ball.toRadians, Ball.PI. split; nra.
Qed.

(** The launch angle in binary32 is between 135 and 45 degrees to the
    left of the x axis, up to rounding. *)
Lemma launch32_angle (rnd : Z) :
  (0 <= rnd)%Z ->
  let a := Ball32.toRadians
             (F32.round (- 90 + F32.round (IZR (Z.rem rnd 91) - 45))) in
  - 2.3563 <= a <= - 0.7853.
Proof.
  intros Hr a. pose proof (Z.rem_bound_pos rnd 91 Hr ltac:(lia)) as [Hlo Hhi].
  set (r := Z.rem rnd 91) in *.
  assert (E1 : F32.round (IZR r - 45) = IZR (r - 45)).
  { rewrite <- minus_IZR. apply round_IZR. lia. }
  assert (E2 : F32.round (- 90 + IZR (r - 45)) = IZR (r - 135)).
  { replace (- 90 + IZR (r - 45)) with (IZR (r - 135))
      by (rewrite !minus_IZR; lra).
    apply round_IZR. lia. }
  unfold a. rewrite E1, E2. unfold Ball32.toRadians, Ball32.PI.
  assert (Hd1 : - 135 <= IZR (r - 135)) by (apply (IZR_le (- 135)); lia).
  assert (Hd2 : IZR (r - 135) <= - 45) by (apply (IZR_le _ (- 45)); lia).
  set (d := IZR (r - 135)) in *. clearbody d.
  pose proof (round_rel 3.14159265358979323846) as H1.
  rewrite (Rabs_pos_eq 3.14159265358979323846) in H1 by lra.
  apply Rabs_bound in H1.
  set (p := F32.round 3.14159265358979323846) in *. clearbody p.
  unfold u32 in H1.
  pose proof (round_rel (p / 180)) as H2.
  rewrite (Rabs_pos_eq (p / 180)) in H2 by lra. apply Rabs_bound in H2.
  set (k := F32.round (p / 180)) in *. clearbody k. unfold u32 in H2.
  assert (Hk : 0.0174532 <= k <= 0.0174534) by lra.
  pose proof (round_rel (d * k)) as H3.
  assert (Hdk : - 2.35621 <= d * k <= - 0.785394) by nra.
  rewrite (Rabs_left (d * k)) in H3 by lra. apply Rabs_bound in H3.
  unfold u32 in H3. lra.
Qed.

Lemma sin_launch (a : R) : - 2.3563 <= a <= - 0.7853 -> sin a <= - 0.25.
Proof.
  intros Ha. pose proof PI_bounds as [Hp1 Hp2].
  rewrite sin_cos.
  assert (H : 0.25 <= cos (PI / 2 + a)) by (apply cos_floor, Rabs_le; lra).
  lra.
Qed.

(** The length of [s] times a rounded sine and cosine. *)
Lemma trig_length (s c sn cf sf : R) :
  0 <= s -> c * c + sn * sn = 1 ->
  Rabs (cf - c) <= / 8388608 -> Rabs (sf - sn) <= / 8388608 ->
  bnd (1 - / 3300000) (1 + / 3300000)
      (sqrt (F32.round (s * cf) * F32.round (s * cf) +
             F32.round (s * sf) * F32.round (s * sf))) s.
Proof.
  intros Hs Hu Hc Hsn. apply Rabs_bound in Hc, Hsn.
  pose proof (bnd_round_sq (s * cf)) as Bx.
  pose proof (bnd_round_sq (s * sf)) as By.
  pose proof (bnd_add _ _ _ _ _ _ Bx By) as [B1 B2].
  set (N2 := F32.round (s * cf) * F32.round (s * cf) +
             F32.round (s * sf) * F32.round (s * sf)) in *.
  clearbody N2.
  assert (Hc1 : - 1 <= c <= 1) by nra. assert (Hs1 : - 1 <= sn <= 1) by nra.
  assert (Hq : 1 - 4 * / 8388608 <= cf * cf + sf * sf <=
               1 + 4 * / 8388608 + 2 * (/ 8388608 * / 8388608)).
  { assert (E : cf * cf + sf * sf =
                1 + 2 * ((cf - c) * c + (sf - sn) * sn) +
                (cf - c) * (cf - c) + (sf - sn) * (sf - sn)) by (rewrite <- Hu; ring).
    set (e1 := cf - c) in *. set (e2 := sf - sn) in *. clearbody e1 e2.
    assert (T1 : - / 8388608 <= e1 * c <= / 8388608) by nra.
    assert (T2 : - / 8388608 <= e2 * sn <= / 8388608) by nra.
    assert (T3 : 0 <= e1 * e1 <= / 8388608 * / 8388608) by nra.
    assert (T4 : 0 <= e2 * e2 <= / 8388608 * / 8388608) by nra.
    rewrite E. lra. }
  replace (s * cf * (s * cf) + s * sf * (s * sf))
    with (s * s * (cf * cf + sf * sf)) in B1, B2 by ring.
  set (q := cf * cf + sf * sf) in *. clearbody q.
  assert (Hss : 0 <= s * s) by nra.
  assert (Es : sqrt (s * s) = s) by (apply sqrt_square; exact Hs).
  set (ss := s * s) in *. clearbody ss. rewrite <- Es.
  apply bnd_sqrt; [exact Hss | lra | lra | ].
  unfold bnd. unfold u32 in *.
  assert (K1 : ss * ((1 - / 3300000) * (1 - / 3300000)) <=
               ss * q * ((1 - / 16777216) * (1 - / 16777216))).
  { rewrite Rmult_assoc. apply Rmult_le_compat_l; [exact Hss | ]. nra. }
  assert (K2 : ss * q * ((1 + / 16777216) * (1 + / 16777216)) <=
               ss * ((1 + / 3300000) * (1 + / 3300000))).
  { rewrite Rmult_assoc. apply Rmult_le_compat_l; [exact Hss | ]. nra. }
  lra.
Qed.

Lemma launch32_speed (sinf cosf : R -> R) (rnd : Z) (s : R) (b : Ball.t) :
  (forall a, Rabs (sinf a - sin a) <= / 8388608) ->
  (forall a, Rabs (cosf a - cos a) <= / 8388608) ->
  Ball.moving b = false -> 0 <= s ->
  Rabs (Ball32.getSpeed (Ball32.launch sinf cosf rnd s b) - s) <= s / 2000000.
Proof.
  intros Hsin Hcos Hm Hs.
  pose proof (getSpeed32_near (Ball32.launch sinf cosf rnd s b)) as B2.
  unfold Ball.getSpeed in B2. unfold Ball32.launch in *. rewrite Hm in *.
  cbn [Ball.velocity sf.x sf.y] in B2.
  set (a := Ball32.toRadians _) in *.
  assert (Hu : cos a * cos a + sin a * sin a = 1).
  { pose proof (sin2_cos2 a) as H. unfold Rsqr in H. lra. }
  pose proof (trig_length s (cos a) (sin a) (cosf a) (sinf a) Hs Hu
                (Hcos a) (Hsin a)) as B1.
  assert (B : bnd ((1 - / 3300000) * (1 - / 8000000))
                  ((1 + / 3300000) * (1 + / 8000000))
                  (Ball32.getSpeed
                     (Ball.mk (Ball.position b)
                        (sf.mkVector2f (F32.round (s * cosf a))
                                       (F32.round (s * sinf a)))
                        (Ball.radius b) true)) s).
  { eapply bnd_trans; [exact Hs | | | | exact B1 | exact B2]; lra. }
  destruct B as [Blo Bhi]. apply Rabs_le. lra.
Qed.

Lemma launch32_upward (sinf cosf : R -> R) (rnd : Z) (s : R) (b : Ball.t) :
  (forall a, Rabs (sinf a - sin a) <= / 8388608) ->
  Ball.moving b = false -> (0 <= rnd)%Z -> 0 < s ->
  sf.y (Ball.velocity (Ball32.launch sinf cosf rnd s b)) < 0.
Proof.
  intros Hsin Hm Hr Hs. unfold Ball32.launch. rewrite Hm.
  cbn [Ball.velocity sf.y].
  pose proof (launch32_angle rnd Hr) as Ha. cbv zeta in Ha.
  set (a := Ball32.toRadians _) in *.
  pose proof (sin_launch a Ha) as Hsn.
  pose proof (Hsin a) as Hf. apply Rabs_bound in Hf.
  apply round_neg. nra.
Qed.

Lemma sinRounded_close (a : R) : Rabs (sinRounded a - sin a) <= / 8388608.
Proof.
  unfold sinRounded. pose proof (round_rel (sin a)) as H.
  pose proof (SIN_bound a) as [Hc1 Hc2].
  assert (Rabs (sin a) <= 1) by (apply Rabs_le; lra).
  unfold u32 in H. lra.
Qed.

Lemma cosRounded_closer (a : R) : Rabs (cosRounded a - cos a) <= / 8388608.
Proof.
  unfold cosRounded. pose proof (round_rel (cos a)) as H.
  pose proof (COS_bound a) as [Hc1 Hc2].
  assert (Rabs (cos a) <= 1) by (apply Rabs_le; lra).
  unfold u32 in H. lra.
Qed.

(** X1. [launch] does nothing to a ball in motion.  A ball at rest, given a
    draw of [std::rand] (which is not negative) and a positive speed, is set
    in motion where it stands and upward, and a second [launch] leaves it
    as it is.  The same holds of [launch] in binary32 with a sine that is
    within 2^-23 of the real one; with a cosine that is too, the speed of
    the launched ball, as [getSpeed] computes it, is within [s / 2000000]
    of the speed [s] asked for: close to it, not equal to it. *)
Theorem X1_launch_upward (rnd : Z) (s : R) (b : Ball.t) :
  (Ball.moving b = true -> Ball.launch rnd s b = b) /\
  (Ball.moving b = false -> (0 <= rnd)%Z -> 0 < s ->
     let b' := Ball.launch rnd s b in
     Ball.moving b' = true /\
     Ball.position b' = Ball.position b /\
     Ball.radius b' = Ball.radius b /\
     sf.y (Ball.velocity b') < 0 /\
     Ball.launch rnd s b' = b') /\
  (forall sinf cosf,
     (Ball.moving b = true -> Ball32.launch sinf cosf rnd s b = b) /\
     ((forall a, Rabs (sinf a - sin a) <= / 8388608) ->
      Ball.moving b = false -> (0 <= rnd)%Z -> 0 < s ->
      let b' := Ball32.launch sinf cosf rnd s b in
      Ball.moving b' = true /\
      Ball.position b' = Ball.position b /\
      Ball.radius b' = Ball.radius b /\
      sf.y (Ball.velocity b') < 0 /\
      Ball32.launch sinf cosf rnd s b' = b' /\
      ((forall a, Rabs (cosf a - cos a) <= / 8388608) ->
       Rabs (Ball32.getSpeed b' - s) <= s / 2000000))).
Proof.
  split; [ | split].
  - intros Hm. unfold Ball.launch. now rewrite Hm.
  - intros Hm Hr Hs b'.
    subst b'. unfold Ball.launch in *. rewrite Hm in *.
    cbn [Ball.moving Ball.position Ball.radius Ball.velocity sf.y].
    repeat split; try reflexivity.
    destruct (launch_angle_range rnd Hr) as [Hlo Hhi].
    pose proof (sin_gt_0 _ Hlo Hhi) as Hsin. rewrite sin_neg in Hsin. nra.
  - intros sinf cosf. split.
    + intros Hm. unfold Ball32.launch. now rewrite Hm.
    + intros Hsin Hm Hr Hs b'.
      pose proof (launch32_upward sinf cosf rnd s b Hsin Hm Hr Hs) as Hup.
      pose proof (fun Hcos => launch32_speed sinf cosf rnd s b Hsin Hcos Hm
                                (Rlt_le _ _ Hs)) as Hsp.
      fold b' in Hup, Hsp.
      subst b'. unfold Ball32.launch in *. rewrite Hm in *.
      cbn [Ball.moving Ball.position Ball.radius].
      repeat split; try reflexivity; assumption.
Qed.

(** A ball at rest above the paddle, launched at 320 with sine and cosine
    rounded to binary32. *)
Lemma X1_witness :
  let b := Ball.Ball 400 546 8 in
  let b' := Ball32.launch sinRounded cosRounded 45 320 b in
  (forall a, Rabs (sinRounded a - sin a) <= / 8388608) /\
  (forall a, Rabs (cosRounded a - cos a) <= / 8388608) /\
  Ball.moving b = false /\ (0 <= 45)%Z /\ 0 < 320 /\
  Ball.moving b' = true /\
  sf.y (Ball.velocity b') < 0 /\
  Rabs (Ball32.getSpeed b' - 320) <= 320 / 2000000.
Proof.
  intros b b'.
  assert (Hm : Ball.moving b = false) by reflexivity.
  assert (Hr : (0 <= 45)%Z) by lia.
  assert (Hs : 0 < 320) by lra.
  split; [exact sinRounded_close | ]. split; [exact cosRounded_closer | ].
  split; [exact Hm | ]. split; [exact Hr | ]. split; [exact Hs | ].
  destruct (X1_launch_upward 45 320 b) as (_ & _ & H).
  destruct (H sinRounded cosRounded) as [_ H32].
  destruct (H32 sinRounded_close Hm Hr Hs) as (Hmov & _ & _ & Hup & _ & Hsp).
  split; [exact Hmov | ]. split; [exact Hup | exact (Hsp cosRounded_closer)].
Defined.

(** X2. Reversing a velocity component twice restores the ball, the two
    reversals commute, and neither changes the speed. *)
Theorem X2_reverse_velocity (b : Ball.t) :
  Ball.reverseVelocityX (Ball.reverseVelocityX b) = b /\
  Ball.reverseVelocityY (Ball.reverseVelocityY b) = b /\
  Ball.reverseVelocityX (Ball.reverseVelocityY b) =
    Ball.reverseVelocityY (Ball.reverseVelocityX b) /\
  Ball.getSpeed (Ball.reverseVelocityX b) = Ball.getSpeed b /\
  Ball.getSpeed (Ball.reverseVelocityY b) = Ball.getSpeed b.
Proof.
  destruct b as [pos [vx vy] rad mv].
  unfold Ball.reverseVelocityX, Ball.reverseVelocityY, Ball.getSpeed. cbn.
  rewrite !Ropp_involutive. repeat split; f_equal; ring.
Qed.

(** X3. [normaliseSpeed] in binary32.  The guard [0.0001f] is just below
    a ten-thousandth, and a ball whose speed, as [getSpeed] computes it, is
    below the guard is left alone.  Any other ball keeps its position,
    radius and motion flag; each velocity component is divided by the
    current speed and multiplied by the target, rounding after each
    operation, so that for a positive target it keeps its sign.  For a
    target [s] that is not negative the new speed is within [s / 2000000]
    of [s] as [getSpeed] computes it, and the length of the new velocity
    is within [s / 3000000] of [s]. *)
Theorem X3_normaliseSpeed (s : R) (b : Ball.t) :
  0.00009999 < F32.round 0.0001 < 0.0001 /\
  (Ball32.getSpeed b < F32.round 0.0001 -> Ball32.normaliseSpeed s b = b) /\
  (F32.round 0.0001 <= Ball32.getSpeed b ->
     let b' := Ball32.normaliseSpeed s b in
     Ball.position b' = Ball.position b /\
     Ball.radius b' = Ball.radius b /\
     Ball.moving b' = Ball.moving b /\
     sf.x (Ball.velocity b') =
       F32.round (F32.round (sf.x (Ball.velocity b) / Ball32.getSpeed b) * s) /\
     sf.y (Ball.velocity b') =
       F32.round (F32.round (sf.y (Ball.velocity b) / Ball32.getSpeed b) * s) /\
     (0 < s ->
        (0 < sf.x (Ball.velocity b) -> 0 < sf.x (Ball.velocity b')) /\
        (sf.x (Ball.velocity b) < 0 -> sf.x (Ball.velocity b') < 0) /\
        (0 < sf.y (Ball.velocity b) -> 0 < sf.y (Ball.velocity b')) /\
        (sf.y (Ball.velocity b) < 0 -> sf.y (Ball.velocity b') < 0)) /\
     (0 <= s ->
        Rabs (Ball32.getSpeed b' - s) <= s / 2000000 /\
        Rabs (Ball.getSpeed b' - s) <= s / 3000000)).
Proof.
  pose proof guard_bounds as Hgb.
  split; [exact Hgb | ]. split.
  - intros H. unfold Ball32.normaliseSpeed.
    destruct (Rlt_dec (Ball32.getSpeed b) (F32.round 0.0001));
      [reflexivity | contradiction].
  - intros H b'. pose proof (normaliseSpeed32_velocity s b H) as Hv.
    fold b' in Hv.
    assert (Hc : 0 < Ball32.getSpeed b) by lra.
    assert (Hi : 0 < / Ball32.getSpeed b) by now apply Rinv_0_lt_compat.
    split; [subst b'; unfold Ball32.normaliseSpeed; split_ifs; reflexivity | ].
    split; [subst b'; unfold Ball32.normaliseSpeed; split_ifs; reflexivity | ].
    split; [apply normaliseSpeed32_moving | ].
    rewrite Hv. cbn [sf.x sf.y].
    split; [reflexivity | ]. split; [reflexivity | ]. split.
    + intros Hs. unfold Rdiv.
      split; [intros Hx; apply round_pos, Rmult_lt_0_compat;
              [apply round_pos, Rmult_lt_0_compat | ]; assumption | ].
      split; [intros Hx; apply round_neg;
              assert (Hr : F32.round (sf.x (Ball.velocity b) * / Ball32.getSpeed b) < 0)
                by (apply round_neg; nra); nra | ].
      split; [intros Hy; apply round_pos, Rmult_lt_0_compat;
              [apply round_pos, Rmult_lt_0_compat | ]; assumption | ].
      intros Hy. apply round_neg.
      assert (Hr : F32.round (sf.y (Ball.velocity b) * / Ball32.getSpeed b) < 0)
        by (apply round_neg; nra).
      nra.
    + intros Hs.
      split; [now apply normaliseSpeed32_speed | ].
      apply tolerance_of_bnd; [exact Hs | ]. now apply normaliseSpeed32_length.
Qed.

(** A ball moving straight up at 320, rescaled to 355. *)
Lemma X3_witness :
  let b := Ball.mk (sf.mkVector2f 76 91) (sf.mkVector2f 0 (- 320)) 8 true in
  F32.round 0.0001 <= Ball32.getSpeed b /\ 0 <= 355 /\
  Rabs (Ball32.getSpeed (Ball32.normaliseSpeed 355 b) - 355) <= 355 / 2000000.
Proof.
  intros b.
  assert (Hb : F32.round 0.0001 <= Ball32.getSpeed b).
  { unfold b. rewrite straight_getSpeed32 by (right; reflexivity).
    pose proof guard_bounds. lra. }
  assert (Hs : 0 <= 355) by lra.
  split; [exact Hb | ]. split; [exact Hs | ].
  destruct (X3_normaliseSpeed 355 b) as (_ & _ & H).
  destruct (H Hb) as (_ & _ & _ & _ & _ & _ & Hsp). exact (proj1 (Hsp Hs)).
Defined.

(** ** Paddle *)



(** ** Brick *)

Lemma hits_S (k : nat) (b : Brick.t) : hits (S k) b = hits k (Brick.hit b).
Proof. reflexivity. Qed.

Lemma hits_count (k : nat) :
  forall b, Brick.destroyed b = false -> (1 <= Brick.hitPoints b)%Z ->
    Brick.hitPoints (hits k b) = Z.max 0 (Brick.hitPoints b - Z.of_nat k) /\
    (Brick.destroyed (hits k b) = true <-> (Brick.hitPoints b <= Z.of_nat k)%Z).
Proof.
  induction k as [| k IH]; intros b Hd Hhp.
  - cbn [hits]. rewrite Hd. split; [lia | ]. split; [discriminate | lia].
  - rewrite hits_S.
    destruct (hit_standing b (fun _ => Hhp) Hd) as [Ehp Edes].
    destruct (Brick.destroyed (Brick.hit b)) eqn:Hd'.
    + assert (E1 : Brick.hitPoints (Brick.hit b) = 0%Z) by now apply Edes.
      rewrite hits_destroyed_noop by exact Hd'. rewrite Hd', E1.
      split; [lia | ]. split; [lia | reflexivity].
    + assert (Hpos : (1 <= Brick.hitPoints (Brick.hit b))%Z).
      { destruct (Z.eq_dec (Brick.hitPoints (Brick.hit b)) 0) as [E0 | Hne];
          [apply Edes in E0; discriminate | lia]. }
      destruct (IH (Brick.hit b) Hd' Hpos) as [IHhp IHd].
      rewrite IHhp, IHd, Ehp. split; lia.
Qed.

Lemma hit_frame (b : Brick.t) :
  Brick.getBounds (Brick.hit b) = Brick.getBounds b /\
  Brick.baseColor (Brick.hit b) = Brick.baseColor b /\
  Brick.maxHitPoints (Brick.hit b) = Brick.maxHitPoints b /\
  Brick.points (Brick.hit b) = Brick.points b.
Proof.
  unfold Brick.hit. destruct (Brick.destroyed b); [repeat split | ].
  destruct (Brick.hitPoints b - 1 <=? 0)%Z; repeat split.
Qed.

(** X5. A standing brick with [n] hit points, [n] at least one, is
    destroyed by exactly [n] hits: after [k] hits it has [max 0 (n - k)]
    hit points left and is flagged destroyed if and only if [n <= k].
    No number of hits changes its rectangle, base colour, max hit points
    or point value. *)
Theorem X5_hits_to_destroy (b : Brick.t) (k : nat) :
  Brick.destroyed b = false -> (1 <= Brick.hitPoints b)%Z ->
  Brick.hitPoints (hits k b) = Z.max 0 (Brick.hitPoints b - Z.of_nat k) /\
  (Brick.destroyed (hits k b) = true <-> (Brick.hitPoints b <= Z.of_nat k)%Z) /\
  Brick.getBounds (hits k b) = Brick.getBounds b /\
  Brick.baseColor (hits k b) = Brick.baseColor b /\
  Brick.maxHitPoints (hits k b) = Brick.maxHitPoints b /\
  Brick.points (hits k b) = Brick.points b.
Proof.
  intros Hd Hhp. destruct (hits_count k b Hd Hhp) as [H1 H2].
  split; [exact H1 | ]. split; [exact H2 | ]. clear.
  revert b. induction k as [| k IH]; intros b; [repeat split | ].
  rewrite hits_S. destruct (IH (Brick.hit b)) as (-> & -> & -> & ->).
  apply hit_frame.
Qed.

(** A brick of the third level needs three hits. *)
Lemma X5_witness :
  let b := Brick.Brick 42 60 68 22 (sf.rgb 220 45 45) 3 180 in
  Brick.destroyed b = false /\ (1 <= Brick.hitPoints b)%Z /\
  Brick.destroyed (hits 2 b) = false /\ Brick.destroyed (hits 3 b) = true.
Proof.
  intros b.
  assert (Hd : Brick.destroyed b = false) by reflexivity.
  assert (Hh : (1 <= Brick.hitPoints b)%Z) by (cbn; lia).
  split; [exact Hd | ]. split; [exact Hh | ].
  destruct (X5_hits_to_destroy b 2 Hd Hh) as (_ & H2 & _).
  destruct (X5_hits_to_destroy b 3 Hd Hh) as (_ & H3 & _).
  split.
  - destruct (Brick.destroyed (hits 2 b)); [ | reflexivity].
    exfalso. assert (Hle : (Brick.hitPoints b <= Z.of_nat 2)%Z)
      by (apply H2; reflexivity). cbn in Hle. lia.
  - apply H3. cbn. lia.
Defined.

Lemma Int_part_IZR (z : Z) : Int_part (IZR z) = z.
Proof.
  unfold Int_part.
  assert (E : (z + 1)%Z = up (IZR z)).
  { apply tech_up; rewrite plus_IZR; lra. }
  rewrite <- E. lia.
Qed.

Lemma truncR_IZR (z : Z) : truncR (IZR z) = z.
Proof.
  unfold truncR. destruct (Rle_dec 0 (IZR z)); [apply Int_part_IZR | ].
  rewrite <- opp_IZR, Int_part_IZR. lia.
Qed.

(** Truncating a product of a channel with a brightness between 0.4 and
    1. *)
Lemma truncR_channel (c : Z) (scale : R) :
  (0 <= c)%Z -> 0.4 <= scale <= 1 ->
  (0 <= truncR (IZR c * scale) <= c)%Z /\
  (2 * c <= 5 * truncR (IZR c * scale) + 4)%Z.
Proof.
  intros Hc Hs. assert (Hc' : 0 <= IZR c) by (apply (IZR_le 0); exact Hc).
  set (v := IZR c * scale). assert (Hv : 0 <= v <= IZR c) by (unfold v; nra).
  assert (Hv4 : 0.4 * IZR c <= v) by (unfold v; nra).
  unfold truncR. destruct (Rle_dec 0 v) as [_ | Hn]; [ | lra].
  destruct (base_Int_part v) as [Hlo Hhi]. set (t := Int_part v) in *.
  assert (H1 : (t <= c)%Z) by (apply le_IZR; lra).
  assert (H2 : (-1 < t)%Z) by (apply lt_IZR; lra).
  assert (H3 : (2 * c < 5 * t + 5)%Z).
  { apply lt_IZR. rewrite plus_IZR, !mult_IZR. lra. }
  lia.
Qed.

Lemma brightness_range (hp maxhp : Z) :
  (0 < maxhp)%Z -> (0 <= hp <= maxhp)%Z ->
  0.4 <= 0.4 + 0.6 * (IZR hp / IZR maxhp) <= 1.
Proof.
  intros Hm [H0 H1].
  assert (Hm' : 0 < IZR maxhp) by (apply (IZR_lt 0); exact Hm).
  assert (H0' : 0 <= IZR hp) by (apply (IZR_le 0); exact H0).
  assert (H1' : IZR hp <= IZR maxhp) by (apply IZR_le; exact H1).
  set (q := IZR hp / IZR maxhp).
  assert (Hq : q * IZR maxhp = IZR hp) by (unfold q; field; lra).
  assert (Hq0 : 0 <= q).
  { unfold q, Rdiv. apply Rmult_le_pos; [exact H0' | ].
    left. now apply Rinv_0_lt_compat. }
  assert (Hq1 : q <= 1) by nra.
  lra.
Qed.

(** X6. The displayed colour.  A brick built with hit points other than
    zero is filled with its base colour.  For a brick with hit points
    between zero and its positive maximum and base channels that are not
    negative, [updateColor] gives every channel a value that is not
    negative, at most the base value and, times five and plus four, at
    least twice the base value: never brighter than the base and not
    under 40 percent of it but for the truncation.  It changes the fill
    colour and nothing else. *)
Theorem X6_brick_colour :
  (forall px py w h color hp pts,
     hp <> 0%Z ->
     sf.fillColor (Brick.shape (Brick.Brick px py w h color hp pts)) =
       sf.rgb (sf.r color) (sf.g color) (sf.b color)) /\
  (forall b,
     (0 < Brick.maxHitPoints b)%Z ->
     (0 <= Brick.hitPoints b <= Brick.maxHitPoints b)%Z ->
     (0 <= sf.r (Brick.baseColor b))%Z -> (0 <= sf.g (Brick.baseColor b))%Z ->
     (0 <= sf.b (Brick.baseColor b))%Z ->
     let base := Brick.baseColor b in
     let fill := sf.fillColor (Brick.shape (Brick.updateColor b)) in
     (0 <= sf.r fill <= sf.r base)%Z /\ (2 * sf.r base <= 5 * sf.r fill + 4)%Z /\
     (0 <= sf.g fill <= sf.g base)%Z /\ (2 * sf.g base <= 5 * sf.g fill + 4)%Z /\
     (0 <= sf.b fill <= sf.b base)%Z /\ (2 * sf.b base <= 5 * sf.b fill + 4)%Z /\
     sf.a fill = 255%Z) /\
  (forall b,
     Brick.updateColor b =
       Brick.mk (sf.setFillColor
                   (sf.fillColor (Brick.shape (Brick.updateColor b)))
                   (Brick.shape b))
                (Brick.baseColor b) (Brick.hitPoints b) (Brick.maxHitPoints b)
                (Brick.points b) (Brick.destroyed b)).
Proof.
  split; [ | split].
  - intros px py w h color hp pts Hhp.
    unfold Brick.Brick, Brick.updateColor. cbn.
    assert (Hne : IZR hp <> 0) by (apply not_0_IZR; exact Hhp).
    assert (E : 0.4 + 0.6 * (IZR hp / IZR hp) = 1).
    { unfold Rdiv. rewrite Rinv_r by exact Hne. lra. }
    now rewrite E, !Rmult_1_r, !truncR_IZR.
  - intros b Hm Hhp Hr Hg Hb base fill. subst base fill.
    pose proof (brightness_range _ _ Hm Hhp) as Hs.
    unfold Brick.updateColor. cbn.
    destruct (truncR_channel _ _ Hr Hs) as [R1 R2].
    destruct (truncR_channel _ _ Hg Hs) as [G1 G2].
    destruct (truncR_channel _ _ Hb Hs) as [B1 B2].
    repeat split; try apply R1; try apply G1; try apply B1; assumption.
  - intros b. reflexivity.
Qed.

(** A brick of the third level after one hit: two hit points of three. *)
Lemma X6_witness :
  let b := Brick.hit (Brick.Brick 42 60 68 22 (sf.rgb 220 45 45) 3 180) in
  (0 < Brick.maxHitPoints b)%Z /\
  (0 <= Brick.hitPoints b <= Brick.maxHitPoints b)%Z /\
  (0 <= sf.r (sf.fillColor (Brick.shape (Brick.updateColor b))) <= 220)%Z.
Proof.
  intros b.
  assert (Hm : (0 < Brick.maxHitPoints b)%Z) by (cbn; lia).
  assert (Hh : (0 <= Brick.hitPoints b <= Brick.maxHitPoints b)%Z) by (cbn; lia).
  split; [exact Hm | ]. split; [exact Hh | ].
  destruct X6_brick_colour as (_ & Hcol & _).
  assert (Hr : (0 <= sf.r (Brick.baseColor b))%Z) by (cbn; lia).
  assert (Hg : (0 <= sf.g (Brick.baseColor b))%Z) by (cbn; lia).
  assert (Hb : (0 <= sf.b (Brick.baseColor b))%Z) by (cbn; lia).
  exact (proj1 (Hcol b Hm Hh Hr Hg Hb)).
Defined.

(** ** Keys and states *)

Lemma setState_same (g : Game.t) : Game.setState (Game.state g) g = g.
Proof. now destruct g. Qed.

(** X7. The pause key.  While playing or paused, pressing P changes the
    state and nothing else, and pressing it again gives back the very
    same game; in every other state P is ignored. *)
Theorem X7_pause_round_trip (r1 r2 : Z) (g : Game.t) :
  (Game.state g = Playing ->
     Game.handleKeyPressed r1 sf.P g = Game.setState Paused g /\
     Game.handleKeyPressed r2 sf.P (Game.handleKeyPressed r1 sf.P g) = g) /\
  (Game.state g = Paused ->
     Game.handleKeyPressed r1 sf.P g = Game.setState Playing g /\
     Game.handleKeyPressed r2 sf.P (Game.handleKeyPressed r1 sf.P g) = g) /\
  (Game.state g <> Playing -> Game.state g <> Paused ->
     Game.handleKeyPressed r1 sf.P g = g).
Proof.
  unfold Game.handleKeyPressed. split; [ | split].
  - intros Hs. rewrite Hs. cbn. split; [reflexivity | ].
    rewrite <- Hs. now destruct g.
  - intros Hs. rewrite Hs. cbn. split; [reflexivity | ].
    rewrite <- Hs. now destruct g.
  - intros H1 H2. destruct (Game.state g); try reflexivity; contradiction.
Qed.

Lemma X7_witness :
  Game.state oneBrickGame = Playing /\
  Game.handleKeyPressed 0 sf.P (Game.handleKeyPressed 0 sf.P oneBrickGame) =
    oneBrickGame.
Proof.
  assert (Hs : Game.state oneBrickGame = Playing) by reflexivity.
  split; [exact Hs | ].
  destruct (X7_pause_round_trip 0 0 oneBrickGame) as [H _].
  exact (proj2 (H Hs)).
Defined.

(** X8. The controls screen and the Escape key.  From the main menu or
    from pause, H opens the controls screen; H or Escape then leads back
    to the state it was opened from, and the visit leaves no trace but
    the remembered previous state: Escape there does not close the
    window.  In every other state Escape closes the window and changes
    nothing else, and H is ignored outside the main menu, pause and the
    controls screen. *)
Theorem X8_controls_round_trip (r1 r2 : Z) (g : Game.t) :
  (Game.state g = MainMenu \/ Game.state g = Paused ->
     let g1 := Game.handleKeyPressed r1 sf.H g in
     Game.state g1 = Controls /\
     Game.handleKeyPressed r2 sf.H g1 = Game.setPreviousState (Game.state g) g /\
     Game.handleKeyPressed r2 sf.Escape g1 =
       Game.setPreviousState (Game.state g) g) /\
  (Game.state g <> Controls ->
     Game.handleKeyPressed r1 sf.Escape g = Game.setWindowOpen false g) /\
  (Game.state g <> MainMenu -> Game.state g <> Paused ->
   Game.state g <> Controls ->
     Game.handleKeyPressed r1 sf.H g = g).
Proof.
  unfold Game.handleKeyPressed. split; [ | split].
  - intros [Hs | Hs]; rewrite Hs; cbn; rewrite <- Hs; destruct g;
      repeat split.
  - intros H. destruct (Game.state g); try reflexivity; contradiction.
  - intros H1 H2 H3. destruct (Game.state g); try reflexivity; contradiction.
Qed.

Lemma X8_witness :
  let g := Game.setState Paused oneBrickGame in
  (Game.state g = MainMenu \/ Game.state g = Paused) /\
  Game.state (Game.handleKeyPressed 0 sf.Escape
                (Game.handleKeyPressed 0 sf.H g)) = Paused /\
  Game.windowOpen (Game.handleKeyPressed 0 sf.Escape
                     (Game.handleKeyPressed 0 sf.H g)) = true.
Proof.
  intros g.
  assert (Hs : Game.state g = MainMenu \/ Game.state g = Paused)
    by (right; reflexivity).
  split; [exact Hs | ].
  destruct (X8_controls_round_trip 0 0 g) as [H _].
  destruct (H Hs) as (_ & _ & ->). split; reflexivity.
Defined.

Lemma processEvents_ignored (events : list (sf.Event * Z)) (g : Game.t) :
  Forall ignoredEvent events -> Game.processEvents events g = g.
Proof.
  induction 1 as [| [e rnd] rest [He | He] _ IH]; cbn in *; subst;
    try destruct (Game.windowOpen g); auto.
Qed.

(** X9. Outside play the simulation stands still: in the main menu, in
    pause, after game over or victory and on the controls screen, a frame
    whose events are none that the game reacts to leaves the game exactly
    as it was, whatever the time elapsed and whatever keys are held. *)
Theorem X9_static_states (i : Game.FrameInput) (g : Game.t) :
  Forall ignoredEvent (Game.events i) ->
  Game.state g = MainMenu \/ Game.state g = Paused \/ Game.state g = GameOver \/
  Game.state g = Victory \/ Game.state g = Controls ->
  Game.runIteration i g = g.
Proof.
  intros Hev Hs. unfold Game.runIteration.
  rewrite (processEvents_ignored _ g Hev).
  destruct Hs as [-> | [-> | [-> | [-> | ->]]]]; reflexivity.
Qed.

Lemma X9_witness :
  let g := Game.setState Paused oneBrickGame in
  let i := Game.mkFrameInput 0.05 [(sf.OtherEvent, 0%Z)]
                             (sf.mkKeyboard true false false false) in
  Forall ignoredEvent (Game.events i) /\ Game.runIteration i g = g.
Proof.
  intros g i.
  assert (Hev : Forall ignoredEvent (Game.events i))
    by (repeat constructor).
  split; [exact Hev | ].
  apply (X9_static_states i g Hev). right. left. reflexivity.
Defined.

(** ** The window *)

Lemma processEvents_windowOpen (events : list (sf.Event * Z)) :
  forall g, Game.windowOpen g = false ->
    Game.windowOpen (Game.processEvents events g) = false.
Proof.
  intros g H. destruct events as [| e rest]; cbn; [exact H | ].
  now rewrite H.
Qed.

Lemma update_windowOpen (kb : sf.Keyboard) (dt : R) (g : Game.t) :
  Game.windowOpen (Game.update kb dt g) = Game.windowOpen g.
Proof.
  unfold Game.update. change (Game.state (Game.setPaddle _ g)) with (Game.state g).
  set (g0 := Game.setPaddle _ g).
  assert (H0 : Game.windowOpen g0 = Game.windowOpen g) by reflexivity.
  clearbody g0.
  assert (H1 : forall g1, Game.windowOpen (Game.handleBrickCollisions
                            (Game.handlePaddleCollision
                               (Game.handleWallCollisions g1))) =
                          Game.windowOpen g1).
  { intros g1. rewrite handleBrickCollisions_eq. cbv zeta.
    cbn [Game.windowOpen Game.setBricks withBoard].
    rewrite handlePaddleCollision_only_ball. cbn [Game.windowOpen Game.setBall].
    unfold Game.handleWallCollisions. split_ifs; reflexivity. }
  destruct (Game.state g); try exact H0; split_ifs; cbn; rewrite H1; exact H0.
Qed.

(** X10. Nothing reopens the window.  No frame turns a closed window into
    an open one; with the window closed [run] does nothing, however many
    frames it is offered; and a game built without its font has its window
    closed, so that it never runs. *)
Theorem X10_closed_window_stops :
  (forall i g, Game.windowOpen g = false ->
     Game.windowOpen (Game.runIteration i g) = false) /\
  (forall inputs g, Game.windowOpen g = false -> Game.run inputs g = g) /\
  (forall inputs g, Game.windowOpen g = false ->
     Game.windowOpen (Game.run inputs g) = false) /\
  (forall inputs,
     Game.windowOpen (Game.Game false) = false /\
     Game.run inputs (Game.Game false) = Game.Game false).
Proof.
  assert (Hrun : forall inputs g, Game.windowOpen g = false ->
                                  Game.run inputs g = g).
  { intros [| i rest] g H; cbn; [reflexivity | now rewrite H]. }
  split; [ | split; [exact Hrun | split]].
  - intros i g H. unfold Game.runIteration.
    pose proof (processEvents_windowOpen (Game.events i) g H) as H1.
    destruct (Game.state (Game.processEvents (Game.events i) g));
      try exact H1; try (now rewrite update_windowOpen).
    split_ifs; cbn; exact H1.
  - intros inputs g H. now rewrite Hrun.
  - intros inputs. split; [reflexivity | now apply Hrun].
Qed.

Lemma X10_witness :
  Game.windowOpen (Game.Game false) = false /\
  Game.run [quietFrame; quietFrame] (Game.Game false) = Game.Game false.
Proof.
  assert (H : Game.windowOpen (Game.Game false) = false) by reflexivity.
  split; [exact H | ].
  destruct X10_closed_window_stops as (_ & Hrun & _).
  exact (Hrun [quietFrame; quietFrame] (Game.Game false) H).
Defined.

(** ** The countdown between levels *)

Lemma runIteration_LevelComplete (i : Game.FrameInput) (g : Game.t) :
  Game.state g = LevelComplete ->
  0 < Game.levelCompleteTimer g - Rmin (Game.elapsed i) Game.MAX_FRAME_TIME ->
  exists wo,
    Game.runIteration i g =
    Game.setLevelCompleteTimer
      (F32.round
         (Game.levelCompleteTimer g - Rmin (Game.elapsed i) Game.MAX_FRAME_TIME))
      (Game.setWindowOpen wo g).
Proof.
  intros Hs Ht. unfold Game.runIteration.
  destruct (processEvents_LevelComplete (Game.events i) g Hs) as [wo ->].
  exists wo. cbn [Game.state Game.setWindowOpen]. rewrite Hs.
  cbn [Game.levelCompleteTimer Game.setLevelCompleteTimer Game.setWindowOpen].
  pose proof (round_pos _ Ht).
  destruct (Rle_dec _ 0); [lra | reflexivity].
Qed.

(** What rounding can take off a positive number. *)
Lemma round_lower (x : R) : 0 <= x -> x * (1 - u32) <= F32.round x.
Proof.
  intros Hx. pose proof (round_rel x) as H.
  rewrite (Rabs_pos_eq x) in H by lra. apply Rabs_bound in H. lra.
Qed.

Lemma shrink_pow_bounds (n : nat) :
  0 < (1 - u32) ^ n <= 1 /\ 1 - INR n * u32 <= (1 - u32) ^ n.
Proof.
  assert (Hu : 0 < u32 < 1) by (unfold u32; lra).
  induction n as [| n [[IH1 IH2] IH3]].
  - cbn. lra.
  - rewrite S_INR. cbn [pow]. split; [split | ]; nra.
Qed.

Lemma countdown_stays (inputs : list Game.FrameInput) :
  forall g,
    Game.state g = LevelComplete ->
    Game.MAX_FRAME_TIME * INR (length inputs) <
      Game.levelCompleteTimer g * (1 - u32) ^ length inputs ->
    let g' := Game.run inputs g in
    Game.state g' = LevelComplete /\
    Game.levelCompleteTimer g * (1 - u32) ^ length inputs -
      Game.MAX_FRAME_TIME * INR (length inputs) <=
      Game.levelCompleteTimer g' /\
    Game.level g' = Game.level g /\ Game.ballSpeed g' = Game.ballSpeed g /\
    Game.score g' = Game.score g /\ Game.lives g' = Game.lives g /\
    Game.bricks g' = Game.bricks g /\ Game.ball g' = Game.ball g /\
    Game.paddle g' = Game.paddle g.
Proof.
  pose proof MAX_FRAME_TIME_bounds as Hcap.
  assert (Hu : 0 < u32 < 1) by (unfold u32; lra).
  induction inputs as [| i rest IH]; intros g Hs Ht; cbn [Game.run length].
  - cbn in *. repeat split; try assumption; lra.
  - cbn [length pow] in Ht. rewrite S_INR in *. cbn [pow].
    pose proof (pos_INR (length rest)) as Hn.
    destruct (shrink_pow_bounds (length rest)) as [[Hp0 Hp1] _].
    set (q := (1 - u32) ^ length rest) in *.
    assert (Hq1 : 0 < (1 - u32) * q <= 1) by nra.
    assert (Htpos : 0 < Game.levelCompleteTimer g) by nra.
    assert (Hshr : Game.levelCompleteTimer g * ((1 - u32) * q) <=
                   Game.levelCompleteTimer g) by nra.
    destruct (Game.windowOpen g);
      [ | repeat split; try assumption; try reflexivity; nra].
    pose proof (Rmin_r (Game.elapsed i) Game.MAX_FRAME_TIME) as Hdt.
    set (d := Rmin (Game.elapsed i) Game.MAX_FRAME_TIME) in *.
    assert (Hpos : 0 < Game.levelCompleteTimer g - d) by nra.
    destruct (runIteration_LevelComplete i g Hs Hpos) as [wo ->].
    fold d.
    set (g1 := Game.setLevelCompleteTimer _ _).
    assert (Hs1 : Game.state g1 = LevelComplete) by exact Hs.
    assert (Hlow : (Game.levelCompleteTimer g - d) * (1 - u32) <=
                   Game.levelCompleteTimer g1).
    { apply round_lower. lra. }
    assert (Ht1 : Game.MAX_FRAME_TIME * INR (length rest) <
                  Game.levelCompleteTimer g1 * q).
    { apply Rlt_le_trans with
        ((Game.levelCompleteTimer g - d) * (1 - u32) * q); [nra | ].
      apply Rmult_le_compat_r; lra. }
    destruct (IH g1 Hs1 Ht1) as (H1 & H2 & H3 & H4 & H5 & H6 & H7 & H8 & H9).
    split; [exact H1 | ]. split; [ | repeat split; assumption].
    eapply Rle_trans; [ | exact H2].
    apply Rle_trans with
      ((Game.levelCompleteTimer g - d) * (1 - u32) * q -
       Game.MAX_FRAME_TIME * INR (length rest)); [nra | ].
    apply Rplus_le_compat_r. apply Rmult_le_compat_r; lra.
Qed.

(** X11. The countdown cannot be hurried.  A frame takes at most the
    binary32 number [0.05f] off the countdown, and the rounding of the
    difference takes at most one part in 2^24 of what is left.  So from
    [LevelComplete] with a countdown that, shrunk [n] times by that part,
    is more than [n] such frames, [n] frames later the game is still in
    [LevelComplete], at the same level and speed, with the same score,
    lives, bricks, ball and paddle, whatever the inputs.  With the two
    seconds the countdown starts from, the next level begins no sooner
    than the fortieth frame. *)
Theorem X11_countdown_not_hurried :
  (forall inputs g,
     Game.state g = LevelComplete ->
     Game.MAX_FRAME_TIME * INR (length inputs) <
       Game.levelCompleteTimer g * (1 - u32) ^ length inputs ->
     let g' := Game.run inputs g in
     Game.state g' = LevelComplete /\
     0 < Game.levelCompleteTimer g' /\
     Game.levelCompleteTimer g * (1 - u32) ^ length inputs -
       Game.MAX_FRAME_TIME * INR (length inputs) <=
       Game.levelCompleteTimer g' /\
     Game.level g' = Game.level g /\ Game.ballSpeed g' = Game.ballSpeed g /\
     Game.score g' = Game.score g /\ Game.lives g' = Game.lives g /\
     Game.bricks g' = Game.bricks g /\ Game.ball g' = Game.ball g /\
     Game.paddle g' = Game.paddle g) /\
  (forall inputs g,
     Game.state g = LevelComplete ->
     Game.levelCompleteTimer g = Constants.LEVEL_COMPLETE_DELAY ->
     (length inputs <= 39)%nat ->
     Game.state (Game.run inputs g) = LevelComplete /\
     Game.level (Game.run inputs g) = Game.level g).
Proof.
  split.
  - intros inputs g Hs Ht g'.
    destruct (countdown_stays inputs g Hs Ht)
      as (H1 & H2 & H3 & H4 & H5 & H6 & H7 & H8 & H9).
    fold g' in H1, H2, H3, H4, H5, H6, H7, H8, H9.
    repeat split; try assumption. lra.
  - intros inputs g Hs Ht Hlen.
    assert (Hroom : Game.MAX_FRAME_TIME * INR (length inputs) <
                    Game.levelCompleteTimer g * (1 - u32) ^ length inputs).
    { pose proof MAX_FRAME_TIME_bounds as Hcap.
      destruct (shrink_pow_bounds (length inputs)) as [_ Hb].
      assert (Hn : INR (length inputs) <= 39).
      { replace 39 with (INR 39) by (rewrite INR_IZR_INZ; reflexivity).
        now apply le_INR. }
      pose proof (pos_INR (length inputs)) as Hn0.
      rewrite Ht. unfold Constants.LEVEL_COMPLETE_DELAY.
      unfold u32 in *. nra. }
    destruct (countdown_stays inputs g Hs Hroom) as (H1 & _ & H3 & _).
    split; assumption.
Qed.

(** Two frames into the countdown that follows the frame on
    [oneBrickGame]. *)
Lemma X11_witness :
  Game.state oneBrickGameAfter = LevelComplete /\
  Game.levelCompleteTimer oneBrickGameAfter = Constants.LEVEL_COMPLETE_DELAY /\
  Game.state (Game.run [quietFrame; quietFrame] oneBrickGameAfter) =
    LevelComplete.
Proof.
  assert (Hs : Game.state oneBrickGameAfter = LevelComplete) by reflexivity.
  assert (Ht : Game.levelCompleteTimer oneBrickGameAfter =
               Constants.LEVEL_COMPLETE_DELAY) by reflexivity.
  assert (Hn : (length [quietFrame; quietFrame] <= 39)%nat) by (cbn; lia).
  split; [exact Hs | ]. split; [exact Ht | ].
  exact (proj1 (proj2 X11_countdown_not_hurried [quietFrame; quietFrame]
                      oneBrickGameAfter Hs Ht Hn)).
Defined.

(** ** Where the walls put the ball *)

(** X12. While the top edge of the ball is not below the window,
    [handleWallCollisions] keeps its radius and motion flag and puts its
    centre as follows.  Across the top wall, the height becomes the radius
    and the vertical velocity is not negative, and the centre keeps the
    horizontal position it came with, even one across a side wall.
    Otherwise the height is kept, and across the right wall the centre is
    put a radius inside it, else across the left wall a radius inside
    that, so that a ball no wider than the window ends between the side
    walls; the horizontal velocity points away from the side wall
    crossed. *)
Theorem X12_wall_positions (g : Game.t) :
  let pos := Ball.position (Game.ball g) in
  let rad := Ball.radius (Game.ball g) in
  let winW := IZR Constants.WINDOW_WIDTH in
  let g' := Game.handleWallCollisions g in
  let pos' := Ball.position (Game.ball g') in
  let vel' := Ball.velocity (Game.ball g') in
  sf.y pos - rad <= IZR Constants.WINDOW_HEIGHT ->
  Ball.radius (Game.ball g') = rad /\
  Ball.moving (Game.ball g') = Ball.moving (Game.ball g) /\
  (sf.y pos - rad < 0 ->
     pos' = sf.mkVector2f (sf.x pos) rad /\ 0 <= sf.y vel') /\
  (0 <= sf.y pos - rad ->
     sf.y pos' = sf.y pos /\
     sf.x pos' =
       (if Rgt_dec (sf.x pos + rad) winW then winW - rad
        else if Rlt_dec (sf.x pos - rad) 0 then rad else sf.x pos) /\
     (2 * rad <= winW -> rad <= sf.x pos' <= winW - rad)) /\
  (sf.x pos + rad > winW -> sf.x vel' <= 0) /\
  (sf.x pos - rad < 0 -> sf.x pos + rad <= winW -> 0 <= sf.x vel').
Proof.
  cbv zeta. intros Hb.
  unfold Game.handleWallCollisions, Ball.getPosition, Ball.getRadius,
    Ball.getVelocity.
  unfold Constants.WINDOW_WIDTH, Constants.WINDOW_HEIGHT in *.
  pose proof (Rabs_pos (sf.x (Ball.velocity (Game.ball g)))) as Hx.
  pose proof (Rabs_pos (sf.y (Ball.velocity (Game.ball g)))) as Hy.
  pose proof (Rabs_pos (Rabs (sf.x (Ball.velocity (Game.ball g))))) as Hxx.
  destruct (Rgt_dec (sf.y (Ball.position (Game.ball g)) -
                     Ball.radius (Game.ball g)) 600); [lra | ].
  split_walls; cbn; repeat split; intros; try reflexivity; try lra.
Qed.

(** A ball launched straight up that has crossed the top wall: it is put
    at its radius from the wall and sent down. *)
Lemma X12_witness :
  let g := Game.setBall
             (Ball.mk (sf.mkVector2f 400 5) (sf.mkVector2f 0 (- 320)) 8 true)
             oneBrickGame in
  5 - 8 <= 600 /\ 5 - 8 < 0 /\
  Ball.position (Game.ball (Game.handleWallCollisions g)) =
    sf.mkVector2f 400 8 /\
  0 <= sf.y (Ball.velocity (Game.ball (Game.handleWallCollisions g))).
Proof.
  intros g.
  assert (Hb : 5 - 8 <= 600) by lra.
  assert (Ht : 5 - 8 < 0) by lra.
  split; [exact Hb | ]. split; [exact Ht | ].
  destruct (X12_wall_positions g Hb) as (_ & _ & Htop & _).
  exact (Htop Ht).
Defined.

(** ** Where the paddle sends the ball *)






(** ** Where a brick sends the ball *)

(** The offset from the nearest point of an interval. *)
Lemma offset_lipschitz (x y lo hi : R) :
  lo <= hi ->
  Rabs ((x - clamp x lo hi) - (y - clamp y lo hi)) <= Rabs (x - y).
Proof.
  intros H. apply Rabs_le.
  assert (Hx : - Rabs (x - y) <= x - y <= Rabs (x - y))
    by (unfold Rabs; destruct (Rcase_abs (x - y)); lra).
  set (k := Rabs (x - y)) in *. clearbody k. minmax.
Qed.

(** Moving away from the interval along the offset adds to the offset. *)
Lemma offset_pushed (x lo hi m : R) :
  lo <= hi ->
  let a := x - clamp x lo hi in
  (0 < a -> 0 <= m) -> (a < 0 -> m <= 0) -> (a = 0 -> m = 0) ->
  (x + m) - clamp (x + m) lo hi = a + m.
Proof.
  intros H a Hp Hn Hz. subst a. unfold clamp, Rmax, Rmin in *.
  repeat match goal with
         | H : context [Rle_dec ?a ?b] |- _ => destruct (Rle_dec a b)
         | |- context [Rle_dec ?a ?b] => destruct (Rle_dec a b)
         end; try lra.
  all: try (assert (m = 0) by (apply Hz; lra); lra).
  all: try (assert (0 <= m) by (apply Hp; lra); lra).
  all: try (assert (m <= 0) by (apply Hn; lra); lra).
Qed.

(** The rounded quotient of the rounded offset by a positive length keeps
    the sign of the offset and is the exact quotient up to rounding. *)
Lemma normal_component (a dist : R) :
  0 < dist ->
  let n := F32.round (F32.round a / dist) in
  (0 < a -> 0 < n) /\ (a < 0 -> n < 0) /\ (a = 0 -> n = 0) /\
  Rabs (n * dist - a) <= 3 * u32 * Rabs a.
Proof.
  intros Hd n. pose proof (Rinv_0_lt_compat _ Hd) as Hi.
  split; [ | split; [ | split]].
  - intros Ha. apply round_pos. unfold Rdiv. apply Rmult_lt_0_compat; [ | exact Hi].
    now apply round_pos.
  - intros Ha. apply round_neg. pose proof (round_neg a Ha). unfold Rdiv. nra.
  - intros ->. unfold n. rewrite round_0. unfold Rdiv. rewrite Rmult_0_l.
    apply round_0.
  - pose proof (round_rel a) as H1.
    pose proof (round_rel (F32.round a / dist)) as H2. fold n in H2.
    assert (E : Rabs (F32.round a / dist) = Rabs (F32.round a) / dist).
    { unfold Rdiv. rewrite Rabs_mult, (Rabs_pos_eq (/ dist)) by lra. reflexivity. }
    rewrite E in H2.
    assert (H3 : Rabs (n * dist - F32.round a) <= u32 * Rabs (F32.round a)).
    { replace (n * dist - F32.round a)
        with ((n - F32.round a / dist) * dist) by (field; lra).
      rewrite Rabs_mult, (Rabs_pos_eq dist) by lra.
      apply Rle_trans with (u32 * (Rabs (F32.round a) / dist) * dist).
      - apply Rmult_le_compat_r; lra.
      - right. field. lra. }
    pose proof (Rabs_triang (F32.round a - a) a) as H4.
    replace (F32.round a - a + a) with (F32.round a) in H4 by ring.
    replace (n * dist - a) with ((n * dist - F32.round a) + (F32.round a - a))
      by ring.
    eapply Rle_trans; [apply Rabs_triang | ].
    pose proof (Rabs_pos a). unfold u32 in *. lra.
Qed.

(** The distance binary32 computes against the distance to the nearest
    point. *)
Lemma dist32_near (c : sf.Vector2f) (b : Brick.t) :
  let p := nearest32 c (Brick.getBounds b) in
  let A := sf.x c - sf.x p in
  let B := sf.y c - sf.y p in
  bnd (1 - / 4000000) (1 + / 4000000) (dist32 c b) (sqrt (A * A + B * B)).
Proof.
  intros p A B. pose proof u32_small as Hu.
  pose proof (length32_near (offsetX32 c b) (offsetY32 c b)) as H1.
  change (F32.round (sqrt (F32.round
            (F32.round (offsetX32 c b * offsetX32 c b) +
             F32.round (offsetY32 c b * offsetY32 c b)))))
    with (dist32 c b) in H1.
  unfold offsetX32, offsetY32 in H1. fold p A B in H1.
  pose proof (bnd_round_sq A) as HA. pose proof (bnd_round_sq B) as HB.
  pose proof (bnd_add _ _ _ _ _ _ HA HB) as HS.
  assert (Hq : 0 <= A * A + B * B) by nra.
  apply bnd_sqrt in HS; [ | exact Hq | lra | lra].
  apply (bnd_weaken ((1 - u32) * (1 - / 8000000)) ((1 + u32) * (1 + / 8000000)));
    [apply sqrt_pos | unfold u32; lra | unfold u32; lra | ].
  eapply bnd_trans; [apply sqrt_pos | | | | exact HS | exact H1]; lra.
Qed.

(** A brick that passes the test is within the radius, up to rounding. *)
Lemma collides32_dist (c : sf.Vector2f) (rad : R) (b : Brick.t) :
  0 <= rad -> collides32 c rad b = true ->
  dist32 c b <= rad * (1 + / 4000000).
Proof.
  intros Hr H. unfold collides32 in H. apply andb_prop in H as [_ H].
  destruct (Rlt_dec (distSq32 c b) (F32.round (rad * rad))) as [Hlt | ];
    [ | discriminate].
  pose proof u32_small as Hu.
  assert (Hrr : 0 <= rad * rad) by nra.
  destruct (bnd_round _ Hrr) as [_ H2].
  assert (H0 : 0 <= distSq32 c b).
  { unfold distSq32. apply round_nonneg.
    apply Rplus_le_le_0_compat; apply round_nonneg; nra. }
  assert (Hs : sqrt (distSq32 c b) <= rad * (1 + u32)).
  { rewrite <- (sqrt_square (rad * (1 + u32))) by nra.
    apply sqrt_le_1_alt. nra. }
  unfold dist32. destruct (bnd_round _ (sqrt_pos (distSq32 c b))) as [_ H3].
  set (q := sqrt (distSq32 c b)) in *. pose proof (sqrt_pos (distSq32 c b)) as Hq.
  fold q in Hq. clearbody q. unfold u32 in *. nra.
Qed.

(** The push of the brick response. *)
Lemma push32_bounds (rad dist : R) :
  0 <= rad <= 100 -> 0 < dist <= rad * (1 + / 4000000) ->
  let push := F32.round (F32.round (rad - dist) + 0.5) in
  rad - dist + 0.5 - / 10000 <= push <= rad - dist + 0.5 + / 10000 /\
  0.49 <= push.
Proof.
  intros Hr Hd push.
  pose proof (round_rel (rad - dist)) as H1.
  pose proof (round_rel (F32.round (rad - dist) + 0.5)) as H2. fold push in H2.
  assert (Ha : Rabs (rad - dist) <= 101) by (apply Rabs_le; lra).
  apply Rabs_bound in H1.
  set (q := F32.round (rad - dist)) in *. clearbody q.
  assert (Hb : Rabs (q + 0.5) <= 102) by (apply Rabs_le; unfold u32 in *; lra).
  apply Rabs_bound in H2. unfold u32 in *. split; [split | ]; lra.
Qed.

(** One coordinate of the centre after the push: the offset from the
    interval grows by the push along the normal, up to rounding. *)
Lemma pushed_component (x lo hi dist push : R) :
  lo <= hi -> Rabs x <= 10000 -> 0 < dist -> 0.49 <= push <= 101 ->
  let a := x - clamp x lo hi in
  let n := F32.round (F32.round a / dist) in
  let x' := F32.round (x + F32.round (n * push)) in
  let A := a + n * push in
  Rabs a <= dist * (1 + / 1000000) ->
  Rabs ((x' - clamp x' lo hi) - A) <= / 1000 /\
  Rabs a * (dist + push * (1 - 3 * u32)) <= Rabs A * dist /\
  Rabs A <= Rabs a + 1.001 * push.
Proof.
  intros Hlh Hx Hd Hp a n x' A Ha.
  destruct (normal_component a dist Hd) as (Hpos & Hneg & Hzero & Hn).
  fold n in Hpos, Hneg, Hzero, Hn.
  pose proof (Rabs_pos a) as Ha0. pose proof (Rabs_pos n) as Hn0.
  assert (Hn1 : Rabs n <= 1.001).
  { assert (H1 : Rabs (n * dist) <= Rabs a + 3 * u32 * Rabs a).
    { replace (n * dist) with ((n * dist - a) + a) by ring.
      eapply Rle_trans; [apply Rabs_triang | lra]. }
    rewrite Rabs_mult, (Rabs_pos_eq dist) in H1 by lra.
    unfold u32 in H1.
    set (k := Rabs n) in *. set (m := Rabs a) in *. clearbody k m.
    apply Rmult_le_reg_r with dist; [exact Hd | ]. lra. }
  assert (Hnp : Rabs (n * push) <= 1.001 * push).
  { rewrite Rabs_mult, (Rabs_pos_eq push) by lra.
    apply Rmult_le_compat_r; lra. }
  split; [ | split].
  - assert (E : (x + n * push) - clamp (x + n * push) lo hi = A).
    { apply (offset_pushed x lo hi (n * push) Hlh); fold a.
      - intros H. specialize (Hpos H). nra.
      - intros H. specialize (Hneg H). nra.
      - intros H. rewrite (Hzero H). ring. }
    rewrite <- E.
    eapply Rle_trans; [apply (offset_lipschitz _ _ lo hi Hlh) | ].
    pose proof (round_rel (n * push)) as H1.
    pose proof (round_rel (x + F32.round (n * push))) as H2. fold x' in H2.
    set (m := F32.round (n * push)) in *.
    pose proof (Rabs_triang (m - n * push) (n * push)) as H3.
    replace (m - n * push + n * push) with m in H3 by ring.
    pose proof (Rabs_triang x m) as H4.
    replace (x' - (x + n * push)) with ((x' - (x + m)) + (m - n * push)) by ring.
    eapply Rle_trans; [apply Rabs_triang | ].
    unfold u32 in *. lra.
  - assert (E : A * dist = a * (dist + push) + (n * dist - a) * push)
      by (unfold A; ring).
    rewrite <- (Rabs_pos_eq dist) at 2 by lra. rewrite <- Rabs_mult, E.
    pose proof (Rabs_triang (a * (dist + push) + (n * dist - a) * push)
                            (- ((n * dist - a) * push))) as H1.
    replace (a * (dist + push) + (n * dist - a) * push +
             - ((n * dist - a) * push)) with (a * (dist + push)) in H1 by ring.
    rewrite Rabs_Ropp in H1.
    rewrite (Rabs_mult a), (Rabs_pos_eq (dist + push)) in H1 by lra.
    rewrite (Rabs_mult (n * dist - a)), (Rabs_pos_eq push) in H1 by lra.
    set (L := Rabs (a * (dist + push) + (n * dist - a) * push)) in *.
    set (k := Rabs (n * dist - a)) in *. set (m := Rabs a) in *.
    clearbody L k m. unfold u32 in *. nra.
  - unfold A. eapply Rle_trans; [apply Rabs_triang | lra].
Qed.

Lemma sq_lower (t s : R) :
  0 <= s -> Rabs (t - s) <= / 1000 -> s * s - / 500 * Rabs s <= t * t.
Proof.
  intros Hs H. apply Rabs_bound in H. rewrite (Rabs_pos_eq s) by exact Hs.
  destruct (Rle_dec s (/ 500)) as [Hsmall | Hbig].
  - assert (0 <= t * t) by nra. nra.
  - assert (0 < t) by lra. nra.
Qed.

Lemma sq_lower_abs (t s : R) :
  Rabs (t - s) <= / 1000 -> s * s - / 500 * Rabs s <= t * t.
Proof.
  intros H. rewrite <- (Rabs_sq t), <- (Rabs_sq s).
  rewrite <- (Rabs_Rabsolu s) at 3.
  apply sq_lower; [apply Rabs_pos | ].
  eapply Rle_trans; [apply Rabs_triang_inv2 | exact H].
Qed.

(** After the push the centre is more than the radius away. *)
Lemma pushed_clear (cx cy lox hix loy hiy rad dist : R) :
  lox <= hix -> loy <= hiy -> Rabs cx <= 10000 -> Rabs cy <= 10000 ->
  0 <= rad <= 100 ->
  let a := cx - clamp cx lox hix in
  let b := cy - clamp cy loy hiy in
  0 < dist <= rad * (1 + / 4000000) ->
  bnd (1 - / 4000000) (1 + / 4000000) dist (sqrt (a * a + b * b)) ->
  let push := F32.round (F32.round (rad - dist) + 0.5) in
  let x' := F32.round (cx + F32.round (F32.round (F32.round a / dist) * push)) in
  let y' := F32.round (cy + F32.round (F32.round (F32.round b / dist) * push)) in
  let A' := x' - clamp x' lox hix in
  let B' := y' - clamp y' loy hiy in
  (rad + 0.4) * (rad + 0.4) <= A' * A' + B' * B'.
Proof.
  intros Hx Hy Hcx Hcy Hr a b Hd [Hb1 Hb2] push x' y' A' B'.
  destruct (push32_bounds rad dist Hr Hd) as [[Hp1 Hp2] Hp3]. fold push in Hp1, Hp2, Hp3.
  set (d := sqrt (a * a + b * b)) in *.
  assert (Hdd : d * d = a * a + b * b) by (apply sqrt_sqrt; nra).
  assert (Hd0 : 0 <= d) by apply sqrt_pos.
  assert (Ha : Rabs a <= dist * (1 + / 1000000)).
  { apply Rle_trans with d; [apply sq_abs_le; nra | lra]. }
  assert (Hb : Rabs b <= dist * (1 + / 1000000)).
  { apply Rle_trans with d; [apply sq_abs_le; nra | lra]. }
  assert (Hp : 0.49 <= push <= 101) by lra.
  destruct (pushed_component cx lox hix dist push Hx Hcx (proj1 Hd) Hp Ha)
    as (E1x & E2x & E3x).
  destruct (pushed_component cy loy hiy dist push Hy Hcy (proj1 Hd) Hp Hb)
    as (E1y & E2y & E3y).
  fold a x' A' in E1x, E2x, E3x. fold b y' B' in E1y, E2y, E3y.
  set (Ax := a + F32.round (F32.round a / dist) * push) in *.
  set (Ay := b + F32.round (F32.round b / dist) * push) in *.
  apply sq_lower_abs in E1x, E1y.
  pose proof (Rabs_pos a) as Ha0. pose proof (Rabs_pos b) as Hb0.
  pose proof (Rabs_pos Ax) as HAx0. pose proof (Rabs_pos Ay) as HAy0.
  pose proof (Rabs_sq a) as Sa. pose proof (Rabs_sq b) as Sb.
  pose proof (Rabs_sq Ax) as SAx. pose proof (Rabs_sq Ay) as SAy.
  set (S := dist + push * (1 - 3 * u32)) in *.
  assert (HS : rad + 0.499 <= S) by (unfold S, u32; lra).
  assert (HaS : 0 <= Rabs a * S) by (apply Rmult_le_pos; lra).
  assert (HbS : 0 <= Rabs b * S) by (apply Rmult_le_pos; lra).
  assert (Q1 : Rabs a * S * (Rabs a * S) <= Rabs Ax * dist * (Rabs Ax * dist))
    by (apply Rmult_le_compat; assumption).
  assert (Q2 : Rabs b * S * (Rabs b * S) <= Rabs Ay * dist * (Rabs Ay * dist))
    by (apply Rmult_le_compat; assumption).
  assert (Q3 : d * d * (S * S) <= (Ax * Ax + Ay * Ay) * (dist * dist)).
  { rewrite Hdd, <- Sa, <- Sb, <- SAx, <- SAy. lra. }
  assert (Q4 : dist * dist <= d * d * ((1 + / 4000000) * (1 + / 4000000))) by nra.
  assert (Hdpos : 0 < d) by nra.
  assert (Q5 : S * S <= (Ax * Ax + Ay * Ay) * ((1 + / 4000000) * (1 + / 4000000))).
  { assert (HN : 0 <= Ax * Ax + Ay * Ay) by nra.
    assert (Q6 : d * d * (S * S) <=
                 d * d * ((Ax * Ax + Ay * Ay) * ((1 + / 4000000) * (1 + / 4000000)))).
    { apply Rle_trans with ((Ax * Ax + Ay * Ay) * (dist * dist)); [exact Q3 | ].
      replace (d * d * ((Ax * Ax + Ay * Ay) * ((1 + / 4000000) * (1 + / 4000000))))
        with ((Ax * Ax + Ay * Ay) * (d * d * ((1 + / 4000000) * (1 + / 4000000))))
        by ring.
      apply Rmult_le_compat_l; assumption. }
    apply Rmult_le_reg_l with (d * d); [nra | exact Q6]. }
  assert (Q7 : (rad + 0.45) * (rad + 0.45) <= Ax * Ax + Ay * Ay).
  { assert (T1 : (rad + 0.45) * (1 + / 4000000) <= S) by lra.
    assert (T2 : (rad + 0.45) * (1 + / 4000000) * ((rad + 0.45) * (1 + / 4000000))
                 <= S * S) by (apply Rmult_le_compat; lra).
    apply Rmult_le_reg_r with ((1 + / 4000000) * (1 + / 4000000)); [lra | ].
    eapply Rle_trans; [ | exact Q5]. lra. }
  assert (HAxU : Rabs Ax <= 1.001 * rad + 0.7) by lra.
  assert (HAyU : Rabs Ay <= 1.001 * rad + 0.7) by lra.
  clearbody Ax Ay A' B'. nra.
Qed.

Lemma normaliseSpeed32_position (s : R) (b : Ball.t) :
  Ball.position (Ball32.normaliseSpeed s b) = Ball.position b.
Proof.
  unfold Ball32.normaliseSpeed. destruct (Rlt_dec _ _); reflexivity.
Qed.

(** X14. The push clears the brick, in binary32.  Let the first brick that
    passes the test of [handleBrickCollisions] have a rectangle whose right
    and bottom edges, as computed, are not before its left and top edges,
    let the distance to it, as computed, be more than [0.0001f], the radius
    at most 100 and the centre within 10000 of the origin in each
    coordinate.  Then the push along the normal by the penetration depth
    plus a half leaves the centre more than the radius plus 0.4 away from
    the rectangle, and the squared distance binary32 computes is not below
    the squared radius it computes: the test fails for that brick, whether
    it still stands or not. *)
Theorem X14_push_clears_brick (g : Game.t) (b1 : Brick.t) :
  let c := Ball.position (Game.ball g) in
  let rad := Ball.radius (Game.ball g) in
  let rect := Brick.getBounds b1 in
  let c' := Ball.position (Game.ball (Game32.handleBrickCollisions g)) in
  let p' := nearest32 c' rect in
  find (collides32 c rad) (Game.bricks g) = Some b1 ->
  sf.left rect <= F32.round (sf.left rect + sf.width rect) ->
  sf.top rect <= F32.round (sf.top rect + sf.height rect) ->
  dist32 c b1 > F32.round 0.0001 ->
  0 <= rad <= 100 -> Rabs (sf.x c) <= 10000 -> Rabs (sf.y c) <= 10000 ->
  (rad + 0.4) * (rad + 0.4) <=
    (sf.x c' - sf.x p') * (sf.x c' - sf.x p') +
    (sf.y c' - sf.y p') * (sf.y c' - sf.y p') /\
  F32.round (rad * rad) <= distSq32 c' b1 /\
  collides32 c' rad b1 = false /\ collides32 c' rad (Brick.hit b1) = false.
Proof.
  intros c rad rect c' p' Hfind Hw Hh Hfar Hrad Hcx Hcy.
  pose proof guard_bounds as Hg.
  assert (Hcol : collides32 c rad b1 = true) by (apply (find_some _ _ Hfind)).
  pose proof (collides32_dist c rad b1 (proj1 Hrad) Hcol) as Hdist.
  pose proof (dist32_near c b1) as Hnear. cbv zeta in Hnear.
  assert (Hc' : c' =
    sf.mkVector2f
      (F32.round (sf.x c + F32.round (F32.round (offsetX32 c b1 / dist32 c b1) *
         F32.round (F32.round (rad - dist32 c b1) + 0.5))))
      (F32.round (sf.y c + F32.round (F32.round (offsetY32 c b1 / dist32 c b1) *
         F32.round (F32.round (rad - dist32 c b1) + 0.5))))).
  { unfold c'. destruct (handleBrickCollisions32_ball g) as [_ Eb].
    cbv zeta in Eb. fold c rad in Eb. rewrite Hfind in Eb. rewrite Eb.
    unfold respond32. rewrite normaliseSpeed32_position.
    rewrite (normalOf32_far c b1 Hfar). reflexivity. }
  assert (Hmain :
    (rad + 0.4) * (rad + 0.4) <=
    (sf.x c' - sf.x p') * (sf.x c' - sf.x p') +
    (sf.y c' - sf.y p') * (sf.y c' - sf.y p')).
  { unfold p', nearest32. cbn [sf.x sf.y]. rewrite Hc'. cbn [sf.x sf.y].
    unfold offsetX32, offsetY32, nearest32. cbn [sf.x sf.y]. fold rect.
    apply (pushed_clear (sf.x c) (sf.y c) (sf.left rect)
             (F32.round (sf.left rect + sf.width rect)) (sf.top rect)
             (F32.round (sf.top rect + sf.height rect)) rad (dist32 c b1));
      try assumption.
    lra. }
  assert (Hsq : F32.round (rad * rad) <= distSq32 c' b1).
  { pose proof (distSq32_floor c' b1) as Hfl. cbv zeta in Hfl.
    fold rect p' in Hfl.
    assert (Hrr : 0 <= rad * rad) by nra.
    destruct (bnd_round _ Hrr) as [_ Hup]. unfold u32 in Hup.
    set (N := (sf.x c' - sf.x p') * (sf.x c' - sf.x p') +
              (sf.y c' - sf.y p') * (sf.y c' - sf.y p')) in *.
    clearbody N. nra. }
  split; [exact Hmain | ]. split; [exact Hsq | ].
  assert (Hno : forall b, Brick.getBounds b = Brick.getBounds b1 ->
                          collides32 c' rad b = false).
  { intros b Hb. unfold collides32.
    assert (E : distSq32 c' b = distSq32 c' b1)
      by (unfold distSq32, offsetX32, offsetY32; now rewrite Hb).
    rewrite E.
    destruct (Rlt_dec _ _) as [Hlt | _]; [lra | apply andb_false_r]. }
  split; [now apply Hno | apply Hno, hit_frame].
Qed.

(** The ball of [oneBrickGame] one frame on, half a pixel into the
    brick above it. *)
Lemma closeGame_collides32 :
  collides32 (sf.mkVector2f 76 91) 8 firstBrick = true /\
  dist32 (sf.mkVector2f 76 91) firstBrick = 7.5.
Proof.
  unfold dist32, collides32, distSq32, offsetX32, offsetY32.
  rewrite firstBrick_nearest32. cbn [sf.x sf.y].
  assert (Ex : clamp 76 40.5 111.5 = 76) by minmax.
  assert (Ey : clamp 91 58.5 83.5 = 83.5) by minmax.
  rewrite Ex, Ey.
  round_to (76 - 76) 0 0%Z 0%Z.
  round_to (91 - 83.5) 7.5 15%Z (- 1)%Z.
  round_to (0 * 0) 0 0%Z 0%Z.
  round_to (7.5 * 7.5) 56.25 225%Z (- 2)%Z.
  round_to (0 + 56.25) 56.25 225%Z (- 2)%Z.
  round_to (8 * 8) 64 64%Z 0%Z.
  split.
  - cbn. rdec. reflexivity.
  - replace 56.25 with (7.5 * 7.5) by lra. rewrite sqrt_square by lra.
    round_to 7.5 7.5 15%Z (- 1)%Z. reflexivity.
Qed.

Lemma X14_witness :
  let g := Game.setBall
             (Ball.mk (sf.mkVector2f 76 91) (sf.mkVector2f 0 (- 320)) 8 true)
             oneBrickGame in
  find (collides32 (sf.mkVector2f 76 91) 8) (Game.bricks g) = Some firstBrick /\
  dist32 (sf.mkVector2f 76 91) firstBrick > F32.round 0.0001 /\
  collides32 (Ball.position (Game.ball (Game32.handleBrickCollisions g))) 8
             firstBrick = false.
Proof.
  intros g. destruct closeGame_collides32 as [Hcol Hdist].
  pose proof guard_bounds as Hg.
  assert (Hfind : find (collides32 (sf.mkVector2f 76 91) 8) (Game.bricks g) =
                  Some firstBrick)
    by (cbn [find g Game.bricks Game.setBall oneBrickGame]; now rewrite Hcol).
  assert (Hd : dist32 (sf.mkVector2f 76 91) firstBrick > F32.round 0.0001)
    by (rewrite Hdist; lra).
  split; [exact Hfind | ]. split; [exact Hd | ].
  assert (Hw : sf.left (Brick.getBounds firstBrick) <=
               F32.round (sf.left (Brick.getBounds firstBrick) +
                          sf.width (Brick.getBounds firstBrick))).
  { rewrite firstBrick_bounds. cbn [sf.left sf.width].
    round_to (42 - 1.5 + (68 + 2 * 1.5)) 111.5 223%Z (- 1)%Z. lra. }
  assert (Hh : sf.top (Brick.getBounds firstBrick) <=
               F32.round (sf.top (Brick.getBounds firstBrick) +
                          sf.height (Brick.getBounds firstBrick))).
  { rewrite firstBrick_bounds. cbn [sf.top sf.height].
    round_to (60 - 1.5 + (22 + 2 * 1.5)) 83.5 167%Z (- 1)%Z. lra. }
  assert (Hr : 0 <= Ball.radius (Game.ball g) <= 100) by (cbn; lra).
  assert (Hx : Rabs (sf.x (Ball.position (Game.ball g))) <= 10000)
    by (cbn; rewrite Rabs_pos_eq; lra).
  assert (Hy : Rabs (sf.y (Ball.position (Game.ball g))) <= 10000)
    by (cbn; rewrite Rabs_pos_eq; lra).
  exact (proj1 (proj2 (proj2
           (X14_push_clears_brick g firstBrick Hfind Hw Hh Hd Hr Hx Hy)))).
Defined.

(** ** The layout of the grid *)

Lemma gridStartX_42 : gridStartX = 42.
Proof.
  unfold gridStartX, Constants.WINDOW_WIDTH, Constants.BRICK_COLS,
    Constants.BRICK_WIDTH, Constants.BRICK_PADDING. cbn. lra.
Qed.

Lemma brickAt_bounds (e : Z) (row col : nat) :
  Brick.getBounds (Game.brickAt e gridStartX row col) =
  sf.mkFloatRect (42 + INR col * 72 - 1.5) (60 + INR row * 26 - 1.5) 71 25.
Proof.
  unfold Game.brickAt, Brick.getBounds, Brick.Brick, Brick.updateColor,
    sf.getGlobalBounds, Constants.BRICK_WIDTH, Constants.BRICK_HEIGHT,
    Constants.BRICK_PADDING, Constants.BRICK_TOP_OFFSET.
  cbn. rewrite gridStartX_42. f_equal; lra.
Qed.

Lemma INR_lt_succ (n m : nat) : (n < m)%nat -> INR n + 1 <= INR m.
Proof. intros H. rewrite <- S_INR. apply le_INR. lia. Qed.

Lemma INR_le_pred (n m : nat) : (n < S m)%nat -> INR n <= INR m.
Proof. intros H. apply le_INR. lia. Qed.

Lemma grid_brick_bounds (g : Game.t) (b : Brick.t) :
  In b (Game.bricks (Game.createBricks g)) ->
  let r := Brick.getBounds b in
  sf.width r = 71 /\ sf.height r = 25 /\
  40.5 <= sf.left r /\
  sf.left r + sf.width r <= IZR Constants.WINDOW_WIDTH - 40.5 /\
  58.5 <= sf.top r /\ sf.top r + sf.height r <= 213.5.
Proof.
  intros Hb. apply createBricks_In in Hb as (row & col & Hrow & Hcol & ->).
  rewrite brickAt_bounds. cbn [sf.left sf.top sf.width sf.height].
  pose proof (pos_INR row). pose proof (pos_INR col).
  pose proof (INR_le_pred row 5 Hrow) as Hr.
  pose proof (INR_le_pred col 9 Hcol) as Hc.
  unfold Constants.WINDOW_WIDTH. cbn in Hr, Hc. repeat split; lra.
Qed.

(** X15. The grid [createBricks] lays out.  The rectangle of every brick
    is 71 by 25 pixels with its outline; it lies between x = 40.5 and
    x = 759.5, which leaves the same margin on both sides of the window,
    and between y = 58.5 and y = 213.5; and the rectangles of any two
    distinct bricks are at least one pixel apart. *)
Theorem X15_grid_layout (g : Game.t) :
  (forall b, In b (Game.bricks (Game.createBricks g)) ->
     let r := Brick.getBounds b in
     sf.width r = 71 /\ sf.height r = 25 /\
     40.5 <= sf.left r /\
     sf.left r + sf.width r <= IZR Constants.WINDOW_WIDTH - 40.5 /\
     58.5 <= sf.top r /\ sf.top r + sf.height r <= 213.5) /\
  (forall b b', In b (Game.bricks (Game.createBricks g)) ->
     In b' (Game.bricks (Game.createBricks g)) -> b <> b' ->
     apart (Brick.getBounds b) (Brick.getBounds b')).
Proof.
  split.
  - intros b Hb. exact (grid_brick_bounds g b Hb).
  - intros b b' Hb Hb' Hne.
    apply createBricks_In in Hb as (row & col & Hrow & Hcol & ->).
    apply createBricks_In in Hb' as (row' & col' & Hrow' & Hcol' & ->).
    rewrite !brickAt_bounds. unfold apart.
    cbn [sf.left sf.top sf.width sf.height].
    destruct (Nat.lt_total col col') as [Hlt | [Heq | Hgt]].
    + left. pose proof (INR_lt_succ _ _ Hlt). lra.
    + subst col'. destruct (Nat.lt_total row row') as [Hlt | [Heq | Hgt]].
      * right. right. left. pose proof (INR_lt_succ _ _ Hlt). lra.
      * subst row'. contradiction.
      * right. right. right. pose proof (INR_lt_succ _ _ Hgt). lra.
    + right. left. pose proof (INR_lt_succ _ _ Hgt). lra.
Qed.

(** The first two bricks of the constructed game. *)
Lemma X15_witness :
  let g := Game.createBricks (Game.Game true) in
  In (Game.brickAt 0 gridStartX 0 0) (Game.bricks g) /\
  In (Game.brickAt 0 gridStartX 0 1) (Game.bricks g) /\
  Game.brickAt 0 gridStartX 0 0 <> Game.brickAt 0 gridStartX 0 1 /\
  apart (Brick.getBounds (Game.brickAt 0 gridStartX 0 0))
        (Brick.getBounds (Game.brickAt 0 gridStartX 0 1)).
Proof.
  intros g.
  assert (H0 : In (Game.brickAt 0 gridStartX 0 0) (Game.bricks g))
    by (apply createBricks_In; exists 0%nat, 0%nat;
        unfold Constants.BRICK_ROWS, Constants.BRICK_COLS;
        repeat split; lia).
  assert (H1 : In (Game.brickAt 0 gridStartX 0 1) (Game.bricks g))
    by (apply createBricks_In; exists 0%nat, 1%nat;
        unfold Constants.BRICK_ROWS, Constants.BRICK_COLS;
        repeat split; lia).
  assert (Hne : Game.brickAt 0 gridStartX 0 0 <> Game.brickAt 0 gridStartX 0 1).
  { intros E. apply (f_equal Brick.getBounds) in E.
    rewrite !brickAt_bounds in E. apply (f_equal sf.left) in E.
    cbn in E. lra. }
  split; [exact H0 | ]. split; [exact H1 | ]. split; [exact Hne | ].
  exact (proj2 (X15_grid_layout (Game.Game true)) _ _ H0 H1 Hne).
Defined.

Lemma hits_bounds (k : nat) :
  forall b, Brick.getBounds (hits k b) = Brick.getBounds b.
Proof.
  induction k as [| k IH]; intros b; [reflexivity | ].
  rewrite hits_S, IH. apply hit_frame.
Qed.

Lemma gridBrick_bottom (b : Brick.t) :
  gridBrick b ->
  0 <= sf.height (Brick.getBounds b) /\
  sf.top (Brick.getBounds b) + sf.height (Brick.getBounds b) <= 213.5.
Proof.
  intros (g0 & b0 & k & Hin & ->). rewrite hits_bounds.
  destruct (grid_brick_bounds g0 b0 Hin) as (_ & Hh & _ & _ & _ & Hbot).
  split; lra.
Qed.

(** A ball whose top edge is at or below the lower edge of a brick does
    not reach it. *)
Lemma below_no_collision (c : sf.Vector2f) (rad : R) (b : Brick.t) :
  0 <= rad -> 0 <= sf.height (Brick.getBounds b) ->
  sf.top (Brick.getBounds b) + sf.height (Brick.getBounds b) <= sf.y c - rad ->
  collides c rad b = false.
Proof.
  intros Hr Hh Hb. unfold collides.
  assert (Hy : offsetY c b =
               sf.y c - (sf.top (Brick.getBounds b) + sf.height (Brick.getBounds b))).
  { unfold offsetY, nearest. cbn [sf.y]. f_equal. minmax. }
  assert (Hd : rad * rad <= distSq c b).
  { unfold distSq. rewrite Hy. set (ox := offsetX c b). nra. }
  destruct (Rlt_dec _ _); [lra | apply andb_false_r].
Qed.

(** X16. Out of reach of the bricks.  In a game whose bricks are bricks of
    a fresh grid after any number of hits, a ball whose top edge is at
    y = 213.5 or lower touches no brick, and [handleBrickCollisions]
    changes nothing. *)
Theorem X16_below_the_grid (g : Game.t) :
  Forall gridBrick (Game.bricks g) ->
  0 <= Ball.radius (Game.ball g) ->
  213.5 <= sf.y (Ball.position (Game.ball g)) - Ball.radius (Game.ball g) ->
  Forall (fun b => collides (Ball.position (Game.ball g))
                            (Ball.radius (Game.ball g)) b = false)
         (Game.bricks g) /\
  Game.handleBrickCollisions g = g.
Proof.
  intros Hgrid Hr Hy.
  assert (Hnone : Forall (fun b => collides (Ball.position (Game.ball g))
                                            (Ball.radius (Game.ball g)) b = false)
                         (Game.bricks g)).
  { eapply Forall_impl; [ | exact Hgrid]. intros b Hb.
    destruct (gridBrick_bottom b Hb) as [Hh Hbot].
    apply below_no_collision; lra. }
  split; [exact Hnone | now apply handleBrickCollisions_none].
Qed.

(** The constructed game, whose ball rests above the paddle. *)
Lemma X16_witness :
  let g := Game.Game true in
  Forall gridBrick (Game.bricks g) /\ 0 <= Ball.radius (Game.ball g) /\
  213.5 <= sf.y (Ball.position (Game.ball g)) - Ball.radius (Game.ball g) /\
  Game.handleBrickCollisions g = g.
Proof.
  intros g.
  assert (Hgrid : Forall gridBrick (Game.bricks g)).
  { apply Forall_forall. intros b Hb. exists g, b, 0%nat. split; [exact Hb | reflexivity]. }
  assert (Hr : 0 <= Ball.radius (Game.ball g))
    by (cbn; unfold Constants.BALL_RADIUS; lra).
  assert (Hy : 213.5 <= sf.y (Ball.position (Game.ball g)) -
                        Ball.radius (Game.ball g)).
  { cbn. unfold Constants.BALL_RADIUS, Constants.WINDOW_HEIGHT,
      Constants.PADDLE_Y_OFFSET. lra. }
  split; [exact Hgrid | ]. split; [exact Hr | ]. split; [exact Hy | ].
  exact (proj2 (X16_below_the_grid g Hgrid Hr Hy)).
Defined.

(** ** What holds of every game that a run can reach *)

Lemma ROW_POINTS_nonneg (row : nat) : (0 <= nth row Game.ROW_POINTS 0)%Z.
Proof. do 7 (destruct row as [| row]; [cbn; lia | ]). cbn. lia. Qed.

Lemma ROW_BASE_nonneg (row : nat) : (0 <= nth row Game.ROW_BASE_HIT_POINTS 0)%Z.
Proof. do 7 (destruct row as [| row]; [cbn; lia | ]). cbn. lia. Qed.

Lemma createBricks_points (g : Game.t) :
  Forall (fun b => (0 <= Brick.points b)%Z) (Game.bricks (Game.createBricks g)).
Proof.
  apply Forall_forall. intros b Hb.
  apply createBricks_In in Hb as (row & col & _ & _ & ->).
  destruct (brickAt_fields (extraOf (Game.level g)) gridStartX row col)
    as (_ & Hmax & _ & ->).
  rewrite Hmax. pose proof (ROW_POINTS_nonneg row).
  pose proof (ROW_BASE_nonneg row). unfold extraOf. nia.
Qed.

Lemma createBricks_grid (g : Game.t) :
  Forall gridBrick (Game.bricks (Game.createBricks g)).
Proof.
  apply Forall_forall. intros b Hb. exists g, b, 0%nat. now split.
Qed.

Lemma createBricks_banked (g : Game.t) :
  (1 <= Game.level g)%Z ->
  totalPoints (Game.bricks (Game.createBricks g)) = (2100 * Game.level g)%Z /\
  standingPoints (Game.bricks (Game.createBricks g)) = (2100 * Game.level g)%Z.
Proof.
  intros Hl.
  assert (E : totalPoints (Game.bricks (Game.createBricks g)) =
              (2100 * Game.level g)%Z).
  { rewrite createBricks_totalPoints, levelValue_closed. unfold extraOf. lia. }
  split; [exact E | ].
  now rewrite standingPoints_all_standing by apply createBricks_standing.
Qed.

Lemma paddleAt_centre (x : R) :
  Paddle.setPositionX
    ((IZR Constants.WINDOW_WIDTH - Constants.PADDLE_WIDTH) * 0.5) (paddleAt x) =
  paddleAt ((IZR Constants.WINDOW_WIDTH - Constants.PADDLE_WIDTH) * 0.5).
Proof. reflexivity. Qed.

Lemma centre_in_range :
  0 <= (IZR Constants.WINDOW_WIDTH - Constants.PADDLE_WIDTH) * 0.5
    <= IZR Constants.WINDOW_WIDTH - Constants.PADDLE_WIDTH.
Proof. unfold Constants.WINDOW_WIDTH, Constants.PADDLE_WIDTH. lra. Qed.

Lemma paddleAt_update (kb : sf.Keyboard) (dt x : R) :
  0 <= x <= IZR Constants.WINDOW_WIDTH - Constants.PADDLE_WIDTH ->
  exists x',
    0 <= x' <= IZR Constants.WINDOW_WIDTH - Constants.PADDLE_WIDTH /\
    Paddle.update kb dt (IZR Constants.WINDOW_WIDTH) (paddleAt x) = paddleAt x'.
Proof.
  intros Hx.
  exists (clamp (x + intent kb * Constants.PADDLE_SPEED * dt) 0
                (IZR Constants.WINDOW_WIDTH - Constants.PADDLE_WIDTH)).
  split; [minmax | ].
  pose proof (update_newX kb dt (IZR Constants.WINDOW_WIDTH) (paddleAt x)) as E.
  unfold paddleX in E. cbn [paddleAt Paddle.Paddle Paddle.shape sf.position
    sf.x Paddle.speed Paddle.width] in E.
  unfold Paddle.update in *. unfold paddleAt, Paddle.Paddle, sf.setPosition in *.
  cbn in *. now rewrite E.
Qed.

(** A level set up afresh: [createBricks] then [resetBallOnPaddle]. *)
Lemma fresh_level_inv (g : Game.t) :
  (1 <= Game.level g <= Constants.MAX_LEVELS)%Z ->
  (0 <= Game.lives g <= Constants.INITIAL_LIVES)%Z ->
  Game.ballSpeed g =
    Constants.BALL_INITIAL_SPEED +
    Constants.BALL_SPEED_STEP * IZR (Game.level g - 1) ->
  (exists x, 0 <= x <= IZR Constants.WINDOW_WIDTH - Constants.PADDLE_WIDTH /\
             Game.paddle g = paddleAt x) ->
  Ball.radius (Game.ball g) = Constants.BALL_RADIUS ->
  Game.score g = (1050 * Game.level g * (Game.level g - 1))%Z ->
  gameInv (Game.resetBallOnPaddle (Game.createBricks g)).
Proof.
  intros Hl Hv Hs Hp Hr Hsc.
  destruct (createBricks_banked g (proj1 Hl)) as [Htot Hst].
  apply mkGameInv.
  - exact Hl.
  - exact Hv.
  - exact Hs.
  - discriminate.
  - discriminate.
  - discriminate.
  - discriminate.
  - intros [H | H]; discriminate.
  - apply (board_countInv _ _ (resetBallOnPaddle_board _)).
    apply createBricks_countInv.
  - unfold banked. cbn [Game.resetBallOnPaddle Game.setState Game.setBall
      Game.score Game.bricks Game.level].
    change (Game.score (Game.createBricks g)) with (Game.score g).
    change (Game.level (Game.createBricks g)) with (Game.level g).
    rewrite Hst, Hsc. nia.
  - exact Htot.
  - apply createBricks_points.
  - apply createBricks_grid.
  - exact Hp.
  - exact Hr.
  - intros _. unfold Game.resetBallOnPaddle, Ball.reset, restingBall.
    cbn [Game.ball Game.paddle Game.setState Game.setBall].
    change (Game.ball (Game.createBricks g)) with (Game.ball g).
    change (Game.paddle (Game.createBricks g)) with (Game.paddle g).
    now rewrite Hr.
  - intros [H | [H | H]]; discriminate.
Qed.

Lemma restartGame_inv (g : Game.t) :
  (exists x, 0 <= x <= IZR Constants.WINDOW_WIDTH - Constants.PADDLE_WIDTH /\
             Game.paddle g = paddleAt x) ->
  Ball.radius (Game.ball g) = Constants.BALL_RADIUS ->
  gameInv (Game.restartGame g).
Proof.
  intros (x & Hx & Hp) Hr. unfold Game.restartGame. apply fresh_level_inv; cbn.
  - unfold Constants.MAX_LEVELS. lia.
  - unfold Constants.INITIAL_LIVES. lia.
  - lra.
  - exists ((IZR Constants.WINDOW_WIDTH - Constants.PADDLE_WIDTH) * 0.5).
    split; [apply centre_in_range | ]. rewrite Hp. apply paddleAt_centre.
  - exact Hr.
  - reflexivity.
Qed.

Lemma cleared_score (g : Game.t) :
  countInv g -> (Game.bricksRemaining g <= 0)%Z -> Game.score g = banked g.
Proof.
  intros Hc Hz. unfold countInv in Hc. pose proof (countStanding_nonneg (Game.bricks g)).
  assert (E : countStanding (Game.bricks g) = 0%Z) by lia.
  apply countStanding_zero in E. unfold banked.
  rewrite (standingPoints_all_destroyed _ E). lia.
Qed.

Lemma advanceLevel_inv (g : Game.t) :
  gameInv g -> Game.state g = LevelComplete -> gameInv (Game.advanceLevel g).
Proof.
  intros H Hs. unfold Game.advanceLevel.
  pose proof (inv_complete g H Hs) as Hlt. pose proof (inv_level g H) as Hl.
  destruct (inv_paddle g H) as (x & Hx & Hp).
  apply fresh_level_inv;
    cbn [Game.level Game.lives Game.ballSpeed Game.paddle Game.ball Game.score
         Game.setLevel Game.setBallSpeed Game.setPaddle].
  - lia.
  - apply (inv_lives g H).
  - rewrite (inv_speed g H).
    replace (Game.level g + 1 - 1)%Z with (Game.level g) by lia.
    rewrite minus_IZR.
    assert (Hl4 : IZR (Game.level g) <= 4)
      by (apply (IZR_le _ 4); unfold Constants.MAX_LEVELS in Hlt; lia).
    unfold Constants.BALL_INITIAL_SPEED, Constants.BALL_SPEED_STEP,
      Constants.BALL_MAX_SPEED. rewrite Rmin_left; lra.
  - exists ((IZR Constants.WINDOW_WIDTH - Constants.PADDLE_WIDTH) * 0.5).
    split; [apply centre_in_range | ]. rewrite Hp. apply paddleAt_centre.
  - apply (inv_radius g H).
  - rewrite (cleared_score g (inv_count g H) (inv_cleared g H (or_introl Hs))).
    rewrite (inv_banked g H). nia.
Qed.

Lemma Game_inv : gameInv (Game.Game true).
Proof.
  unfold Game.Game. cbn [negb]. apply fresh_level_inv; cbn.
  - unfold Constants.MAX_LEVELS. lia.
  - unfold Constants.INITIAL_LIVES. lia.
  - lra.
  - exists ((IZR Constants.WINDOW_WIDTH - Constants.PADDLE_WIDTH) * 0.5).
    split; [apply centre_in_range | reflexivity].
  - reflexivity.
  - reflexivity.
Qed.

Lemma setWindowOpen_inv (wo : bool) (g : Game.t) :
  gameInv g -> gameInv (Game.setWindowOpen wo g).
Proof. intros H. inv_facts H. apply mkGameInv; assumption. Qed.

(** Between play, pause and the controls screen opened from pause. *)
Lemma pause_inv (s' : GameState) (g : Game.t) :
  gameInv g ->
  Game.state g = Playing \/ Game.state g = Paused \/ Game.state g = Controls ->
  s' = Playing \/ s' = Paused ->
  gameInv (Game.setState s' g).
Proof.
  intros H Hs Hs'. inv_facts H.
  apply mkGameInv; cbn [Game.setState Game.state Game.level Game.lives
    Game.ballSpeed Game.previousState Game.bricksRemaining Game.bricks
    Game.paddle Game.ball]; try assumption;
    destruct Hs' as [-> | ->]; try inv_easy; intros _; auto.
Qed.

Lemma controls_inv (g : Game.t) :
  gameInv g -> Game.state g = Paused ->
  gameInv (Game.setState Controls (Game.setPreviousState Paused g)).
Proof.
  intros H Hs. inv_facts H.
  apply mkGameInv; cbn [Game.setState Game.setPreviousState Game.state
    Game.level Game.lives Game.ballSpeed Game.previousState
    Game.bricksRemaining Game.bricks Game.paddle Game.ball];
    try assumption; try inv_easy; intros _; auto.
Qed.

Lemma launch_inv (rnd : Z) (g : Game.t) :
  gameInv g -> Game.state g = BallOnPaddle ->
  gameInv (Game.setState Playing
             (Game.setBall (Ball.launch rnd (Game.ballSpeed g) (Game.ball g)) g)).
Proof.
  intros H Hs. inv_facts H.
  assert (Hb : Game.ball g = restingBall (Game.paddle g)) by auto.
  apply mkGameInv; cbn [Game.setState Game.setBall Game.state
    Game.level Game.lives Game.ballSpeed Game.previousState
    Game.bricksRemaining Game.bricks Game.paddle Game.ball];
    try assumption; try inv_easy.
  - rewrite Hb. reflexivity.
  - intros _. rewrite Hb. reflexivity.
Qed.

Lemma handleKeyPressed_inv (rnd : Z) (code : sf.Key) (g : Game.t) :
  gameInv g -> gameInv (Game.handleKeyPressed rnd code g).
Proof.
  intros H. pose proof (inv_menu g H) as Hmenu.
  pose proof (inv_controls g H) as Hctl.
  unfold Game.handleKeyPressed.
  destruct code; destruct (Game.state g) eqn:Hs; try exact H;
    try contradiction;
    try (now apply setWindowOpen_inv);
    try (apply restartGame_inv; [apply (inv_paddle g H) | apply (inv_radius g H)]).
  all: first [ rewrite (Hctl eq_refl); apply pause_inv; now auto
             | apply launch_inv; assumption
             | apply pause_inv; now auto
             | apply controls_inv; assumption ].
Qed.

Lemma processEvents_inv (events : list (sf.Event * Z)) :
  forall g, gameInv g -> gameInv (Game.processEvents events g).
Proof.
  induction events as [| [[| code |] rnd] rest IH]; intros g H; cbn;
    (destruct (Game.windowOpen g); [ | exact H]).
  - exact H.
  - now apply setWindowOpen_inv.
  - apply IH. now apply handleKeyPressed_inv.
  - now apply IH.
Qed.

Lemma handleWallCollisions_frame (g : Game.t) :
  let g' := Game.handleWallCollisions g in
  Game.paddle g' = Game.paddle g /\ Game.level g' = Game.level g /\
  Game.ballSpeed g' = Game.ballSpeed g /\
  Game.previousState g' = Game.previousState g /\
  Ball.radius (Game.ball g') = Ball.radius (Game.ball g).
Proof.
  cbv zeta. unfold Game.handleWallCollisions. split_ifs; repeat split.
Qed.

(** The three ways out of [handleWallCollisions]. *)
Lemma handleWallCollisions_cases (g : Game.t) :
  let g' := Game.handleWallCollisions g in
  (Game.state g' = Game.state g /\ Game.lives g' = Game.lives g /\
   Ball.moving (Game.ball g') = Ball.moving (Game.ball g)) \/
  (Game.state g' = GameOver /\ Game.lives g' = 0%Z) \/
  ((1 < Game.lives g)%Z /\
   g' = Game.resetBallOnPaddle (Game.setLives (Game.lives g - 1) g)).
Proof.
  cbv zeta.
  destruct (Rgt_dec (sf.y (Ball.position (Game.ball g)) - Ball.radius (Game.ball g))
                    (IZR Constants.WINDOW_HEIGHT)) as [Hb | Hn].
  - destruct (Z.leb_spec (Game.lives g - 1) 0) as [Hle | Hgt].
    + right. left. unfold Game.handleWallCollisions, Ball.getPosition,
        Ball.getRadius.
      destruct (Rgt_dec _ (IZR Constants.WINDOW_HEIGHT)); [ | contradiction].
      apply Z.leb_le in Hle. split_walls; cbn; rewrite Hle; cbn; auto.
    + right. right. split; [lia | ].
      apply handleWallCollisions_loss; [exact Hb | lia].
  - left. unfold Game.handleWallCollisions, Ball.getPosition, Ball.getRadius.
    destruct (Rgt_dec _ (IZR Constants.WINDOW_HEIGHT)); [contradiction | ].
    split_walls; cbn; auto.
Qed.

Lemma deflected_frame (g : Game.t) :
  Ball.radius (deflected g) = Ball.radius (Game.ball g) /\
  Ball.moving (deflected g) = Ball.moving (Game.ball g).
Proof.
  unfold deflected, Ball.normaliseSpeed. split_ifs; split; reflexivity.
Qed.

Lemma handlePaddleCollision_frame (g : Game.t) :
  let g' := Game.handlePaddleCollision g in
  g' = Game.setBall (Game.ball g') g /\
  Ball.radius (Game.ball g') = Ball.radius (Game.ball g) /\
  Ball.moving (Game.ball g') = Ball.moving (Game.ball g).
Proof.
  cbv zeta. split; [apply handlePaddleCollision_only_ball | ].
  rewrite handlePaddleCollision_eq.
  destruct (paddleHit g); [apply deflected_frame | now split].
Qed.

Lemma ballAfter_frame (c : sf.Vector2f) (rad s : R) (bs : list Brick.t)
      (ball : Ball.t) :
  Ball.radius (ballAfter c rad s false bs ball) = Ball.radius ball /\
  Ball.moving (ballAfter c rad s false bs ball) = Ball.moving ball.
Proof.
  unfold ballAfter. destruct (find _ bs); [ | now split].
  unfold respond, Ball.normaliseSpeed. split_ifs; split; reflexivity.
Qed.

(** The three collision steps of a frame, one after the other. *)
Lemma collisions_frame (g : Game.t) :
  let gw := Game.handleWallCollisions g in
  let g' := Game.handleBrickCollisions (Game.handlePaddleCollision gw) in
  Game.paddle g' = Game.paddle g /\ Game.level g' = Game.level g /\
  Game.ballSpeed g' = Game.ballSpeed g /\
  Game.previousState g' = Game.previousState g /\
  Game.state g' = Game.state gw /\ Game.lives g' = Game.lives gw /\
  Ball.radius (Game.ball g') = Ball.radius (Game.ball g) /\
  Ball.moving (Game.ball g') = Ball.moving (Game.ball gw) /\
  exists c rad, Game.bricks g' = map (hitIfCollides c rad) (Game.bricks g).
Proof.
  cbv zeta.
  destruct (handleWallCollisions_frame g) as (Hp & Hl & Hs & Hv & Hr).
  pose proof (handleWallCollisions_board g) as Hb.
  set (gw := Game.handleWallCollisions g) in *.
  destruct (handlePaddleCollision_frame gw) as (Hgp & Hrp & Hmp).
  set (gp := Game.handlePaddleCollision gw) in *.
  rewrite handleBrickCollisions_eq. cbv zeta.
  cbn [Game.paddle Game.level Game.ballSpeed Game.previousState Game.state
       Game.lives Game.ball Game.bricks Game.setBricks withBoard].
  destruct (ballAfter_frame (Ball.position (Game.ball gp))
              (Ball.radius (Game.ball gp)) (Game.ballSpeed gp)
              (Game.bricks gp) (Game.ball gp)) as [Hra Hma].
  rewrite Hra, Hma, Hrp, Hmp, Hr.
  rewrite Hgp. cbn [Game.paddle Game.level Game.ballSpeed Game.previousState
    Game.state Game.lives Game.bricks Game.setBall].
  repeat split; try assumption.
  unfold board in Hb. injection Hb as -> _ _.
  eexists. eexists. reflexivity.
Qed.

Lemma map_hitIfCollides_inv (c : sf.Vector2f) (rad : R) (bs : list Brick.t) :
  totalPoints (map (hitIfCollides c rad) bs) = totalPoints bs /\
  (Forall (fun b => (0 <= Brick.points b)%Z) bs ->
   Forall (fun b => (0 <= Brick.points b)%Z) (map (hitIfCollides c rad) bs)) /\
  (Forall gridBrick bs -> Forall gridBrick (map (hitIfCollides c rad) bs)).
Proof.
  assert (Hp : forall b, Brick.points (hitIfCollides c rad b) = Brick.points b).
  { intros b. unfold hitIfCollides. destruct (collides c rad b);
      [apply hit_points | reflexivity]. }
  split; [ | split].
  - induction bs as [| b rest IH]; [reflexivity | ].
    cbn [map]. now rewrite !totalPoints_cons, IH, Hp.
  - intros H. apply Forall_map. eapply Forall_impl; [ | exact H].
    intros b Hb. cbn. now rewrite Hp.
  - intros H. apply Forall_map. eapply Forall_impl; [ | exact H].
    intros b (g0 & b0 & k & Hin & ->). cbn. unfold hitIfCollides.
    destruct (collides c rad (hits k b0)).
    + exists g0, b0, (k + 1)%nat. split; [exact Hin | ].
      now rewrite hits_plus.
    + now exists g0, b0, k.
Qed.

Lemma below_grid_noop (g : Game.t) :
  Forall gridBrick (Game.bricks g) ->
  0 <= Ball.radius (Game.ball g) ->
  213.5 <= sf.y (Ball.position (Game.ball g)) - Ball.radius (Game.ball g) ->
  Game.handleBrickCollisions g = g.
Proof.
  intros Hgrid Hr Hy. apply handleBrickCollisions_none.
  eapply Forall_impl; [ | exact Hgrid]. intros b Hb.
  destruct (gridBrick_bottom b Hb) as [Hh Hbot].
  apply below_no_collision; lra.
Qed.

Lemma handleWallCollisions_lives (g : Game.t) :
  (0 <= Game.lives g <= Constants.INITIAL_LIVES)%Z ->
  (0 <= Game.lives (Game.handleWallCollisions g) <= Constants.INITIAL_LIVES)%Z.
Proof.
  intros H. unfold Constants.INITIAL_LIVES in *.
  destruct (handleWallCollisions_cases g) as [(_ & -> & _) | [(_ & ->) | (Hl & ->)]];
    cbn; lia.
Qed.

(** A ball put to rest on the paddle of the game is left there by the
    paddle and brick steps. *)
Lemma resting_untouched (g : Game.t) (x : R) :
  Forall gridBrick (Game.bricks g) ->
  Game.paddle g = paddleAt x ->
  Game.ball g = restingBall (Game.paddle g) ->
  Game.handleBrickCollisions (Game.handlePaddleCollision g) = g.
Proof.
  intros Hgrid Hp Hb.
  rewrite handlePaddleCollision_rising by (rewrite Hb; cbn; lra).
  apply below_grid_noop; [exact Hgrid | | ]; rewrite Hb, Hp; cbn;
    unfold Constants.BALL_RADIUS, Constants.WINDOW_HEIGHT,
      Constants.PADDLE_Y_OFFSET; lra.
Qed.

Lemma update_resting_inv (kb : sf.Keyboard) (dt : R) (g : Game.t) :
  gameInv g -> Game.state g = BallOnPaddle -> gameInv (Game.update kb dt g).
Proof.
  intros H Hs. inv_facts H.
  destruct (inv_paddle g H) as (x & Hx & Hp).
  destruct (paddleAt_update kb dt x Hx) as (x' & Hx' & Hp').
  unfold Game.update. cbn [Game.state Game.setPaddle Game.paddle Game.ball].
  rewrite Hs, Hp, Hp'.
  apply mkGameInv; cbn [Game.setBall Game.setPaddle Game.state Game.level
    Game.lives Game.ballSpeed Game.previousState Game.bricksRemaining
    Game.bricks Game.paddle Game.ball Ball.reset Ball.radius];
    try assumption; try (rewrite Hs; inv_easy).
  - now exists x'.
  - intros _. unfold restingBall, Ball.reset.
    rewrite (inv_radius g H). reflexivity.
Qed.

Lemma Ball_update_frame (dt : R) (b : Ball.t) :
  Ball.radius (Ball.update dt b) = Ball.radius b /\
  Ball.moving (Ball.update dt b) = Ball.moving b.
Proof. unfold Ball.update. destruct (negb (Ball.moving b)); split; reflexivity. Qed.

(** The three collision steps of a frame of play keep what holds of a
    running game. *)
Lemma collisions_inv (g : Game.t) :
  gameInv g -> Game.state g = Playing ->
  let g' :=
    Game.handleBrickCollisions
      (Game.handlePaddleCollision (Game.handleWallCollisions g)) in
  gameInv g' /\
  (Game.state g' = Playing \/ Game.state g' = GameOver \/
   Game.state g' = BallOnPaddle).
Proof.
  intros H Hs g'. inv_facts H.
  destruct (inv_paddle g H) as (x & Hx & Hp).
  destruct (collisions_frame g)
    as (Fp & Fl & Fs & Fprev & Fst & Flv & Fr & Fm & c & rad & Fb).
  cbv zeta in Fp, Fl, Fs, Fprev, Fst, Flv, Fr, Fm, Fb. fold g' in Fp, Fl, Fs, Fprev, Fst, Flv, Fr, Fm, Fb.
  destruct (map_hitIfCollides_inv c rad (Game.bricks g)) as (Tt & Tp & Tg).
  assert (Hcount : countInv g').
  { apply handleBrickCollisions_countInv.
    apply (board_countInv _ _ (handlePaddleCollision_board _)).
    apply (board_countInv _ _ (handleWallCollisions_board _)).
    exact (inv_count g H). }
  assert (Hbank : banked g' = banked g).
  { subst g'. rewrite handleBrickCollisions_banked.
    rewrite (board_banked _ _ (handlePaddleCollision_board _)).
    now rewrite (board_banked _ _ (handleWallCollisions_board _)). }
  pose proof (handleWallCollisions_lives g (inv_lives g H)) as Hlives.
  assert (Hcase :
    (Game.state g' = Playing /\ Ball.moving (Game.ball g') = true) \/
    Game.state g' = GameOver \/
    (Game.state g' = BallOnPaddle /\
     Game.ball g' = restingBall (Game.paddle g'))).
  { destruct (handleWallCollisions_cases g)
      as [(Ws & _ & Wm) | [(Ws & _) | (Wl & Wg)]].
    - left. split; [congruence | ].
      rewrite Fm, Wm. apply (inv_moving g H). now left.
    - right; left. congruence.
    - right; right.
      assert (Hrest : g' = Game.handleWallCollisions g).
      { subst g'. rewrite Wg.
        apply (resting_untouched _ x).
        - exact (inv_grid g H).
        - exact Hp.
        - cbn. unfold restingBall, Ball.reset.
          rewrite (inv_radius g H). reflexivity. }
      rewrite Hrest, Wg. split; [reflexivity | ].
      cbn. unfold restingBall, Ball.reset.
      rewrite (inv_radius g H). reflexivity. }
  split.
  - apply mkGameInv.
    + now rewrite Fl.
    + now rewrite Flv.
    + now rewrite Fs, Fl.
    + destruct Hcase as [(E & _) | [E | (E & _)]]; rewrite E; discriminate.
    + destruct Hcase as [(E & _) | [E | (E & _)]]; rewrite E; discriminate.
    + destruct Hcase as [(E & _) | [E | (E & _)]]; rewrite E; discriminate.
    + destruct Hcase as [(E & _) | [E | (E & _)]]; rewrite E; discriminate.
    + destruct Hcase as [(E & _) | [E | (E & _)]]; rewrite E;
        intros [E' | E']; discriminate.
    + exact Hcount.
    + now rewrite Hbank, Fl.
    + now rewrite Fb, Tt, Fl.
    + rewrite Fb. now apply Tp.
    + rewrite Fb. now apply Tg.
    + exists x. now rewrite Fp.
    + now rewrite Fr.
    + destruct Hcase as [(E & _) | [E | (_ & E)]];
        [rewrite E; discriminate | rewrite E; discriminate | intros _; exact E].
    + destruct Hcase as [(_ & E) | [E | (E & _)]];
        [intros _; exact E | rewrite E | rewrite E];
        intros [E' | [E' | E']]; discriminate.
  - destruct Hcase as [(E & _) | [E | (E & _)]]; auto.
Qed.

(** The check for a cleared level at the end of [update]. *)
Lemma cleared_check_inv (g : Game.t) :
  gameInv g ->
  Game.state g = Playing \/ Game.state g = GameOver \/
  Game.state g = BallOnPaddle ->
  gameInv
    (if (Game.bricksRemaining g <=? 0)%Z
     then if (Game.level g >=? Constants.MAX_LEVELS)%Z
          then Game.setState Victory g
          else Game.setLevelCompleteTimer Constants.LEVEL_COMPLETE_DELAY
                 (Game.setState LevelComplete g)
     else g).
Proof.
  intros H Hst. inv_facts H.
  destruct (Z.leb_spec (Game.bricksRemaining g) 0) as [Hz | Hz]; [ | exact H].
  destruct (Z.geb_spec (Game.level g) Constants.MAX_LEVELS) as [Hl | Hl];
    apply mkGameInv;
    cbn [Game.setState Game.setLevelCompleteTimer Game.state Game.level
      Game.lives Game.ballSpeed Game.previousState Game.bricksRemaining
      Game.bricks Game.paddle Game.ball];
    try assumption; try inv_easy; try (intros _; lia).
Qed.

Lemma update_playing_inv (kb : sf.Keyboard) (dt : R) (g : Game.t) :
  gameInv g -> Game.state g = Playing -> gameInv (Game.update kb dt g).
Proof.
  intros H Hs. inv_facts H.
  destruct (inv_paddle g H) as (x & Hx & Hp).
  destruct (paddleAt_update kb dt x Hx) as (x' & Hx' & Hp').
  rewrite update_bricks by (rewrite Hs; discriminate). cbv zeta.
  set (g1 := Game.setBall _ _).
  assert (Hg1 : gameInv g1).
  { destruct (Ball_update_frame dt (Game.ball g)) as (Br & Bm).
    subst g1. apply mkGameInv;
      cbn [Game.setBall Game.setPaddle Game.state Game.level
        Game.lives Game.ballSpeed Game.previousState Game.bricksRemaining
        Game.bricks Game.paddle Game.ball];
      try assumption.
    - exists x'. now rewrite Hp, Hp'.
    - now rewrite Br.
    - rewrite Hs. discriminate.
    - intros Hm. rewrite Bm. now apply (inv_moving g H). }
  destruct (collisions_inv g1 Hg1 Hs) as (Hg2 & Hst).
  apply cleared_check_inv; assumption.
Qed.

Lemma update_inv (kb : sf.Keyboard) (dt : R) (g : Game.t) :
  gameInv g -> Game.state g = Playing \/ Game.state g = BallOnPaddle ->
  gameInv (Game.update kb dt g).
Proof.
  intros H [Hs | Hs];
    [now apply update_playing_inv | now apply update_resting_inv].
Qed.

Lemma setLevelCompleteTimer_inv (t : R) (g : Game.t) :
  gameInv g -> gameInv (Game.setLevelCompleteTimer t g).
Proof. intros H. inv_facts H. now apply mkGameInv. Qed.

Lemma runIteration_inv (i : Game.FrameInput) (g : Game.t) :
  gameInv g -> gameInv (Game.runIteration i g).
Proof.
  intros H. unfold Game.runIteration.
  pose proof (processEvents_inv (Game.events i) g H) as Hp.
  set (g1 := Game.processEvents (Game.events i) g) in *.
  destruct (Game.state g1) eqn:Hs; try exact Hp.
  - apply update_inv; auto.
  - apply update_inv; auto.
  - cbv zeta. cbn [Game.levelCompleteTimer Game.setLevelCompleteTimer].
    destruct (Rle_dec _ 0).
    + apply advanceLevel_inv; [now apply setLevelCompleteTimer_inv | exact Hs].
    + now apply setLevelCompleteTimer_inv.
Qed.

Lemma run_inv (inputs : list Game.FrameInput) :
  forall g, gameInv g -> gameInv (Game.run inputs g).
Proof.
  induction inputs as [| i rest IH]; intros g H; cbn [Game.run]; [exact H | ].
  destruct (Game.windowOpen g); [ | exact H].
  apply IH, runIteration_inv, H.
Qed.

Lemma standingPoints_bounds (bs : list Brick.t) :
  Forall (fun b => (0 <= Brick.points b)%Z) bs ->
  (0 <= standingPoints bs <= totalPoints bs)%Z.
Proof.
  induction 1 as [| b rest Hb _ IH]; [cbn; lia | ].
  rewrite standingPoints_cons, totalPoints_cons.
  destruct (Brick.destroyed b); lia.
Qed.

(** ** Lives, bricks and the state *)

Lemma fresh_level_live (g : Game.t) :
  (1 <= Game.lives g)%Z ->
  liveInv (Game.resetBallOnPaddle (Game.createBricks g)).
Proof.
  intros Hl. apply mkLiveInv; cbn [Game.resetBallOnPaddle Game.setState
    Game.setBall Game.state Game.lives Game.bricksRemaining].
  - discriminate.
  - intros _. exact Hl.
  - intros _ _. rewrite createBricks_remaining. cbn. lia.
Qed.

Lemma restartGame_live (g : Game.t) : liveInv (Game.restartGame g).
Proof.
  unfold Game.restartGame. apply fresh_level_live. cbn.
  unfold Constants.INITIAL_LIVES. lia.
Qed.

Lemma advanceLevel_live (g : Game.t) :
  liveInv g -> Game.state g = LevelComplete -> liveInv (Game.advanceLevel g).
Proof.
  intros H Hs. unfold Game.advanceLevel. apply fresh_level_live. cbn.
  apply (live_alive g H). rewrite Hs. discriminate.
Qed.

Lemma Game_live : liveInv (Game.Game true).
Proof.
  unfold Game.Game. cbn [negb]. apply fresh_level_live. cbn.
  unfold Constants.INITIAL_LIVES. lia.
Qed.

(** A change of state among those of a game under way. *)
Lemma setState_live (s' : GameState) (g : Game.t) :
  liveInv g ->
  Game.state g <> GameOver -> Game.state g <> LevelComplete ->
  Game.state g <> Victory ->
  s' <> GameOver ->
  liveInv (Game.setState s' g).
Proof.
  intros H H1 H2 H3 H4. apply mkLiveInv; cbn [Game.setState Game.state
    Game.lives Game.bricksRemaining].
  - intros E. contradiction.
  - intros _. now apply (live_alive g H).
  - intros _ _. now apply (live_bricks g H).
Qed.

Lemma frame_live (g g' : Game.t) :
  Game.state g' = Game.state g -> Game.lives g' = Game.lives g ->
  Game.bricksRemaining g' = Game.bricksRemaining g ->
  liveInv g -> liveInv g'.
Proof.
  intros Es El Eb H. apply mkLiveInv; rewrite ?Es, ?El, ?Eb; apply H.
Qed.

Lemma handleKeyPressed_live (rnd : Z) (code : sf.Key) (g : Game.t) :
  gameInv g -> liveInv g -> liveInv (Game.handleKeyPressed rnd code g).
Proof.
  intros Hi H. pose proof (inv_controls g Hi) as Hctl.
  assert (Hset : forall s',
    Game.state g <> GameOver -> Game.state g <> LevelComplete ->
    Game.state g <> Victory -> s' <> GameOver ->
    forall g', Game.state g' = Game.state g -> Game.lives g' = Game.lives g ->
    Game.bricksRemaining g' = Game.bricksRemaining g ->
    liveInv (Game.setState s' g')).
  { intros s' H1 H2 H3 H4 g' Es El Eb.
    apply setState_live; rewrite ?Es; try assumption.
    now apply (frame_live g). }
  destruct code; cbn [Game.handleKeyPressed];
    destruct (Game.state g) eqn:Hs;
    try exact H; try apply restartGame_live;
    try (now apply (frame_live g));
    try rewrite (Hctl eq_refl);
    apply Hset; try discriminate; first [exact Hs | reflexivity].
Qed.

Lemma processEvents_live (events : list (sf.Event * Z)) :
  forall g, gameInv g -> liveInv g -> liveInv (Game.processEvents events g).
Proof.
  induction events as [| [[| code |] rnd] rest IH]; intros g Hi H; cbn;
    (destruct (Game.windowOpen g); [ | exact H]).
  - exact H.
  - now apply (frame_live g).
  - apply IH; [now apply handleKeyPressed_inv | now apply handleKeyPressed_live].
  - now apply IH.
Qed.

(** When the last life goes, the ball is left where it fell: below the
    window. *)
Lemma handleWallCollisions_over (g : Game.t) :
  Game.state g <> GameOver ->
  Game.state (Game.handleWallCollisions g) = GameOver ->
  IZR Constants.WINDOW_HEIGHT <
  sf.y (Ball.position (Game.ball (Game.handleWallCollisions g))) -
  Ball.radius (Game.ball (Game.handleWallCollisions g)).
Proof.
  unfold Game.handleWallCollisions, Ball.getPosition, Ball.getRadius.
  cbv zeta. intros Hs.
  destruct (Rgt_dec (sf.y (Ball.position (Game.ball g)) -
                     Ball.radius (Game.ball g))
                    (IZR Constants.WINDOW_HEIGHT)) as [Hb | Hn].
  - unfold Constants.WINDOW_HEIGHT in *.
    split_walls; cbn;
      destruct (Game.lives g - 1 <=? 0)%Z; cbn; intros E;
      try discriminate E; lra.
  - split_walls; cbn; intros E; contradiction.
Qed.

(** The paddle step leaves the ball below the grid of bricks. *)
Lemma handlePaddleCollision_low (g : Game.t) (x : R) :
  Game.paddle g = paddleAt x ->
  Ball.radius (Game.ball g) = Constants.BALL_RADIUS ->
  213.5 <= sf.y (Ball.position (Game.ball g)) - Constants.BALL_RADIUS ->
  213.5 <=
  sf.y (Ball.position (Game.ball (Game.handlePaddleCollision g))) -
  Ball.radius (Game.ball (Game.handlePaddleCollision g)).
Proof.
  intros Hp Hr Hy. rewrite handlePaddleCollision_eq.
  destruct (paddleHit g); [ | now rewrite Hr].
  cbn [Game.setBall Game.ball].
  destruct (deflected_frame g) as (-> & _). rewrite Hr.
  assert (E : Ball.position (deflected g) = Ball.position (steered g)).
  { unfold deflected, Ball.normaliseSpeed. split_ifs; reflexivity. }
  rewrite E. unfold steered. cbn [Ball.position sf.y]. rewrite Hp, Hr.
  cbn. unfold Constants.BALL_RADIUS, Constants.WINDOW_HEIGHT,
    Constants.PADDLE_Y_OFFSET. lra.
Qed.

(** What the collision steps of a frame of play leave of the lives and
    of the bricks. *)
Lemma collisions_live (g : Game.t) :
  gameInv g -> liveInv g -> Game.state g = Playing ->
  let g' :=
    Game.handleBrickCollisions
      (Game.handlePaddleCollision (Game.handleWallCollisions g)) in
  (Game.state g' = GameOver -> Game.lives g' = 0%Z) /\
  (Game.state g' <> GameOver -> (1 <= Game.lives g')%Z) /\
  (Game.state g' <> Playing -> (0 < Game.bricksRemaining g')%Z).
Proof.
  intros Hi H Hs g'.
  destruct (inv_paddle g Hi) as (x & Hx & Hp).
  destruct (collisions_frame g)
    as (Fp & Fl & Fs & Fprev & Fst & Flv & Fr & Fm & c & rad & Fb).
  cbv zeta in Fst, Flv. fold g' in Fst, Flv.
  assert (Hrem : (0 < Game.bricksRemaining g)%Z).
  { apply (live_bricks g H); rewrite Hs; discriminate. }
  assert (Hlv : (1 <= Game.lives g)%Z).
  { apply (live_alive g H); rewrite Hs; discriminate. }
  destruct (handleWallCollisions_frame g) as (Wp & _ & _ & _ & Wr).
  cbv zeta in Wp, Wr.
  assert (Hbr :
    Game.bricks (Game.handlePaddleCollision (Game.handleWallCollisions g)) =
      Game.bricks g /\
    Game.bricksRemaining
      (Game.handlePaddleCollision (Game.handleWallCollisions g)) =
      Game.bricksRemaining g).
  { pose proof (handlePaddleCollision_board (Game.handleWallCollisions g)) as B1.
    pose proof (handleWallCollisions_board g) as B2.
    unfold board in B1, B2. injection B1 as E1 _ E3. injection B2 as E4 _ E6.
    split; congruence. }
  destruct Hbr as (Hbricks & Hcount).
  destruct (handleWallCollisions_cases g)
    as [(Ws & Wl & _) | [(Ws & Wl) | (Wl & Wg)]].
  - rewrite Fst, Flv, Ws, Wl, Hs. repeat split; intros E; try discriminate E;
      try lia. now contradiction E.
  - assert (Hsame : g' = Game.handlePaddleCollision (Game.handleWallCollisions g)).
    { apply below_grid_noop.
      - rewrite Hbricks. exact (inv_grid g Hi).
      - destruct (handlePaddleCollision_frame (Game.handleWallCollisions g))
          as (_ & Er & _).
        cbv zeta in Er. rewrite Er, Wr, (inv_radius g Hi). unfold Constants.BALL_RADIUS. lra.
      - apply (handlePaddleCollision_low _ x).
        + now rewrite Wp.
        + now rewrite Wr, (inv_radius g Hi).
        + assert (Hne : Game.state g <> GameOver) by (rewrite Hs; discriminate).
          pose proof (handleWallCollisions_over g Hne Ws) as Hlow.
          rewrite Wr, (inv_radius g Hi) in Hlow.
          unfold Constants.WINDOW_HEIGHT in Hlow. lra. }
    rewrite Fst, Flv, Ws, Wl. repeat split; intros E; try discriminate E;
      try lia; try (now contradiction E).
    rewrite Hsame, Hcount. exact Hrem.
  - assert (Hsame : g' = Game.handleWallCollisions g).
    { subst g'. rewrite Wg. apply (resting_untouched _ x).
      - exact (inv_grid g Hi).
      - exact Hp.
      - cbn. unfold restingBall, Ball.reset.
        rewrite (inv_radius g Hi). reflexivity. }
    rewrite Hsame, Wg. cbn. repeat split; intros E; try discriminate E;
      try lia.
Qed.

Lemma moved_inv (kb : sf.Keyboard) (dt : R) (g : Game.t) :
  gameInv g -> Game.state g = Playing ->
  gameInv
    (Game.setBall (Ball.update dt (Game.ball g))
       (Game.setPaddle
          (Paddle.update kb dt (IZR Constants.WINDOW_WIDTH) (Game.paddle g)) g)).
Proof.
  intros H Hs. inv_facts H.
  destruct (inv_paddle g H) as (x & Hx & Hp).
  destruct (paddleAt_update kb dt x Hx) as (x' & Hx' & Hp').
  destruct (Ball_update_frame dt (Game.ball g)) as (Br & Bm).
  apply mkGameInv;
    cbn [Game.setBall Game.setPaddle Game.state Game.level
      Game.lives Game.ballSpeed Game.previousState Game.bricksRemaining
      Game.bricks Game.paddle Game.ball];
    try assumption.
  - exists x'. now rewrite Hp, Hp'.
  - now rewrite Br.
  - rewrite Hs. discriminate.
  - intros Hm. rewrite Bm. now apply (inv_moving g H).
Qed.

Lemma update_live (kb : sf.Keyboard) (dt : R) (g : Game.t) :
  gameInv g -> liveInv g ->
  Game.state g = Playing \/ Game.state g = BallOnPaddle ->
  liveInv (Game.update kb dt g).
Proof.
  intros Hi H [Hs | Hs].
  - rewrite update_bricks by (rewrite Hs; discriminate). cbv zeta.
    set (g1 := Game.setBall _ _).
    pose proof (moved_inv kb dt g Hi Hs) as Hi1. fold g1 in Hi1.
    assert (Hl1 : liveInv g1) by (now apply (frame_live g)).
    destruct (collisions_inv g1 Hi1 Hs) as (_ & Hst).
    destruct (collisions_live g1 Hi1 Hl1 Hs) as (Hover & Halive & Hleft).
    cbv zeta in Hst, Hover, Halive, Hleft.
    set (g2 := Game.handleBrickCollisions _) in *.
    destruct (Z.leb_spec (Game.bricksRemaining g2) 0) as [Hz | Hz].
    + assert (Hplay : Game.state g2 = Playing).
      { destruct Hst as [E | [E | E]]; [exact E | | ];
          assert (Game.state g2 <> Playing) as Hne by (rewrite E; discriminate);
          specialize (Hleft Hne); lia. }
      assert (Hlv : (1 <= Game.lives g2)%Z).
      { apply Halive. rewrite Hplay. discriminate. }
      destruct (Game.level g2 >=? Constants.MAX_LEVELS)%Z;
        apply mkLiveInv; cbn [Game.setState Game.setLevelCompleteTimer
          Game.state Game.lives Game.bricksRemaining];
        try discriminate; try (intros _; exact Hlv);
        intros E1 E2; first [now contradiction E1 | now contradiction E2].
    + apply mkLiveInv; [exact Hover | exact Halive | intros _ _; exact Hz].
  - unfold Game.update. cbn [Game.state Game.setPaddle]. rewrite Hs.
    now apply (frame_live g).
Qed.

Lemma runIteration_live (i : Game.FrameInput) (g : Game.t) :
  gameInv g -> liveInv g -> liveInv (Game.runIteration i g).
Proof.
  intros Hi H. unfold Game.runIteration.
  pose proof (processEvents_inv (Game.events i) g Hi) as Hpi.
  pose proof (processEvents_live (Game.events i) g Hi H) as Hp.
  set (g1 := Game.processEvents (Game.events i) g) in *.
  destruct (Game.state g1) eqn:Hs; try exact Hp.
  - apply update_live; auto.
  - apply update_live; auto.
  - cbv zeta. cbn [Game.levelCompleteTimer Game.setLevelCompleteTimer].
    destruct (Rle_dec _ 0).
    + apply advanceLevel_live; [now apply (frame_live g1) | exact Hs].
    + now apply (frame_live g1).
Qed.

(** Every game a run reaches keeps both invariants. *)
Lemma run_reaches (inputs : list Game.FrameInput) :
  forall g, gameInv g /\ liveInv g ->
            gameInv (Game.run inputs g) /\ liveInv (Game.run inputs g).
Proof.
  induction inputs as [| i rest IH]; intros g H; cbn [Game.run]; [exact H | ].
  destruct (Game.windowOpen g); [ | exact H].
  destruct H as (Hi & Hl). apply IH. split;
    [now apply runIteration_inv | now apply runIteration_live].
Qed.

Lemma run_from_start (inputs : list Game.FrameInput) :
  gameInv (Game.run inputs (Game.Game true)) /\
  liveInv (Game.run inputs (Game.Game true)).
Proof. apply run_reaches. split; [exact Game_inv | exact Game_live]. Qed.

(** * What holds all through a run *)

(** X17. The constructor ends in [resetBallOnPaddle], so a game whose font
    loaded starts in [BallOnPaddle], and in no run of frames is the state
    ever [MainMenu] again.  The controls screen is only ever entered from
    the pause: whenever it is shown, both H and Escape lead back to
    [Paused] and leave the window open as it is. *)
Theorem X17_menu_never_shown (inputs : list Game.FrameInput) :
  let g := Game.run inputs (Game.Game true) in
  Game.state (Game.Game true) = BallOnPaddle /\
  Game.state g <> MainMenu /\
  (Game.state g = Controls ->
   Game.previousState g = Paused /\
   forall rnd,
     Game.state (Game.handleKeyPressed rnd sf.H g) = Paused /\
     Game.state (Game.handleKeyPressed rnd sf.Escape g) = Paused /\
     Game.windowOpen (Game.handleKeyPressed rnd sf.Escape g) =
       Game.windowOpen g).
Proof.
  intros g. destruct (run_from_start inputs) as (Hi & _). fold g in Hi.
  split; [reflexivity | ]. split; [exact (inv_menu g Hi) | ].
  intros Hs. pose proof (inv_controls g Hi Hs) as Hp.
  split; [exact Hp | ]. intros rnd. cbn [Game.handleKeyPressed].
  rewrite Hs, Hp. repeat split.
Qed.

Lemma X17_witness :
  let g := Game.run [helpFrame] (Game.Game true) in
  Game.state g = Controls /\ Game.previousState g = Paused /\
  Game.state (Game.handleKeyPressed 0 sf.Escape g) = Paused.
Proof.
  intros g.
  assert (Hs : Game.state g = Controls) by reflexivity.
  destruct (X17_menu_never_shown [helpFrame]) as (_ & _ & Hc).
  destruct (Hc Hs) as (Hp & Hk).
  split; [exact Hs | ]. split; [exact Hp | ].
  exact (proj1 (proj2 (Hk 0%Z))).
Defined.

(** X18. All through a run the level is between 1 and [MAX_LEVELS], the
    lives between 0 and [INITIAL_LIVES], and the target speed of the ball
    is 320 + 35 (level - 1): at most 460, so the cap [BALL_MAX_SPEED] that
    [advanceLevel] applies never takes effect. *)
Theorem X18_level_lives_speed (inputs : list Game.FrameInput) :
  let g := Game.run inputs (Game.Game true) in
  (1 <= Game.level g <= Constants.MAX_LEVELS)%Z /\
  (0 <= Game.lives g <= Constants.INITIAL_LIVES)%Z /\
  Game.ballSpeed g =
    Constants.BALL_INITIAL_SPEED +
    Constants.BALL_SPEED_STEP * IZR (Game.level g - 1) /\
  320 <= Game.ballSpeed g <= 460 /\
  Game.ballSpeed g < Constants.BALL_MAX_SPEED.
Proof.
  intros g. destruct (run_from_start inputs) as (Hi & _). fold g in Hi.
  pose proof (inv_level g Hi) as Hl. pose proof (inv_speed g Hi) as Hs.
  split; [exact Hl | ]. split; [exact (inv_lives g Hi) | ].
  split; [exact Hs | ].
  unfold Constants.MAX_LEVELS in Hl.
  assert (H0 : 0 <= IZR (Game.level g - 1)) by (apply IZR_le; lia).
  assert (H4 : IZR (Game.level g - 1) <= 4) by (apply IZR_le; lia).
  rewrite Hs. unfold Constants.BALL_INITIAL_SPEED, Constants.BALL_SPEED_STEP,
    Constants.BALL_MAX_SPEED. lra.
Qed.

(** X19. All through a run [bricksRemaining] is the number of standing
    bricks, and the score plus the points of the standing bricks is
    1050 level (level + 1).  So the score lies between 1050 level (level - 1)
    and 1050 level (level + 1), it is exactly the latter when the level is
    complete, and it is 31500 at the victory; it never passes 31500 until
    the game is restarted. *)
Theorem X19_score_of_run (inputs : list Game.FrameInput) :
  let g := Game.run inputs (Game.Game true) in
  Game.bricksRemaining g = countStanding (Game.bricks g) /\
  (Game.score g + standingPoints (Game.bricks g) =
   1050 * Game.level g * (Game.level g + 1))%Z /\
  (1050 * Game.level g * (Game.level g - 1) <= Game.score g
   <= 1050 * Game.level g * (Game.level g + 1))%Z /\
  (0 <= Game.score g <= 31500)%Z /\
  (Game.state g = LevelComplete \/ Game.state g = Victory ->
   Game.score g = (1050 * Game.level g * (Game.level g + 1))%Z) /\
  (Game.state g = Victory -> Game.score g = 31500%Z).
Proof.
  intros g. destruct (run_from_start inputs) as (Hi & _). fold g in Hi.
  pose proof (inv_level g Hi) as Hl. unfold Constants.MAX_LEVELS in Hl.
  pose proof (inv_banked g Hi) as Hb. unfold banked in Hb.
  pose proof (inv_total g Hi) as Ht.
  pose proof (standingPoints_bounds _ (inv_points g Hi)) as Hsp.
  split; [exact (inv_count g Hi) | ]. split; [exact Hb | ].
  assert (Hcl : Game.state g = LevelComplete \/ Game.state g = Victory ->
                Game.score g = (1050 * Game.level g * (Game.level g + 1))%Z).
  { intros Hs. rewrite (cleared_score g (inv_count g Hi) (inv_cleared g Hi Hs)).
    exact Hb. }
  split; [nia | ]. split; [nia | ]. split; [exact Hcl | ].
  intros Hv. rewrite (Hcl (or_intror Hv)).
  rewrite (inv_victory g Hi Hv). reflexivity.
Qed.



(** X21. All through a run the game is over exactly when no life is left,
    and a level is complete (or the game won) exactly when no brick is
    left: in every other state at least one brick stands.  The last life
    cannot be lost in the frame that clears the board. *)
Theorem X21_lives_bricks_and_state (inputs : list Game.FrameInput) :
  let g := Game.run inputs (Game.Game true) in
  (Game.state g = GameOver <-> Game.lives g = 0%Z) /\
  (Game.state g = LevelComplete \/ Game.state g = Victory <->
   Game.bricksRemaining g = 0%Z) /\
  (Game.state g = LevelComplete \/ Game.state g = Victory ->
   (1 <= Game.lives g)%Z).
Proof.
  intros g. destruct (run_from_start inputs) as (Hi & Hl).
  fold g in Hi, Hl.
  pose proof (inv_count g Hi) as Hc. unfold countInv in Hc.
  pose proof (countStanding_nonneg (Game.bricks g)) as H0.
  split; [ | split].
  - split; [exact (live_over g Hl) | ].
    intros E. destruct (Game.state g) eqn:Hs; try reflexivity;
      assert (1 <= Game.lives g)%Z
        by (apply (live_alive g Hl); rewrite Hs; discriminate);
      lia.
  - split.
    + intros Hs. pose proof (inv_cleared g Hi Hs). lia.
    + intros E.
      destruct (Game.state g) eqn:Hs; auto;
        assert (0 < Game.bricksRemaining g)%Z
          by (apply (live_bricks g Hl); rewrite Hs; discriminate); lia.
  - intros Hs. apply (live_alive g Hl). destruct Hs as [Hs | Hs];
      rewrite Hs; discriminate.
Qed.

Lemma restartGame_fresh (g : Game.t) (x : R) :
  Game.paddle g = paddleAt x ->
  Ball.radius (Game.ball g) = Constants.BALL_RADIUS ->
  Game.restartGame g =
  Game.setWindowOpen (Game.windowOpen g)
    (Game.setLevelCompleteTimer (Game.levelCompleteTimer g)
       (Game.setPreviousState (Game.previousState g) (Game.Game true))).
Proof.
  intros Hp Hr. destruct g as [wo ball paddle bricks st sc lv lev sp tm rem prev].
  cbn [Game.paddle Game.ball] in Hp, Hr. subst paddle.
  unfold Game.restartGame, Game.Game, Game.resetBallOnPaddle, Game.createBricks.
  cbn [negb Game.setScore Game.setLives Game.setLevel Game.setBallSpeed
    Game.setPaddle Game.setBricks Game.setBricksRemaining Game.setBall
    Game.setState Game.setWindowOpen Game.setLevelCompleteTimer
    Game.setPreviousState Game.windowOpen Game.ball Game.paddle Game.bricks
    Game.state Game.score Game.lives Game.level Game.ballSpeed
    Game.levelCompleteTimer Game.bricksRemaining Game.previousState].
  unfold Ball.reset, Ball.Ball. cbn [Ball.radius]. rewrite Hr.
  reflexivity.
Qed.

(** X22. Restarting gives the new game again.  At any point of a run,
    [restartGame] produces exactly the game the constructor builds (score
    0, three lives, level 1, speed 320, the paddle centred, the grid of
    level 1, the ball at rest on the paddle), whatever was played before;
    only the window, the countdown timer and the remembered previous
    state, which [restartGame] does not assign, stay as they are.  For
    every game, restarting twice is the same as restarting once. *)
Theorem X22_restart_is_fresh (inputs : list Game.FrameInput) :
  let g := Game.run inputs (Game.Game true) in
  Game.restartGame g =
    Game.setWindowOpen (Game.windowOpen g)
      (Game.setLevelCompleteTimer (Game.levelCompleteTimer g)
         (Game.setPreviousState (Game.previousState g) (Game.Game true))) /\
  forall g0, Game.restartGame (Game.restartGame g0) = Game.restartGame g0.
Proof.
  intros g. destruct (run_from_start inputs) as (Hi & _). fold g in Hi.
  destruct (inv_paddle g Hi) as (x & _ & Hp).
  split; [exact (restartGame_fresh g x Hp (inv_radius g Hi)) | ].
  intros g0. destruct g0. reflexivity.
Qed.

(** * Rendering *)

Lemma drawBricks_length (bs : list Brick.t) :
  Z.of_nat (length (flat_map Brick.draw bs)) = countStanding bs.
Proof.
  unfold countStanding. f_equal.
  induction bs as [| b rest IH]; [reflexivity | ].
  cbn [flat_map filter]. rewrite length_app, IH.
  unfold Brick.draw, standing. destruct (Brick.destroyed b); reflexivity.
Qed.

(** X23. [render] draws the standing bricks and no others, in the order
    of the grid; a destroyed brick is not drawn.  All through a run the
    number of bricks on the screen is [bricksRemaining]. *)
Theorem X23_bricks_on_screen :
  (forall g,
     Game.drawBricks g =
       map Brick.shape (filter standing (Game.bricks g)) /\
     Z.of_nat (length (Game.drawBricks g)) = countStanding (Game.bricks g)) /\
  (forall inputs,
     let g := Game.run inputs (Game.Game true) in
     Z.of_nat (length (Game.drawBricks g)) = Game.bricksRemaining g).
Proof.
  split.
  - intros g. split; [ | apply drawBricks_length].
    unfold Game.drawBricks.
    induction (Game.bricks g) as [| b rest IH]; [reflexivity | ].
    cbn [flat_map filter]. rewrite IH.
    unfold Brick.draw, standing. destruct (Brick.destroyed b); reflexivity.
  - intros inputs g. destruct (run_from_start inputs) as (Hi & _).
    fold g in Hi. rewrite (inv_count g Hi). apply drawBricks_length.
Qed.

Lemma lifeCircle_cases (lives : Z) :
  map (fun i => filledCircle (Game.lifeCircle lives (Z.of_nat i))) (seq 0 3) =
  [(0 <? lives)%Z; (1 <? lives)%Z; (2 <? lives)%Z].
Proof.
  cbn [map seq]. unfold filledCircle, Game.lifeCircle.
  cbn [sf.circleFillColor Z.of_nat Pos.of_succ_nat Pos.succ].
  destruct (0 <? lives)%Z, (1 <? lives)%Z, (2 <? lives)%Z; reflexivity.
Qed.

(** X24. The HUD always draws [INITIAL_LIVES] (three) life indicators,
    from left to right; indicator i is filled exactly when i < lives, so
    the filled ones come first and their number is the number of lives
    (cut to the range 0..3; all through a run it is the number of lives).
    The centres are at x = 747 + 18 i, y = 587; each circle with its
    outline fits in the window, and neighbours are a pixel apart. *)
Theorem X24_life_indicators (g : Game.t) :
  let circles := Game.drawLifeIndicators g in
  length circles = 3%nat /\
  (forall i, (i < 3)%nat ->
     let c := nth i circles (Game.lifeCircle 0 0) in
     (filledCircle c = true <-> (Z.of_nat i < Game.lives g)%Z) /\
     sf.circlePosition c = sf.mkVector2f (747 + 18 * INR i) 587 /\
     0 <= sf.left (circleBox c) /\
     sf.left (circleBox c) + sf.width (circleBox c) <=
       IZR Constants.WINDOW_WIDTH /\
     0 <= sf.top (circleBox c) /\
     sf.top (circleBox c) + sf.height (circleBox c) <=
       IZR Constants.WINDOW_HEIGHT /\
     (forall j, (i < j < 3)%nat ->
        sf.left (circleBox c) + sf.width (circleBox c) + 1 <=
        sf.left (circleBox (nth j circles (Game.lifeCircle 0 0))))) /\
  Z.of_nat (length (filter filledCircle circles)) =
    Z.min 3 (Z.max 0 (Game.lives g)) /\
  (forall inputs,
     let g' := Game.run inputs (Game.Game true) in
     Z.of_nat (length (filter filledCircle (Game.drawLifeIndicators g'))) =
       Game.lives g').
Proof.
  assert (Hcount : forall g0,
    Z.of_nat (length (filter filledCircle (Game.drawLifeIndicators g0))) =
    Z.min 3 (Z.max 0 (Game.lives g0))).
  { intros g0. unfold Game.drawLifeIndicators, Constants.INITIAL_LIVES.
    change (Z.to_nat 3) with 3%nat.
    transitivity
      (Z.of_nat (length (filter (fun v : bool => v)
         (map (fun i => filledCircle (Game.lifeCircle (Game.lives g0)
                                        (Z.of_nat i))) (seq 0 3))))).
    { cbn [map seq filter].
      repeat match goal with
             | |- context [filledCircle ?c] => destruct (filledCircle c)
             end; reflexivity. }
    rewrite lifeCircle_cases. cbn [filter].
    destruct (Z.ltb_spec 0 (Game.lives g0)), (Z.ltb_spec 1 (Game.lives g0)),
      (Z.ltb_spec 2 (Game.lives g0)); cbn [length]; lia. }
  intros circles. split; [reflexivity | ]. split; [ | split].
  - intros i Hi.
    assert (Hpos : forall k, (k < 3)%nat ->
      let c := nth k circles (Game.lifeCircle 0 0) in
      (filledCircle c = true <-> (Z.of_nat k < Game.lives g)%Z) /\
      sf.circlePosition c = sf.mkVector2f (747 + 18 * INR k) 587 /\
      sf.left (circleBox c) = 738.5 + 18 * INR k /\
      sf.width (circleBox c) = 17 /\
      sf.top (circleBox c) = 578.5 /\
      sf.height (circleBox c) = 17).
    { intros k Hk. cbv zeta. subst circles.
      unfold Game.drawLifeIndicators, Constants.INITIAL_LIVES.
      change (Z.to_nat 3) with 3%nat.
      destruct k as [| [| [| k]]]; [ | | | lia];
        cbn [map seq nth]; (split; [ | split; [ | repeat split]]);
        try (unfold filledCircle, Game.lifeCircle;
             cbn [sf.circleFillColor Z.of_nat Pos.of_succ_nat Pos.succ];
             match goal with
             | |- context [(?a <? ?b)%Z] => destruct (Z.ltb_spec a b)
             end; cbn; split; intros; try lia; try discriminate; reflexivity);
        unfold circleBox, Game.lifeCircle, Constants.LIFE_INDICATOR_RADIUS,
          Constants.LIFE_INDICATOR_GAP, Constants.INITIAL_LIVES,
          Constants.WINDOW_WIDTH, Constants.WINDOW_HEIGHT;
        cbn; try (f_equal; lra); lra. }
    destruct (Hpos i Hi) as (Hf & Hp & Hl & Hw & Ht & Hh). cbv zeta in *.
    assert (Hi3 : 0 <= INR i <= 2).
    { split; [apply pos_INR | ]. change 2 with (INR 2). apply le_INR. lia. }
    unfold Constants.WINDOW_WIDTH, Constants.WINDOW_HEIGHT.
    split; [exact Hf | ]. split; [exact Hp | ].
    rewrite Hl, Hw, Ht, Hh.
    split; [lra | ]. split; [lra | ]. split; [lra | ]. split; [lra | ].
    intros j Hj. destruct (Hpos j (proj2 Hj)) as (_ & _ & Hlj & _).
      cbv zeta in Hlj. rewrite Hlj.
      assert (INR i + 1 <= INR j).
      { rewrite <- S_INR. apply le_INR. lia. }
      lra.
  - apply Hcount.
  - intros inputs g'. rewrite Hcount.
    destruct (run_from_start inputs) as (Hi & _). fold g' in Hi.
    pose proof (inv_lives g' Hi) as Hl. unfold Constants.INITIAL_LIVES in Hl.
    lia.
Qed.

Lemma euler_rounded (p v t : R) :
  Rabs (F32.round (p + F32.round (v * t)) - (p + v * t)) <=
  u32 * (Rabs p + 3 * Rabs (v * t)).
Proof.
  pose proof (round_rel (v * t)) as H1.
  pose proof (round_rel (p + F32.round (v * t))) as H2.
  pose proof (Rabs_triang p (F32.round (v * t))) as H3.
  pose proof (Rabs_triang (F32.round (v * t) - v * t) (v * t)) as H4.
  replace (F32.round (v * t) - v * t + v * t) with (F32.round (v * t)) in H4
    by ring.
  pose proof (Rabs_pos p) as Hp. pose proof (Rabs_pos (v * t)) as Hvt.
  replace (F32.round (p + F32.round (v * t)) - (p + v * t))
    with ((F32.round (p + F32.round (v * t)) - (p + F32.round (v * t))) +
          (F32.round (v * t) - v * t)) by ring.
  eapply Rle_trans; [apply Rabs_triang | ].
  unfold u32 in *. lra.
Qed.

(** X25. The step of the ball in binary32.  [update] leaves a ball at rest
    as it is and never changes the velocity, the radius or the flag.  A
    ball in motion has each coordinate advanced by the velocity times the
    frame time, the product and the sum each rounded; the result is the
    Euler step [p + v * t] up to a rounding error of at most
    [2^-24 * (|p| + 3 |v * t|)] in each coordinate. *)
Theorem X25_ball_step_rounded (t : R) (b : Ball.t) :
  let b' := Ball32.update t b in
  let px := sf.x (Ball.position b) in
  let py := sf.y (Ball.position b) in
  let vx := sf.x (Ball.velocity b) in
  let vy := sf.y (Ball.velocity b) in
  (Ball.moving b = false -> b' = b) /\
  Ball.velocity b' = Ball.velocity b /\
  Ball.radius b' = Ball.radius b /\
  Ball.moving b' = Ball.moving b /\
  (Ball.moving b = true ->
   sf.x (Ball.position b') = F32.round (px + F32.round (vx * t)) /\
   sf.y (Ball.position b') = F32.round (py + F32.round (vy * t)) /\
   Rabs (sf.x (Ball.position b') - sf.x (Ball.position (Ball.update t b))) <=
     u32 * (Rabs px + 3 * Rabs (vx * t)) /\
   Rabs (sf.y (Ball.position b') - sf.y (Ball.position (Ball.update t b))) <=
     u32 * (Rabs py + 3 * Rabs (vy * t))).
Proof.
  destruct b as [[px py] [vx vy] rad mv]. unfold Ball32.update, Ball.update.
  cbn [Ball.moving Ball.position Ball.velocity Ball.radius sf.x sf.y].
  destruct mv; cbn [negb Ball.moving Ball.position Ball.velocity Ball.radius
    sf.x sf.y].
  - split; [discriminate | ]. do 3 (split; [reflexivity | ]). intros _.
    split; [reflexivity | ]. split; [reflexivity | ].
    split; apply euler_rounded.
  - split; [reflexivity | ]. do 3 (split; [reflexivity | ]). discriminate.
Qed.
